(** * PubSubX broker (src/server.py): a shallow embedding and its properties

    The broker is a single-threaded epoll loop.  Its Python state (seven
    dictionaries, the Client objects they share, the epoll registrations)
    is modelled as one record that is passed explicitly; Python exceptions
    are a result type.  What the operating system hands to the program
    (the descriptor returned by [accept], the bytes returned by [recv], the
    readings of [time.time()]) is an argument of the handler that asks
    for it; what the program hands to the operating system (socket sends,
    epoll calls) is appended to a log kept in the state.

    Python [bytes] are [list byte]; Python [str] is [string], holding the
    UTF-8 encoding of the text, so that [encode] and a successful [decode]
    do not change the underlying octets.  Python [int] is [Z].  The floats
    returned by [time.time()] are rationals ([Q]), in seconds.  The
    [print_info] and [print_error] console lines are not modelled, except
    for the diagnostic of the entry point. *)

From Stdlib Require Import Strings.Byte QArith.QArith_base.
From stdpp Require Import gmap strings list fin_maps.

#[local] Open Scope Z_scope.

(** ** Bytes and strings *)

Abbreviation bytes := (list byte).

#[global] Instance byte_eq_dec : EqDecision byte := Byte.byte_eq_dec.

(** [len(b)] *)
Definition len {A} (b : list A) : Z := Z.of_nat (length b).

(** [str.encode()]: the octets of the text. *)
Definition encode (s : string) : bytes := String.list_byte_of_string s.

(** Well-formed UTF-8 (RFC 3629), which is what Python's strict decoder
    accepts: no overlong forms, no surrogates, nothing above U+10FFFF. *)
Definition in_range (lo hi : N) (b : byte) : bool :=
  (lo <=? Byte.to_N b)%N && (Byte.to_N b <=? hi)%N.

Definition cont (b : byte) : bool := in_range 128 191 b.

Fixpoint utf8_valid (s : bytes) : bool :=
  match s with
  | [] => true
  | b0 :: t0 =>
    if in_range 0 127 b0 then utf8_valid t0
    else match t0 with
    | [] => false
    | b1 :: t1 =>
      if in_range 194 223 b0 then cont b1 && utf8_valid t1
      else match t1 with
      | [] => false
      | b2 :: t2 =>
        if in_range 224 224 b0 then in_range 160 191 b1 && cont b2 && utf8_valid t2
        else if in_range 225 236 b0 then cont b1 && cont b2 && utf8_valid t2
        else if in_range 237 237 b0 then in_range 128 159 b1 && cont b2 && utf8_valid t2
        else if in_range 238 239 b0 then cont b1 && cont b2 && utf8_valid t2
        else match t2 with
        | [] => false
        | b3 :: t3 =>
          if in_range 240 240 b0
          then in_range 144 191 b1 && cont b2 && cont b3 && utf8_valid t3
          else if in_range 241 243 b0
          then cont b1 && cont b2 && cont b3 && utf8_valid t3
          else if in_range 244 244 b0
          then in_range 128 143 b1 && cont b2 && cont b3 && utf8_valid t3
          else false
        end
      end
    end
  end.

(** [bytes.decode()]: [None] stands for UnicodeDecodeError. *)
Definition decode (b : bytes) : option string :=
  if utf8_valid b then Some (String.string_of_list_byte b) else None.

(** [len(s)] of a [str]: code points, i.e. octets that are not
    continuation octets. *)
Definition str_len (s : string) : Z :=
  len (filter (λ b, cont b = false) (encode s)).

Definition SPACE : Ascii.ascii := Ascii.ascii_of_N 32.

(** [s.split(' ')] *)
Fixpoint str_split (s : string) : list string :=
  match s with
  | EmptyString => [EmptyString]
  | String c s' =>
    if Ascii.eqb c SPACE then EmptyString :: str_split s'
    else match str_split s' with
         | h :: t => String c h :: t
         | [] => [String c EmptyString]
         end
  end.

(** [" ".join(l)] *)
Fixpoint str_join (l : list string) : string :=
  match l with
  | [] => EmptyString
  | [x] => x
  | x :: l' => x +:+ " " +:+ str_join l'
  end.

(** ** Frame codec *)

(** [EOM = b'\n\nx'] *)
Definition EOM : bytes := [x0a; x0a; x78].
Definition BUFFER_SIZE : Z := 1024.
Definition MAX_REQUEST_SIZE : Z := 10 * BUFFER_SIZE.
Definition LOST_TIMEOUT : Q := 60 # 1.

Definition is_EOM (a b c : byte) : bool := bool_decide ([a; b; c] = EOM).

Definition push_front (a : byte) (l : list bytes) : list bytes :=
  match l with
  | h :: t => (a :: h) :: t
  | [] => [[a]]
  end.

(** [s.split(EOM)]: the fragments between the occurrences of the
    delimiter, found left to right without overlap. *)
Fixpoint split_EOM (s : bytes) : list bytes :=
  match s with
  | [] => [[]]
  | a :: t =>
    match t with
    | b :: c :: r =>
      if is_EOM a b c then [] :: split_EOM r else push_front a (split_EOM t)
    | _ => push_front a (split_EOM t)
    end
  end.

(** [EOM in s] *)
Fixpoint contains_EOM (s : bytes) : bool :=
  match s with
  | [] => false
  | _ :: t => bool_decide (EOM `prefix_of` s) || contains_EOM t
  end.

(** [s.endswith(EOM)] *)
Definition endswith_EOM (s : bytes) : bool := bool_decide (EOM `suffix_of` s).

(** [bin_msg_list.pop(len(bin_msg_list) - 1)] on a non-empty list: the
    popped element and what is left. *)
Definition pop_last (l : list bytes) : bytes * list bytes :=
  (List.last l [], removelast l).

(** Lines 505-525 of [__receive_request_chunk]: what the inbound buffer
    becomes and which fragments go to [__process_message], given the buffer
    and a non-empty chunk. *)
Definition frame_extract (request chunk : bytes) : bytes * list bytes :=
  let request := request ++ chunk in
  if MAX_REQUEST_SIZE <? len request then ([], [])
  else if contains_EOM request then
    let bin_msg_list := split_EOM request in
    if endswith_EOM request then ([], snd (pop_last bin_msg_list))
    else pop_last bin_msg_list
  else (request, []).

(** Frame-out: [payload + EOM]. *)
Definition frame (payload : bytes) : bytes := payload ++ EOM.

(** The frame encoding of a list of messages. *)
Definition frame_all (msgs : list bytes) : bytes := concat (map frame msgs).

(** Lines 536-548 of [__process_message]: the command, first argument and
    data handed to [__process_command]; [None] when the message is skipped. *)
Definition parse_message (bin_msg : bytes) : option (string * string * string) :=
  if bool_decide (bin_msg = []) then None
  else match decode bin_msg with
  | None => None
  | Some msg =>
    let msg_list := str_split msg in
    let command := default EmptyString (msg_list !! 0%nat) in
    let arg1 := default EmptyString (msg_list !! 1%nat) in
    let data := str_join (drop 2 msg_list) in
    Some (command, arg1, data)
  end.

(** Feeding the chunks read from one connection, in order, through the
    framer: the residual buffer and the fragments given to
    [__process_message]. *)
Fixpoint feed (request : bytes) (chunks : list bytes) : bytes * list bytes :=
  match chunks with
  | [] => (request, [])
  | chunk :: rest =>
    let '(request', out) := frame_extract request chunk in
    let '(final, out') := feed request' rest in
    (final, out ++ out')
  end.

(** ** Python exceptions *)

(** An exception that nothing catches ends the server: [Raise] has no
    state.  [KeyError] is a missing dictionary key or set element,
    [OSError] a refused epoll call (registering a registered descriptor,
    modifying or removing an unregistered one).  [DanglingRef] is not a
    Python exception: it is the reading of an object that was never
    allocated, which the model needs to be total and which a well-formed
    state never meets. *)
Inductive exn := KeyError | AssertionError | OSError | DanglingRef.

Inductive result (A : Type) :=
| Ok (a : A)
| Raise (e : exn).
Arguments Ok {A} a.
Arguments Raise {A} e.

Definition bind {A B} (m : result A) (k : A → result B) : result B :=
  match m with
  | Ok a => k a
  | Raise e => Raise e
  end.

Notation "'do' x <- m ; k" := (bind m (λ x, k))
  (at level 10, x pattern, m at level 100, k at level 200).

(** [d[k]] *)
Definition getitem `{Countable K} {V} (d : gmap K V) (k : K) : result V :=
  match d !! k with
  | Some v => Ok v
  | None => Raise KeyError
  end.

(** [del d[k]] *)
Definition delitem `{Countable K} {V} (d : gmap K V) (k : K) : result (gmap K V) :=
  match d !! k with
  | Some _ => Ok (delete k d)
  | None => Raise KeyError
  end.

(** [del d[k]] for a dictionary of which only the keys are modelled, and
    [s.remove(x)] for a set. *)
Definition set_remove `{Countable K} (d : gset K) (k : K) : result (gset K) :=
  if decide (k ∈ d) then Ok (d ∖ {[k]}) else Raise KeyError.

(** [for x in l: body(x)] *)
Fixpoint for_each {A S} (l : list A) (body : A → S → result S) (s : S) : result S :=
  match l with
  | [] => Ok s
  | x :: l' => do s' <- body x s; for_each l' body s'
  end.

(** ** The Client class *)

Module Client.

Definition MAX_STREAM_SIZE : Z := 10 * 1024.

Record t := mk {
  name : string;
  fileno : Z;
  connected : bool;
  lost_time : Q;
  message_stream : bytes;
  topics : gset string;
}.

Definition init (name : string) (fileno : Z) : t :=
  {| name := name; fileno := fileno; connected := true; lost_time := 0 # 1;
     message_stream := []; topics := ∅ |}.

Definition set_fileno (v : Z) (c : t) : t :=
  mk (name c) v (connected c) (lost_time c) (message_stream c) (topics c).
Definition set_connected (v : bool) (c : t) : t :=
  mk (name c) (fileno c) v (lost_time c) (message_stream c) (topics c).
Definition set_lost_time (v : Q) (c : t) : t :=
  mk (name c) (fileno c) (connected c) v (message_stream c) (topics c).
Definition set_message_stream (v : bytes) (c : t) : t :=
  mk (name c) (fileno c) (connected c) (lost_time c) v (topics c).
Definition set_topics (v : gset string) (c : t) : t :=
  mk (name c) (fileno c) (connected c) (lost_time c) (message_stream c) v.

Definition subscribe (topic : string) (c : t) : bool * t :=
  if decide (topic ∉ topics c)
  then (true, set_topics (topics c ∪ {[topic]}) c)
  else (false, c).

Definition unsubscribe (topic : string) (c : t) : bool * t :=
  if decide (topic ∈ topics c)
  then (true, set_topics (topics c ∖ {[topic]}) c)
  else (false, c).

Definition add_message (message : bytes) (c : t) : Z * t :=
  let c' :=
    if len (message_stream c) + len message <? MAX_STREAM_SIZE
    then set_message_stream (message_stream c ++ message) c
    else c in
  (len (message_stream c'), c').

Definition message_stream_size (c : t) : Z := len (message_stream c).

Definition get_message_chunk (max_chunk_size : Z) (c : t) : (bytes * Z) * t :=
  let stream_size := message_stream_size c in
  let remove := if max_chunk_size <? stream_size then max_chunk_size else stream_size in
  let msg_chunk := take (Z.to_nat remove) (message_stream c) in
  let c' := set_message_stream (drop (Z.to_nat remove) (message_stream c)) c in
  let remaining := stream_size - remove in
  ((msg_chunk, remaining), c').

End Client.

(** ** The Server class *)

(** Calls into the operating system, in the order they are made. *)
Inductive call :=
| SockSend (fileno : Z) (data : bytes)
| SockShutdown (fileno : Z)
| SockClose (fileno : Z)
| EpollRegister (fileno eventmask : Z)
| EpollModify (fileno eventmask : Z)
| EpollUnregister (fileno : Z).

Definition EPOLLIN : Z := 1.
Definition EPOLLOUT : Z := 4.

Module Server.

(** Client objects are shared by the dictionaries and the topic sets
    that refer to them: [objects] is the store, a reference is a key of
    it.  The dictionaries [connections] and [pending] map a descriptor to
    its socket object, which has no state of its own here: only their
    key sets are kept.  [socket_fileno] is [self.__socket.fileno()]. *)
Record t := mk {
  socket_fileno : Z;
  connections : gset Z;
  pending : gset Z;
  requests : gmap Z bytes;
  connected : gmap Z positive;
  connected_names : gmap string positive;
  temp_lost : gmap string positive;
  topics : gmap string (gset positive);
  last_refresh : Q;
  objects : gmap positive Client.t;
  epoll : gmap Z Z;
  log : list call;
}.

Definition set_connections v s :=
  mk (socket_fileno s) v (pending s) (requests s) (connected s) (connected_names s)
     (temp_lost s) (topics s) (last_refresh s) (objects s) (epoll s) (log s).
Definition set_pending v s :=
  mk (socket_fileno s) (connections s) v (requests s) (connected s) (connected_names s)
     (temp_lost s) (topics s) (last_refresh s) (objects s) (epoll s) (log s).
Definition set_requests v s :=
  mk (socket_fileno s) (connections s) (pending s) v (connected s) (connected_names s)
     (temp_lost s) (topics s) (last_refresh s) (objects s) (epoll s) (log s).
Definition set_connected v s :=
  mk (socket_fileno s) (connections s) (pending s) (requests s) v (connected_names s)
     (temp_lost s) (topics s) (last_refresh s) (objects s) (epoll s) (log s).
Definition set_connected_names v s :=
  mk (socket_fileno s) (connections s) (pending s) (requests s) (connected s) v
     (temp_lost s) (topics s) (last_refresh s) (objects s) (epoll s) (log s).
Definition set_temp_lost v s :=
  mk (socket_fileno s) (connections s) (pending s) (requests s) (connected s)
     (connected_names s) v (topics s) (last_refresh s) (objects s) (epoll s) (log s).
Definition set_topics v s :=
  mk (socket_fileno s) (connections s) (pending s) (requests s) (connected s)
     (connected_names s) (temp_lost s) v (last_refresh s) (objects s) (epoll s) (log s).
Definition set_last_refresh v s :=
  mk (socket_fileno s) (connections s) (pending s) (requests s) (connected s)
     (connected_names s) (temp_lost s) (topics s) v (objects s) (epoll s) (log s).
Definition set_objects v s :=
  mk (socket_fileno s) (connections s) (pending s) (requests s) (connected s)
     (connected_names s) (temp_lost s) (topics s) (last_refresh s) v (epoll s) (log s).
Definition set_epoll v s :=
  mk (socket_fileno s) (connections s) (pending s) (requests s) (connected s)
     (connected_names s) (temp_lost s) (topics s) (last_refresh s) (objects s) v (log s).
Definition set_log v s :=
  mk (socket_fileno s) (connections s) (pending s) (requests s) (connected s)
     (connected_names s) (temp_lost s) (topics s) (last_refresh s) (objects s) (epoll s) v.

Definition emit (c : call) (s : t) : t := set_log (log s ++ [c]) s.

(** *** The operating system, as far as the server depends on it *)

(** [self.__epoll.register(fileno, eventmask)] *)
Definition epoll_register (fileno eventmask : Z) (s : t) : result t :=
  match epoll s !! fileno with
  | Some _ => Raise OSError
  | None => Ok (emit (EpollRegister fileno eventmask)
                     (set_epoll (<[fileno := eventmask]> (epoll s)) s))
  end.

(** [self.__epoll.modify(fileno, eventmask)] *)
Definition epoll_modify (fileno eventmask : Z) (s : t) : result t :=
  match epoll s !! fileno with
  | Some _ => Ok (emit (EpollModify fileno eventmask)
                       (set_epoll (<[fileno := eventmask]> (epoll s)) s))
  | None => Raise OSError
  end.

(** [self.__epoll.unregister(fileno)] *)
Definition epoll_unregister (fileno : Z) (s : t) : result t :=
  match epoll s !! fileno with
  | Some _ => Ok (emit (EpollUnregister fileno) (set_epoll (delete fileno (epoll s)) s))
  | None => Raise OSError
  end.

(** [self.__connections[fileno].send(data)] *)
Definition connection_send (fileno : Z) (data : bytes) (s : t) : result t :=
  if decide (fileno ∈ connections s) then Ok (emit (SockSend fileno data) s)
  else Raise KeyError.

(** Reading and updating the Client object behind a reference. *)
Definition deref (client : positive) (s : t) : result Client.t :=
  match objects s !! client with
  | Some c => Ok c
  | None => Raise DanglingRef
  end.

Definition update (client : positive) (f : Client.t → Client.t) (s : t) : t :=
  set_objects (alter f client (objects s)) s.

(** *** Server init: the state when [server_loop] is entered *)
Definition init (listen_fileno : Z) (now : Q) : t :=
  {| socket_fileno := listen_fileno; connections := ∅; pending := ∅; requests := ∅;
     connected := ∅; connected_names := ∅; temp_lost := ∅; topics := ∅;
     last_refresh := now; objects := ∅;
     epoll := {[ listen_fileno := EPOLLIN ]};
     log := [EpollRegister listen_fileno EPOLLIN] |}.

(** *** Connections *)

(** [__connection_register]: [accepted] is the descriptor of the
    connection that [self.__socket.accept()] returns; the [fileno]
    argument is overwritten before it is read. *)
Definition connection_register (fileno : Z) (accepted : Z) (s : t) : result t :=
  let fileno := accepted in
  do s <- epoll_register fileno EPOLLIN s;
  let s := set_connections (connections s ∪ {[fileno]}) s in
  let s := set_pending (pending s ∪ {[fileno]}) s in
  let s := set_requests (<[fileno := []]> (requests s)) s in
  Ok s.

(** [__connection_remove] *)
Definition connection_remove (fileno : Z) (s : t) : result t :=
  do s <- epoll_unregister fileno s;
  if decide (fileno ∈ connections s) then
    let s := emit (SockClose fileno) (emit (SockShutdown fileno) s) in
    let s := set_connections (connections s ∖ {[fileno]}) s in
    do r <- delitem (requests s) fileno;
    let s := set_requests r s in
    let s := if decide (fileno ∈ pending s)
             then set_pending (pending s ∖ {[fileno]}) s else s in
    Ok s
  else Raise KeyError.

(** *** Client lifecycle *)

(** The body of the loop of [__client_remove] over [client.topics]. *)
Definition client_remove_topic (client : positive) (topic : string) (s : t) : result t :=
  do subscribers <- getitem (topics s) topic;
  do subscribers <- set_remove subscribers client;
  let s := set_topics (<[topic := subscribers]> (topics s)) s in
  if decide (subscribers = ∅)
  then Ok (set_topics (delete topic (topics s)) s)
  else Ok s.

(** [__client_remove] *)
Definition client_remove (client : positive) (s : t) : result t :=
  do c <- deref client s;
  do s <- (if Client.connected c then
             do d <- delitem (connected s) (Client.fileno c);
             let s := set_connected d s in
             do d <- delitem (connected_names s) (Client.name c);
             Ok (set_connected_names d s)
           else
             do d <- delitem (temp_lost s) (Client.name c);
             Ok (set_temp_lost d s));
  do s <- for_each (elements (Client.topics c)) (client_remove_topic client) s;
  if Client.connected c then connection_remove (Client.fileno c) s else Ok s.

(** [__client_restore] *)
Definition client_restore (fileno : Z) (client_name : string) (s : t) : result t :=
  do client <- getitem (temp_lost s) client_name;
  do c <- deref client s;
  let msg1 := encode ("RESTORED " +:+ client_name) ++ EOM in
  let msg2 := encode (str_join (elements (Client.topics c))) ++ EOM in
  let ret_msg := msg1 ++ msg2 in
  do s <- connection_send fileno ret_msg s;
  do p <- set_remove (pending s) fileno;
  let s := set_pending p s in
  do d <- delitem (temp_lost s) client_name;
  let s := set_temp_lost d s in
  let s := set_connected (<[fileno := client]> (connected s)) s in
  let s := set_connected_names (<[client_name := client]> (connected_names s)) s in
  let s := update client (Client.set_fileno fileno) s in
  let s := update client (Client.set_connected true) s in
  do c <- deref client s;
  if decide (Client.message_stream_size c ≠ 0)
  then epoll_modify fileno (Z.lor EPOLLIN EPOLLOUT) s
  else Ok s.

(** [__client_add]: the new Client object gets a reference that no
    object has had. *)
Definition client_add (fileno : Z) (client_name : string) (s : t) : result t :=
  let client := fresh (dom (objects s)) in
  let s := set_objects (<[client := Client.init client_name fileno]> (objects s)) s in
  let ret_msg := encode "OK: Conn accepted" ++ EOM in
  do s <- connection_send fileno ret_msg s;
  let s := set_connected (<[fileno := client]> (connected s)) s in
  let s := set_connected_names (<[client_name := client]> (connected_names s)) s in
  do p <- set_remove (pending s) fileno;
  Ok (set_pending p s).

(** [__client_lost]: [now] is the reading of [time.time()]. *)
Definition client_lost (fileno : Z) (now : Q) (s : t) : result t :=
  do client <- getitem (connected s) fileno;
  do c <- deref client s;
  do d <- delitem (connected s) fileno;
  let s := set_connected d s in
  do d <- delitem (connected_names s) (Client.name c);
  let s := set_connected_names d s in
  let s := set_temp_lost (<[Client.name c := client]> (temp_lost s)) s in
  let s := update client (Client.set_fileno 0) s in
  let s := update client (Client.set_connected false) s in
  let s := update client (Client.set_lost_time now) s in
  connection_remove fileno s.

(** [(now - client.lost_time) > self.LOST_TIMEOUT] *)
Definition lost_too_long (now : Q) (c : Client.t) : bool :=
  negb (Qle_bool (now - Client.lost_time c) LOST_TIMEOUT).

(** The first loop of [__clients_remove_dead]: the set [remove_list]. *)
Definition remove_list (now : Q) (s : t) : result (gset positive) :=
  for_each (map_to_list (temp_lost s))
    (λ '(client_name, client) remove_list,
       do c <- deref client s;
       if lost_too_long now c then Ok (remove_list ∪ {[client]}) else Ok remove_list)
    ∅.

(** [__clients_remove_dead] *)
Definition clients_remove_dead (now : Q) (s : t) : result t :=
  do remove_list <- remove_list now s;
  for_each (elements remove_list) client_remove s.

(** *** Commands *)

(** [__process_connect] *)
Definition process_connect (fileno : Z) (client_name : string) (s : t) : result t :=
  if decide (client_name = "") then Raise AssertionError
  else if decide (is_Some (connected_names s !! client_name)) then
    let ret_msg := encode "ERROR: Name already taken" ++ EOM in
    do s <- connection_send fileno ret_msg s;
    connection_remove fileno s
  else if decide (is_Some (temp_lost s !! client_name)) then
    client_restore fileno client_name s
  else
    client_add fileno client_name s.

(** [__process_disconect] *)
Definition process_disconect (fileno : Z) (s : t) : result t :=
  do client <- getitem (connected s) fileno;
  client_remove client s.

(** The body of the loop of [__process_publish] over the subscribers. *)
Definition publish_to (message : bytes) (client : positive) (s : t) : result t :=
  do c <- deref client s;
  let '(size, c) := Client.add_message message c in
  let s := set_objects (<[client := c]> (objects s)) s in
  if decide (size = len message) then
    let fileno := Client.fileno c in
    if decide (is_Some (connected s !! fileno))
    then epoll_modify fileno (Z.lor EPOLLIN EPOLLOUT) s
    else Ok s
  else Ok s.

(** [__process_publish] *)
Definition process_publish (topic data : string) (s : t) : result t :=
  if decide (topic = "") then Raise AssertionError
  else match topics s !! topic with
  | Some subscribers =>
    let message := encode (topic +:+ " " +:+ data) ++ EOM in
    for_each (elements subscribers) (publish_to message) s
  | None => Ok s
  end.

(** [__process_subscribe] *)
Definition process_subscribe (fileno : Z) (topic : string) (s : t) : result t :=
  if decide (topic = "") then Raise AssertionError
  else
    do client <- getitem (connected s) fileno;
    do c <- deref client s;
    let '(added, c) := Client.subscribe topic c in
    let s := set_objects (<[client := c]> (objects s)) s in
    if added then
      match topics s !! topic with
      | None => Ok (set_topics (<[topic := ∅ ∪ {[client]}]> (topics s)) s)
      | Some subscribers =>
        Ok (set_topics (<[topic := subscribers ∪ {[client]}]> (topics s)) s)
      end
    else Ok s.

(** [__process_unsubscribe] *)
Definition process_unsubscribe (fileno : Z) (topic : string) (s : t) : result t :=
  if decide (topic = "") then Raise AssertionError
  else
    do client <- getitem (connected s) fileno;
    do c <- deref client s;
    let '(removed, c) := Client.unsubscribe topic c in
    let s := set_objects (<[client := c]> (objects s)) s in
    if removed then client_remove_topic client topic s
    else Ok s.

(** [__process_command] *)
Definition process_command (fileno : Z) (command arg1 data : string) (s : t)
  : result t :=
  if decide (fileno ∈ pending s) then
    if decide (command = "CONNECT" ∧ arg1 ≠ "")
    then process_connect fileno arg1 s
    else connection_remove fileno s
  else if decide (command = "DISCONNECT") then process_disconect fileno s
  else if decide (command = "PUBLISH" ∧ arg1 ≠ "") then process_publish arg1 data s
  else if decide (command = "SUBSCRIBE" ∧ arg1 ≠ "") then process_subscribe fileno arg1 s
  else if decide (command = "UNSUBSCRIBE" ∧ arg1 ≠ "")
  then process_unsubscribe fileno arg1 s
  else Ok s.

(** *** I/O *)

(** [__process_message] *)
Definition process_message (fileno : Z) (bin_msg : bytes) (s : t) : result t :=
  match parse_message bin_msg with
  | None => Ok s
  | Some (command, arg1, data) => process_command fileno command arg1 data s
  end.

(** [__receive_request_chunk]: [request_chunk] is what [recv] returns
    and [now] the reading of [time.time()] made if the client is lost. *)
Definition receive_request_chunk (fileno : Z) (request_chunk : bytes) (now : Q) (s : t)
  : result t :=
  if decide (fileno ∈ connections s) then
    if decide (request_chunk = []) then
      if decide (is_Some (connected s !! fileno)) then client_lost fileno now s
      else if decide (fileno ∈ pending s) then connection_remove fileno s
      else Raise AssertionError
    else
      do request <- getitem (requests s) fileno;
      let '(request, bin_msg_list) := frame_extract request request_chunk in
      let s := set_requests (<[fileno := request]> (requests s)) s in
      for_each bin_msg_list (process_message fileno) s
  else Raise KeyError.

(** [__send_message_chunk] *)
Definition send_message_chunk (fileno : Z) (s : t) : result t :=
  do client <- getitem (connected s) fileno;
  do c <- deref client s;
  let '((msg_chunk, remaining), c) := Client.get_message_chunk BUFFER_SIZE c in
  let s := set_objects (<[client := c]> (objects s)) s in
  if decide (len msg_chunk ≤ BUFFER_SIZE) then
    do s <- connection_send fileno msg_chunk s;
    if decide (remaining = 0) then epoll_modify fileno EPOLLIN s else Ok s
  else Raise AssertionError.

(** *** The main loop *)

(** One entry of the list that [self.__epoll.poll(1)] returns, with what
    the operating system answers if the handler of the entry asks:
    the accepted descriptor, the bytes received, the time. *)
Record ready := {
  ready_fileno : Z;
  ready_event : Z;
  accepted : Z;
  received : bytes;
  clock : Q;
}.

(** The body of the loop of [server_loop] over the events. *)
Definition dispatch (r : ready) (s : t) : result t :=
  let fileno := ready_fileno r in
  let event := ready_event r in
  if decide (fileno = socket_fileno s) then connection_register fileno (accepted r) s
  else if decide (Z.land event EPOLLIN ≠ 0)
  then receive_request_chunk fileno (received r) (clock r) s
  else if decide (Z.land event EPOLLOUT ≠ 0) then send_message_chunk fileno s
  else Ok s.

(** [if (self.__temp_lost) and (self.__last_refresh - time.time())]:
    a dictionary is true when it is not empty, a float when it is not
    zero.  [time1] is the reading of [time.time()] in the test. *)
Definition refresh_due (time1 : Q) (s : t) : bool :=
  bool_decide (temp_lost s ≠ ∅) && negb (Qeq_bool (last_refresh s - time1) (0 # 1)).

(** Lines 597-600 of [server_loop]: [time2] is the second reading. *)
Definition refresh (time1 time2 : Q) (s : t) : result t :=
  if refresh_due time1 s then
    let now := time2 in
    let s := set_last_refresh now s in
    clients_remove_dead now s
  else Ok s.

(** One iteration of [while True] in [server_loop]. *)
Definition server_loop_iteration (events : list ready) (time1 time2 : Q) (s : t)
  : result t :=
  do s <- for_each events dispatch s;
  refresh time1 time2 s.

End Server.

(** ** Usage mode *)

Definition WRONG_PORT : string :=
  "Server port number is wrong or not enterd, must be integer in range 1024 < port < 32000".

(** What the [__main__] block does: leave with a line on the console and
    an exit status, or construct the server on a port and enter
    [server_loop]. *)
Inductive outcome :=
| Exit (printed : string) (status : Z)
| Serve (port : Z).

Section Main.

(** [int(s)] for a [str], [None] standing for ValueError. *)
Variable int : string → option Z.

(** The [try] block: a missing [sys.argv[1]] (IndexError), a failing
    [int] (ValueError) and the raised [Exception] all reach the bare
    [except]. *)
Definition parse_port (argv : list string) : option Z :=
  match argv !! 1%nat with
  | None => None
  | Some a =>
    match int a with
    | None => None
    | Some port => if bool_decide (1024 < port < 32000) then Some port else None
    end
  end.

(** [exit()] without an argument raises [SystemExit(None)]: the process
    ends with status 0. *)
Definition main (argv : list string) : outcome :=
  match parse_port argv with
  | None => Exit ("ERROR: " +:+ WRONG_PORT) 0
  | Some port => Serve port
  end.

End Main.

(** A reading of [int] for the plain case: a non-empty run of ASCII digits. *)
Definition digit (c : Ascii.ascii) : option Z :=
  let n := Z.of_N (Ascii.N_of_ascii c) in
  if bool_decide (48 ≤ n ≤ 57) then Some (n - 48) else None.

Fixpoint digits (acc : Z) (s : string) : option Z :=
  match s with
  | EmptyString => Some acc
  | String c s' =>
    match digit c with
    | Some d => digits (10 * acc + d) s'
    | None => None
    end
  end.

Definition int_of_digits (s : string) : option Z :=
  match s with
  | EmptyString => None
  | _ => digits 0 s
  end.

(** ** Helpers of the statements *)

(** [EOM.join(l)], the inverse of [split_EOM]. *)
Fixpoint join_EOM (l : list bytes) : bytes :=
  match l with
  | [] => []
  | [x] => x
  | x :: l' => x ++ EOM ++ join_EOM l'
  end.

Definition a_ : byte := "a"%byte.
Definition b_ : byte := "b"%byte.

(** A stream of [n] octets, all [a]. *)
Definition filler (n : Z) : bytes := replicate (Z.to_nat n) a_.

Definition with_stream (stream : bytes) (c : Client.t) : Client.t :=
  Client.set_message_stream stream c.

(** ** Well-formed states *)

(** A client is live when it is connected or temporarily lost. *)
Definition live (s : Server.t) (client : positive) : Prop :=
  (∃ fileno, Server.connected s !! fileno = Some client) ∨
  (∃ name, Server.temp_lost s !! name = Some client).

(** What the dictionaries of a state between two loop iterations have to
    do with each other and with the Client objects. *)
Record wf (s : Server.t) : Prop := {
  wf_connected : ∀ fileno client,
    Server.connected s !! fileno = Some client →
    ∃ c, Server.objects s !! client = Some c ∧ Client.fileno c = fileno ∧
         Client.connected c = true ∧
         Server.connected_names s !! Client.name c = Some client;
  wf_connected_names : ∀ name client,
    Server.connected_names s !! name = Some client →
    ∃ c, Server.objects s !! client = Some c ∧ Client.name c = name ∧ name ≠ EmptyString ∧
         Server.connected s !! Client.fileno c = Some client;
  wf_temp_lost : ∀ name client,
    Server.temp_lost s !! name = Some client →
    ∃ c, Server.objects s !! client = Some c ∧ Client.name c = name ∧ name ≠ EmptyString ∧
         Client.connected c = false ∧ Client.fileno c = 0 ∧
         Server.connected_names s !! name = None;
  wf_topics_sound : ∀ topic subscribers client,
    Server.topics s !! topic = Some subscribers → client ∈ subscribers →
    live s client ∧
    ∃ c, Server.objects s !! client = Some c ∧ topic ∈ Client.topics c;
  wf_topics_nonempty : ∀ topic, Server.topics s !! topic ≠ Some ∅;
  wf_topics_complete : ∀ client c topic,
    live s client → Server.objects s !! client = Some c → topic ∈ Client.topics c →
    ∃ subscribers, Server.topics s !! topic = Some subscribers ∧ client ∈ subscribers;
  wf_pending : Server.pending s ⊆ Server.connections s;
  wf_bound : dom (Server.connected s) ⊆ Server.connections s;
  wf_pending_bound : Server.pending s ## dom (Server.connected s);
  wf_registered : Server.connections s ⊆ dom (Server.epoll s);
}.

(** The states in which [server_loop] starts an iteration. *)
Inductive reachable : Server.t → Prop :=
| reachable_init listen_fileno now : reachable (Server.init listen_fileno now)
| reachable_iteration s events time1 time2 s' :
    reachable s →
    Server.server_loop_iteration events time1 time2 s = Ok s' →
    reachable s'.

(** Marks a fact whose consequences are already in the context. *)
Inductive learnt (P : Prop) : Prop := Learnt.

(** The part of [wf] about descriptors: the pending and the bound
    descriptors are apart, both are open connections, and every open
    connection is registered with epoll. *)
Definition conn_ok (connections pending bound registered : gset Z) : Prop :=
  pending ⊆ connections ∧ bound ⊆ connections ∧ pending ## bound ∧
  connections ⊆ registered.

(** A topic entry after [client] has left it: gone when nobody is left. *)
Definition without (client : positive) (subscribers : gset positive)
  : option (gset positive) :=
  if decide (subscribers ∖ {[client]} = ∅) then None
  else Some (subscribers ∖ {[client]}).

(** ** The claims' vocabulary *)

(** The names of the Client objects that a dictionary refers to. *)
Definition client_names {K} `{Countable K} (s : Server.t) (d : gmap K positive)
  : list string :=
  omap (λ '(_, client), Client.name <$> Server.objects s !! client) (map_to_list d).

Definition connected_client_names (s : Server.t) : list string :=
  client_names s (Server.connected s).

Definition lost_client_names (s : Server.t) : list string :=
  client_names s (Server.temp_lost s).

(** [client] is a subscriber of [topic] in the topic index. *)
Definition indexed (s : Server.t) (topic : string) (client : positive) : Prop :=
  ∃ subscribers, Server.topics s !! topic = Some subscribers ∧ client ∈ subscribers.

(** ** Scenarios *)

(** Entries of the list that [poll] returns: a new connection on the
    listening socket, bytes (or end of stream) on a connection, a
    connection ready for writing. *)
Definition accept_event (listen_fileno accepted : Z) : Server.ready :=
  {| Server.ready_fileno := listen_fileno; Server.ready_event := EPOLLIN;
     Server.accepted := accepted; Server.received := []; Server.clock := 0 # 1 |}.

Definition recv_event (fileno : Z) (received : bytes) (clock : Q) : Server.ready :=
  {| Server.ready_fileno := fileno; Server.ready_event := EPOLLIN;
     Server.accepted := 0; Server.received := received; Server.clock := clock |}.

Definition send_event (fileno : Z) : Server.ready :=
  {| Server.ready_fileno := fileno; Server.ready_event := EPOLLOUT;
     Server.accepted := 0; Server.received := []; Server.clock := 0 # 1 |}.

(** A message of a client, as it is on the wire. *)
Definition wire (msg : string) : bytes := frame (encode msg).

(** Loop iterations in a row: the events of each and the time at which
    its sweep test is made. *)
Definition run (iterations : list (list Server.ready * Q)) (s : Server.t)
  : result Server.t :=
  for_each iterations
    (λ '(events, time), Server.server_loop_iteration events time time) s.

(** The state of a run that did not raise. *)
Definition state_of (listen_fileno : Z) (r : result Server.t) : Server.t :=
  match r with
  | Ok s => s
  | Raise _ => Server.init listen_fileno (0 # 1)
  end.

(** A server listening on descriptor 3, started at time 0. *)
Definition boot : Server.t := Server.init 3 (0 # 1).

(** alice on descriptor 5, bob on descriptor 6; bob subscribes to
    weather and sports. *)
Definition two_clients_script : list (list Server.ready * Q) :=
  [([accept_event 3 5; accept_event 3 6], 1 # 1);
   ([recv_event 5 (wire "CONNECT alice") (1 # 1);
     recv_event 6 (wire "CONNECT bob") (1 # 1)], 1 # 1);
   ([recv_event 6 (wire "SUBSCRIBE weather" ++ wire "SUBSCRIBE sports") (1 # 1)], 2 # 1)].

Definition two_clients : Server.t := state_of 3 (run two_clients_script boot).

(** ... then the connection of bob is closed by the peer at time 40. *)
Definition bob_lost_script : list (list Server.ready * Q) :=
  [([recv_event 6 [] (40 # 1)], 40 # 1)].

Definition bob_lost : Server.t := state_of 3 (run bob_lost_script two_clients).

(** A client whose name has 65 characters connects on descriptor 5. *)
Definition long_name : string :=
  "aaaaaaaaaaaaaaaaaaaaaaaaaaaaaaaaaaaaaaaaaaaaaaaaaaaaaaaaaaaaaaaaa".

Definition long_name_script : list (list Server.ready * Q) :=
  [([accept_event 3 5], 1 # 1);
   ([recv_event 5 (wire ("CONNECT " +:+ long_name)) (1 # 1)], 1 # 1)].

Definition long_name_connected : Server.t := state_of 3 (run long_name_script boot).

(** [IN | OUT]: the event mask of a connection with something to send. *)
Definition READ_WRITE : Z := Z.lor EPOLLIN EPOLLOUT.

(** The epoll call that the fan-out of [message] makes for a subscriber:
    the test of [__process_publish] on what [add_message] returns, then on
    the descriptor of the client. *)
Definition arm (s : Server.t) (message : bytes) (client : positive) : option call :=
  match Server.objects s !! client with
  | Some c =>
    let '(size, c') := Client.add_message message c in
    if decide (size = len message ∧ is_Some (Server.connected s !! Client.fileno c'))
    then Some (EpollModify (Client.fileno c') READ_WRITE)
    else None
  | None => None
  end.

(** ... alice publishes on weather while bob is lost, and a new
    connection is accepted on descriptor 7. *)
Definition bob_returns_script : list (list Server.ready * Q) :=
  [([recv_event 5 (wire "PUBLISH weather rain") (41 # 1)], 41 # 1);
   ([accept_event 3 7], 42 # 1)].

Definition bob_returns : Server.t := state_of 3 (run bob_returns_script bob_lost).

(** The Client object of bob at that point. *)
Definition bob_record : Client.t :=
  {| Client.name := "bob"; Client.fileno := 0; Client.connected := false;
     Client.lost_time := 40 # 1; Client.message_stream := wire "weather rain";
     Client.topics := {["weather"; "sports"]} |}.


(** The stream of a client, empty if there is no such object. *)
Definition stream_of (s : Server.t) (client : positive) : bytes :=
  match Server.objects s !! client with
  | Some c => Client.message_stream c
  | None => []
  end.

(** What is queued stays queued: every Client object of [s] is still there
    in [s'], with a stream that starts with the stream it had. *)
Definition streams_grow (s s' : Server.t) : Prop :=
  ∀ client c,
    Server.objects s !! client = Some c →
    ∃ c', Server.objects s' !! client = Some c' ∧
          Client.message_stream c `prefix_of` Client.message_stream c'.

(** The same for the clients that are lost before and after. *)
Definition lost_kept (s s' : Server.t) : Prop :=
  ∀ name client c,
    Server.temp_lost s !! name = Some client →
    Server.objects s !! client = Some c →
    Server.temp_lost s' !! name = Some client →
    ∃ c', Server.objects s' !! client = Some c' ∧
          Client.message_stream c `prefix_of` Client.message_stream c'.




(** No name occurs twice among the names of the connected and of the lost
    clients taken together. *)
Definition names_unique (s : Server.t) : Prop :=
  NoDup (connected_client_names s ++ lost_client_names s).

(** A live client is in the index entry of a topic exactly when the topic
    is in its subscription set; the index refers to live clients only and
    has no empty entry. *)
Definition index_consistent (s : Server.t) : Prop :=
  (∀ topic client c,
     live s client → Server.objects s !! client = Some c →
     (indexed s topic client ↔ topic ∈ Client.topics c)) ∧
  (∀ topic client, indexed s topic client → live s client) ∧
  (∀ topic, Server.topics s !! topic ≠ Some ∅).

(** ** Descriptors, buffers and event masks *)

(** What the descriptor tables, the request buffers, the streams and the
    epoll registrations of a state between two loop iterations have to do
    with each other: the listening socket and the open connections are what
    is registered, every open connection is pending or bound and has a
    request buffer, which holds no delimiter and stays within
    [MAX_REQUEST_SIZE]; a descriptor is registered for reading, and for
    writing as well when its client has something queued (descriptor 0
    apart, which lost clients carry); a stream stays below
    [MAX_STREAM_SIZE]. *)
Record io_ok (s : Server.t) : Prop := {
  io_listen : Server.epoll s !! Server.socket_fileno s = Some EPOLLIN;
  io_listen_apart : Server.socket_fileno s ∉ Server.connections s;
  io_registered :
    dom (Server.epoll s) = {[Server.socket_fileno s]} ∪ Server.connections s;
  io_partition : Server.connections s = Server.pending s ∪ dom (Server.connected s);
  io_requests : dom (Server.requests s) = Server.connections s;
  io_request_clean : ∀ fileno request,
    Server.requests s !! fileno = Some request →
    contains_EOM request = false ∧ len request ≤ MAX_REQUEST_SIZE;
  io_masks : ∀ fileno eventmask,
    Server.epoll s !! fileno = Some eventmask →
    eventmask = EPOLLIN ∨ eventmask = READ_WRITE;
  io_pending_mask : ∀ fileno,
    fileno ∈ Server.pending s → Server.epoll s !! fileno = Some EPOLLIN;
  io_armed : ∀ fileno client c,
    Server.connected s !! fileno = Some client →
    Server.objects s !! client = Some c →
    Client.message_stream c ≠ [] →
    Server.epoll s !! fileno = Some READ_WRITE;
  io_idle : ∀ fileno client c,
    fileno ≠ 0 →
    Server.connected s !! fileno = Some client →
    Server.objects s !! client = Some c →
    Client.message_stream c = [] →
    Server.epoll s !! fileno = Some EPOLLIN;
  io_stream_bound : ∀ client c,
    Server.objects s !! client = Some c →
    len (Client.message_stream c) < Client.MAX_STREAM_SIZE;
}.

(** The part of [io_ok] about sets of descriptors. *)
Definition desc_ok (listen : Z) (connections pending bound registered buffered : gset Z)
  : Prop :=
  listen ∉ connections ∧ registered = {[listen]} ∪ connections ∧
  connections = pending ∪ bound ∧ buffered = connections ∧ pending ## bound.

(** The streams of [s'] are streams of [s]. *)
Definition streams_from (s s' : Server.t) : Prop :=
  ∀ client c', Server.objects s' !! client = Some c' →
    ∃ c, Server.objects s !! client = Some c ∧
         Client.message_stream c' = Client.message_stream c.

(** ** Events that [poll] can return *)

(** An entry of the list that [poll] returns, as the operating system can
    make it in state [s]: on the listening socket, with a descriptor for the
    new connection that is not in use; or on an open connection, for
    reading, with a chunk that completes at most one message, or for
    writing only, when the connection is that of a connected client (no
    other descriptor is ever registered for writing). *)
Definition plausible (s : Server.t) (r : Server.ready) : Prop :=
  let fileno := Server.ready_fileno r in
  if decide (fileno = Server.socket_fileno s)
  then Server.accepted r ∉ dom (Server.epoll s)
  else
    fileno ∈ Server.connections s ∧
    if decide (Z.land (Server.ready_event r) EPOLLIN ≠ 0) then
      ∀ request, Server.requests s !! fileno = Some request →
                 (length (frame_extract request (Server.received r)).2 ≤ 1)%nat
    else
      Z.land (Server.ready_event r) EPOLLOUT ≠ 0 →
      is_Some (Server.connected s !! fileno).

(** A step that concerns one descriptor leaves the others where they
    are. *)
Definition apart (fileno : Z) (s s' : Server.t) : Prop :=
  Server.socket_fileno s' = Server.socket_fileno s ∧
  ∀ f, f ≠ fileno →
    (f ∈ Server.connections s' ↔ f ∈ Server.connections s) ∧
    Server.requests s' !! f = Server.requests s !! f ∧
    Server.connected s' !! f = Server.connected s !! f.

(** ** Names and topics *)

(** No character of [s] is a space. *)
Fixpoint no_space (s : string) : bool :=
  match s with
  | EmptyString => true
  | String c s' => negb (Ascii.eqb c SPACE) && no_space s'
  end.

(** A word: not empty, and without a space. *)
Definition word (w : string) : Prop := w ≠ EmptyString ∧ no_space w = true.

(** The names and the topics of the Client objects are words. *)
Definition words_ok (s : Server.t) : Prop :=
  ∀ client c, Server.objects s !! client = Some c →
    word (Client.name c) ∧ ∀ topic, topic ∈ Client.topics c → word topic.

(** ** More scenarios *)

(** A connection accepted on descriptor 5 that has not sent anything. *)
Definition one_pending_script : list (list Server.ready * Q) :=
  [([accept_event 3 5], 1 # 1)].

Definition one_pending : Server.t := state_of 3 (run one_pending_script boot).

(** After [bob_returns], bob comes back on descriptor 7, with the
    publication of alice still in his stream. *)
Definition bob_restored_script : list (list Server.ready * Q) :=
  [([recv_event 7 (wire "CONNECT bob") (43 # 1)], 43 # 1)].

Definition bob_restored : Server.t := state_of 3 (run bob_restored_script bob_returns).

(** The Client object of bob at that point. *)
Definition bob_restored_record : Client.t :=
  {| Client.name := "bob"; Client.fileno := 7; Client.connected := true;
     Client.lost_time := 40 # 1; Client.message_stream := wire "weather rain";
     Client.topics := {["weather"; "sports"]} |}.


(** * Properties *)

(** ** Frame codec *)

Example split_two : split_EOM (encode "ab" ++ EOM ++ encode "cd") = [encode "ab"; encode "cd"].
Proof. reflexivity. Qed.

Example parse_publish :
  parse_message (encode "PUBLISH t hello world") = Some ("PUBLISH", "t", "hello world")%string.
Proof. reflexivity. Qed.

Example feed_mid_EOM :
  feed [] [encode "PUBLISH t hello" ++ [x0a]; [x0a; x78]] = ([], [encode "PUBLISH t hello"]).
Proof. vm_compute. reflexivity. Qed.

Lemma split_EOM_here r : split_EOM (EOM ++ r) = [] :: split_EOM r.
Proof. reflexivity. Qed.

Lemma split_EOM_skip a t :
  ¬ EOM `prefix_of` (a :: t) → split_EOM (a :: t) = push_front a (split_EOM t).
Proof.
  intros Hn. destruct t as [|b [|c r]]; try reflexivity.
  cbn [split_EOM]. unfold is_EOM. case_bool_decide as E; [|reflexivity].
  exfalso. apply Hn. exists r. unfold EOM in *. by simplify_eq.
Qed.

Lemma split_EOM_nonempty s : split_EOM s ≠ [].
Proof.
  destruct s as [|a [|b [|c r]]]; simpl; try done.
  - destruct (is_EOM a b c); [done|].
    destruct (push_front a _) eqn:E; [|done].
    unfold push_front in E. by repeat case_match.
Qed.

Lemma push_front_nonempty a l : push_front a l ≠ [].
Proof. by destruct l. Qed.

Lemma EOM_prefix_cases s :
  EOM `prefix_of` s ∨ ¬ EOM `prefix_of` s.
Proof. destruct (decide (EOM `prefix_of` s)); auto. Qed.

(** Induction along the scan of [split_EOM]. *)
Lemma split_EOM_ind (P : bytes → Prop) :
  P [] →
  (∀ r, P r → P (EOM ++ r)) →
  (∀ a t, ¬ EOM `prefix_of` (a :: t) → P t → P (a :: t)) →
  ∀ s, P s.
Proof.
  intros H0 H1 H2 s.
  assert (∀ n (s : bytes), (length s ≤ n)%nat → P s) as H; [|by apply (H (length s))].
  clear s. induction n as [|n IH]; intros s Hs.
  - destruct s; [done | simpl in Hs; lia].
  - destruct s as [|a t]; [done|].
    destruct (decide (EOM `prefix_of` (a :: t))) as [[r Hr]|Hn].
    + rewrite Hr. apply H1, IH. rewrite Hr in Hs. simpl in Hs. lia.
    + apply H2; [done|]. apply IH. simpl in Hs. lia.
Qed.


Lemma contains_EOM_cons a t :
  contains_EOM (a :: t) = false ↔ ¬ EOM `prefix_of` (a :: t) ∧ contains_EOM t = false.
Proof.
  cbn [contains_EOM]. rewrite orb_false_iff, bool_decide_eq_false. tauto.
Qed.

Lemma contains_EOM_length s : contains_EOM s = true → (3 ≤ length s)%nat.
Proof.
  induction s as [|a t IH]; [done|].
  cbn [contains_EOM]. rewrite orb_true_iff, bool_decide_eq_true.
  intros [[r ->]|Ht]; simpl; [lia|]. specialize (IH Ht). lia.
Qed.

Lemma EOM_prefix_app a b c t s2 :
  EOM `prefix_of` ((a :: b :: c :: t) ++ s2) → EOM `prefix_of` (a :: b :: c :: t).
Proof.
  intros [k Hk]. unfold EOM in *. simplify_eq/=. by exists t.
Qed.

Lemma push_front_app a l1 l2 :
  l1 ≠ [] → push_front a (l1 ++ l2) = push_front a l1 ++ l2.
Proof. by destruct l1. Qed.

Lemma push_front_length a l : l ≠ [] → length (push_front a l) = length l.
Proof. by destruct l. Qed.

Lemma removelast_push_front a l :
  (2 ≤ length l)%nat → removelast (push_front a l) = push_front a (removelast l).
Proof. destruct l as [|x [|y l]]; simpl; intros; try lia; done. Qed.

Lemma last_push_front a l :
  (2 ≤ length l)%nat → List.last (push_front a l) [] = List.last l [].
Proof. destruct l as [|x [|y l]]; simpl; intros; try lia; done. Qed.

Lemma split_EOM_none s : contains_EOM s = false → split_EOM s = [s].
Proof.
  induction s as [|a t IH]; [done|].
  rewrite contains_EOM_cons. intros [Hn Ht].
  by rewrite split_EOM_skip, IH.
Qed.

Lemma split_EOM_some s : contains_EOM s = true → (2 ≤ length (split_EOM s))%nat.
Proof.
  induction s as [|r IH|a t Hn IH] using split_EOM_ind; [done| |].
  - intros _. rewrite split_EOM_here. pose proof (split_EOM_nonempty r).
    destruct (split_EOM r); [done|simpl; lia].
  - cbn [contains_EOM]. rewrite orb_true_iff, bool_decide_eq_true.
    intros [?|Ht]; [done|].
    rewrite split_EOM_skip, push_front_length by (done || apply split_EOM_nonempty).
    auto.
Qed.

(** A message without the delimiter is cut off at the end of its frame. *)
Lemma split_EOM_frame m rest :
  contains_EOM m = false → split_EOM (frame m ++ rest) = m :: split_EOM rest.
Proof.
  unfold frame. rewrite <- app_assoc.
  induction m as [|a t IH]; [done|].
  rewrite contains_EOM_cons. intros [Hn Ht].
  rewrite <- app_comm_cons, split_EOM_skip; [by rewrite IH|].
  intros [k Hk]. apply Hn.
  destruct t as [|b [|c t]]; unfold EOM in *; simplify_eq/=.
  by exists t.
Qed.

Lemma split_EOM_frame_all msgs :
  Forall (λ m, contains_EOM m = false) msgs →
  split_EOM (frame_all msgs) = msgs ++ [[]].
Proof.
  induction 1 as [|m msgs Hm _ IH]; [done|].
  unfold frame_all in *. cbn [map concat]. by rewrite split_EOM_frame, IH.
Qed.

(** Scanning a stream in two parts: the fragments closed in the first
    part, then the scan of the open fragment followed by the second part. *)
Lemma split_EOM_app s1 s2 :
  split_EOM (s1 ++ s2) =
  removelast (split_EOM s1) ++ split_EOM (List.last (split_EOM s1) [] ++ s2).
Proof.
  induction s1 as [|r IH|a t Hn IH] using split_EOM_ind; [done| |].
  - rewrite <- app_assoc, !split_EOM_here, IH.
    pose proof (split_EOM_nonempty r). by destruct (split_EOM r).
  - destruct (contains_EOM t) eqn:Ht.
    + pose proof (contains_EOM_length _ Ht) as Hl.
      pose proof (split_EOM_some _ Ht) as Hl2.
      rewrite <- app_comm_cons, !split_EOM_skip, IH; [| done |].
      * rewrite removelast_push_front, last_push_front by done.
        rewrite push_front_app; [done|].
        destruct (split_EOM t) as [|x [|y l]]; simpl in *; (lia || done).
      * destruct t as [|b [|c t]]; simpl in Hl; try lia.
        rewrite app_comm_cons. intros ?%EOM_prefix_app. done.
    + rewrite (split_EOM_none (a :: t)); [done|]. by apply contains_EOM_cons.
Qed.

Lemma join_EOM_push_front a l : l ≠ [] → join_EOM (push_front a l) = a :: join_EOM l.
Proof. by destruct l as [|x [|y l]]. Qed.

Lemma join_EOM_cons x l : l ≠ [] → join_EOM (x :: l) = x ++ EOM ++ join_EOM l.
Proof. by destruct l. Qed.

Lemma join_EOM_split s : join_EOM (split_EOM s) = s.
Proof.
  induction s as [|r IH|a t Hn IH] using split_EOM_ind; [done| |].
  - rewrite split_EOM_here, join_EOM_cons, IH; done || apply split_EOM_nonempty.
  - rewrite split_EOM_skip, join_EOM_push_front, IH; done || apply split_EOM_nonempty.
Qed.

Lemma join_EOM_last_length l : (length (List.last l []) ≤ length (join_EOM l))%nat.
Proof.
  induction l as [|x [|y l] IH]; simpl in *; [lia|lia|].
  rewrite !length_app. simpl. lia.
Qed.

Lemma last_split_EOM_length s : (length (List.last (split_EOM s) []) ≤ length s)%nat.
Proof. rewrite <- (join_EOM_split s) at 2. apply join_EOM_last_length. Qed.

Lemma last_split_EOM_clean s : contains_EOM (List.last (split_EOM s) []) = false.
Proof.
  induction s as [|r IH|a t Hn IH] using split_EOM_ind; [done| |].
  - rewrite split_EOM_here. pose proof (split_EOM_nonempty r).
    by destruct (split_EOM r).
  - rewrite split_EOM_skip by done.
    destruct (split_EOM t) as [|x [|y l]] eqn:E.
    + by apply split_EOM_nonempty in E.
    + pose proof (join_EOM_split t) as J. rewrite E in J. simpl in J. subst x.
      simpl in *. apply contains_EOM_cons. auto.
    + done.
Qed.

Lemma last_split_EOM_endswith s :
  endswith_EOM s = true → List.last (split_EOM s) [] = [].
Proof.
  unfold endswith_EOM. rewrite bool_decide_eq_true. intros [s0 ->].
  rewrite split_EOM_app.
  pose proof (split_EOM_frame (List.last (split_EOM s0) []) [] (last_split_EOM_clean s0)) as H.
  unfold frame in H. rewrite app_nil_r in H. rewrite H.
  change (?x :: split_EOM []) with ([x] ++ [[]]). by rewrite app_assoc, List.last_last.
Qed.

(** What the framer does with a buffer that stays within bounds. *)
Lemma frame_extract_split request chunk :
  len (request ++ chunk) ≤ MAX_REQUEST_SIZE →
  frame_extract request chunk =
  (List.last (split_EOM (request ++ chunk)) [], removelast (split_EOM (request ++ chunk))).
Proof.
  intros Hlen. unfold frame_extract.
  destruct (Z.ltb_spec MAX_REQUEST_SIZE (len (request ++ chunk))); [lia|].
  destruct (contains_EOM _) eqn:Hc.
  - destruct (endswith_EOM _) eqn:He; [|done].
    simpl. by rewrite last_split_EOM_endswith.
  - by rewrite split_EOM_none.
Qed.


Lemma last_app_nonempty {A} (l1 l2 : list A) d :
  l2 ≠ [] → List.last (l1 ++ l2) d = List.last l2 d.
Proof.
  intros H. induction l1 as [|x l1 IH]; [done|].
  simpl. rewrite IH. destruct (l1 ++ l2) eqn:E; [|done].
  apply app_eq_nil in E as [_ ->]. done.
Qed.

Lemma residual_bound B msgs p :
  0 ≤ B →
  Forall (λ m, contains_EOM m = false ∧ len m ≤ B) msgs →
  p `prefix_of` frame_all msgs →
  len (List.last (split_EOM p) []) ≤ B + 2.
Proof.
  intros HB Hmsgs. revert p.
  induction Hmsgs as [|m msgs [Hm Hlen] _ IH]; intros p [q Hq].
  - symmetry in Hq. apply app_eq_nil in Hq as [-> _]. simpl. unfold len. simpl. lia.
  - unfold frame_all in Hq. cbn [map concat] in Hq. fold (frame_all msgs) in Hq.
    apply app_eq_inv in Hq as [(k & Hk & _)|(k & -> & Hk)].
    + pose proof (last_split_EOM_length p) as Hl.
      destruct k as [|x k].
      * rewrite app_nil_r in Hk. subst p.
        pose proof (split_EOM_frame m [] Hm) as H. rewrite app_nil_r in H.
        rewrite H. unfold len. simpl. lia.
      * apply (f_equal length) in Hk. unfold frame in Hk.
        rewrite !length_app in Hk. unfold len in *. simpl in Hk. lia.
    + rewrite split_EOM_frame by done.
      replace (List.last (m :: split_EOM k) []) with (List.last (split_EOM k) []).
      * apply IH. by exists q.
      * pose proof (split_EOM_nonempty k). by destruct (split_EOM k).
Qed.

Lemma feed_framed msgs chunks p :
  Forall (λ m, contains_EOM m = false ∧ len m ≤ MAX_REQUEST_SIZE - BUFFER_SIZE - 2) msgs →
  Forall (λ c, len c ≤ BUFFER_SIZE) chunks →
  p ++ concat chunks = frame_all msgs →
  feed (List.last (split_EOM p) []) chunks =
  (List.last (split_EOM (p ++ concat chunks)) [],
   removelast (split_EOM (List.last (split_EOM p) [] ++ concat chunks))).
Proof.
  intros Hmsgs Hchunks. revert p.
  induction Hchunks as [|c chunks Hc _ IH]; intros p Hp.
  - simpl. rewrite !app_nil_r.
    by rewrite (split_EOM_none _ (last_split_EOM_clean p)).
  - cbn [concat] in *. rewrite app_assoc in Hp.
    assert (len (List.last (split_EOM p) [] ++ c) ≤ MAX_REQUEST_SIZE) as Hfit.
    { pose proof (residual_bound (MAX_REQUEST_SIZE - BUFFER_SIZE - 2) msgs p) as Hb.
      unfold len in *. rewrite length_app.
      assert (p `prefix_of` frame_all msgs) as Hpre.
      { exists (c ++ concat chunks). by rewrite app_assoc. }
      specialize (Hb ltac:(done) Hmsgs Hpre). unfold MAX_REQUEST_SIZE, BUFFER_SIZE in *. lia. }
    cbn [feed]. rewrite (frame_extract_split _ _ Hfit).
    assert (List.last (split_EOM (List.last (split_EOM p) [] ++ c)) [] =
            List.last (split_EOM (p ++ c)) []) as Hres.
    { rewrite (split_EOM_app p c), last_app_nonempty; [done|apply split_EOM_nonempty]. }
    rewrite Hres, (IH _ Hp). f_equal; [by rewrite app_assoc|].
    rewrite (app_assoc _ c), (split_EOM_app (_ ++ c)), Hres.
    rewrite removelast_app; [done|apply split_EOM_nonempty].
Qed.


(** C1, as amended.  When no message contains the delimiter, every message
    has at most [MAX_REQUEST_SIZE - BUFFER_SIZE - 2] = 9214 octets and
    every chunk at most [BUFFER_SIZE] octets (what one [recv] returns),
    feeding the chunks of any partition of the frame encoding of the
    messages gives exactly these messages, in order, to
    [__process_message] and leaves the buffer empty; [__process_message]
    skips a message exactly when it is empty or not UTF-8. *)
Theorem framing_round_trip msgs chunks :
  Forall (λ m, contains_EOM m = false ∧ len m ≤ MAX_REQUEST_SIZE - BUFFER_SIZE - 2) msgs →
  Forall (λ c, len c ≤ BUFFER_SIZE) chunks →
  concat chunks = frame_all msgs →
  feed [] chunks = ([], msgs) ∧
  ∀ m, is_Some (parse_message m) ↔ m ≠ [] ∧ utf8_valid m = true.
Proof.
  intros Hmsgs Hchunks Hcat. split.
  - pose proof (feed_framed msgs chunks [] Hmsgs Hchunks Hcat) as H.
    simpl in H. rewrite H, Hcat, split_EOM_frame_all.
    + by rewrite List.last_last, removelast_last.
    + eapply Forall_impl; [exact Hmsgs|]. by intros m [? _].
  - intros m. unfold parse_message, decode.
    case_bool_decide; destruct (utf8_valid m); split;
      (by intros [? ?]) || (by intros [? ?]; eauto) || eauto.
Qed.

Lemma framing_round_trip_witness :
  feed [] [encode "PUBLISH t hello" ++ [x0a]; [x0a; x78]] =
  ([], [encode "PUBLISH t hello"]).
Proof.
  apply (framing_round_trip [encode "PUBLISH t hello"]
           [encode "PUBLISH t hello" ++ [x0a]; [x0a; x78]]).
  - repeat constructor. vm_compute. discriminate.
  - repeat constructor; vm_compute; discriminate.
  - reflexivity.
Defined.

(** C1, as stated, fails: a message that contains the delimiter comes out
    as two; a message of 9215 octets is lost with the one after it when
    the chunks fall so that the buffer passes [MAX_REQUEST_SIZE]; eleven
    messages of 1000 octets in one chunk are all lost; and without any
    message the buffer is empty although the stream does not end with the
    delimiter. *)
Lemma framing_counterexample :
  (let msgs := [[a_; x0a; x0a; x78; b_]] in
   let chunks := [frame_all msgs] in
   concat chunks = frame_all msgs ∧ feed [] chunks = ([], [[a_]; [b_]])) ∧
  (let msgs := [filler 9215; filler 1020] in
   let chunks := replicate 8 (filler 1024) ++
                 [filler 1023 ++ [x0a]; [x0a]; [x78] ++ frame (filler 1020)] in
   concat chunks = frame_all msgs ∧
   Forall (λ c, len c ≤ BUFFER_SIZE) chunks ∧
   feed [] chunks = ([], [])) ∧
  (let msgs := replicate 11 (filler 1000) in
   let chunks := [frame_all msgs] in
   contains_EOM (filler 1000) = false ∧
   len (filler 1000) ≤ MAX_REQUEST_SIZE - BUFFER_SIZE - 2 ∧
   feed [] chunks = ([], [])) ∧
  (feed [] [] = ([], []) ∧ endswith_EOM (concat []) = false).
Proof.
  split; [by vm_compute|]. split; [|split].
  - vm_compute. split; [done|]. split; [|done]. repeat constructor; discriminate.
  - vm_compute. split; [done|]. split; [discriminate|done].
  - by vm_compute.
Qed.

(** ** The Client class *)

(** [add_message] appends when the sum of the lengths is below
    [MAX_STREAM_SIZE], and returns the length of the stream it leaves. *)
Lemma add_message_spec message c :
  Client.add_message message c =
  if len (Client.message_stream c) + len message <? Client.MAX_STREAM_SIZE
  then (len (Client.message_stream c) + len message,
        Client.set_message_stream (Client.message_stream c ++ message) c)
  else (len (Client.message_stream c), c).
Proof.
  unfold Client.add_message. case_match; [|done].
  simpl. unfold len. by rewrite length_app, Nat2Z.inj_add.
Qed.

(** C5, at the boundary: a stream of 10230 octets and a message of 10
    octets add up to [MAX_STREAM_SIZE], which they do not exceed, and
    [add_message] leaves the stream as it is and returns 10230. *)
Lemma add_message_at_cap :
  let c := with_stream (filler 10230) (Client.init "bob" 5) in
  len (Client.message_stream c) + len (filler 10) = Client.MAX_STREAM_SIZE ∧
  Client.add_message (filler 10) c = (10230, c).
Proof. by vm_compute. Qed.

(** ** Usage mode *)

(** C9, as amended: without a first argument, with one that [int]
    rejects, or with a port outside 1024 < port < 32000, the entry point
    prints the diagnostic and exits with status 0, without constructing
    the server; with a port inside the range it serves on that port. *)
Theorem port_validation (int : string → option Z) (argv : list string) :
  (∀ port, argv !! 1%nat ≫= int = Some port → 1024 < port < 32000 →
     main int argv = Serve port) ∧
  (argv !! 1%nat ≫= int = None ∨
   (∃ port, argv !! 1%nat ≫= int = Some port ∧ ¬ (1024 < port < 32000)) →
     main int argv = Exit ("ERROR: " +:+ WRONG_PORT) 0).
Proof.
  unfold main, parse_port. split.
  - intros port Hport Hrange. destruct (argv !! 1%nat) as [a|]; [|done].
    simpl in Hport. rewrite Hport. by rewrite bool_decide_eq_true_2.
  - intros [Hnone|(port & Hport & Hrange)].
    + destruct (argv !! 1%nat) as [a|]; [|done]. simpl in Hnone. by rewrite Hnone.
    + destruct (argv !! 1%nat) as [a|]; [|done]. simpl in Hport. rewrite Hport.
      by rewrite bool_decide_eq_false_2.
Qed.

Lemma port_validation_witness :
  main int_of_digits ["server.py"; "8080"]%string = Serve 8080 ∧
  main int_of_digits ["server.py"; "80"]%string = Exit ("ERROR: " +:+ WRONG_PORT) 0.
Proof.
  destruct (port_validation int_of_digits ["server.py"; "8080"]%string) as [H1 _].
  destruct (port_validation int_of_digits ["server.py"; "80"]%string) as [_ H2].
  split.
  - apply H1; [reflexivity | lia].
  - apply H2. right. exists 80. split; [reflexivity | lia].
Defined.

(** C9, as stated, fails: port 80 is refused with exit status 0. *)
Lemma port_validation_counterexample :
  main int_of_digits ["server.py"; "80"]%string = Exit ("ERROR: " +:+ WRONG_PORT) 0.
Proof. reflexivity. Qed.

Lemma bind_Ok {A B} (m : result A) (k : A → result B) b :
  bind m k = Ok b → ∃ a, m = Ok a ∧ k a = Ok b.
Proof. destruct m; simpl; [eauto|done]. Qed.

(** Projections of updated states, and nothing else. *)
Ltac srv_simpl :=
  cbn [Server.socket_fileno Server.connections Server.pending Server.requests
       Server.connected Server.connected_names Server.temp_lost Server.topics
       Server.last_refresh Server.objects Server.epoll Server.log
       Server.set_connections Server.set_pending Server.set_requests
       Server.set_connected Server.set_connected_names Server.set_temp_lost
       Server.set_topics Server.set_last_refresh Server.set_objects
       Server.set_epoll Server.set_log Server.emit Server.update
       Client.name Client.fileno Client.connected Client.lost_time
       Client.message_stream Client.topics
       Client.set_fileno Client.set_connected Client.set_lost_time
       Client.set_message_stream Client.set_topics Client.init fst snd].

Tactic Notation "srv_simpl" "in" hyp(H) :=
  cbn [Server.socket_fileno Server.connections Server.pending Server.requests
       Server.connected Server.connected_names Server.temp_lost Server.topics
       Server.last_refresh Server.objects Server.epoll Server.log
       Server.set_connections Server.set_pending Server.set_requests
       Server.set_connected Server.set_connected_names Server.set_temp_lost
       Server.set_topics Server.set_last_refresh Server.set_objects
       Server.set_epoll Server.set_log Server.emit Server.update
       Client.name Client.fileno Client.connected Client.lost_time
       Client.message_stream Client.topics
       Client.set_fileno Client.set_connected Client.set_lost_time
       Client.set_message_stream Client.set_topics Client.init fst snd] in H.

Ltac srv_simpl_all :=
  cbn [Server.socket_fileno Server.connections Server.pending Server.requests
       Server.connected Server.connected_names Server.temp_lost Server.topics
       Server.last_refresh Server.objects Server.epoll Server.log
       Server.set_connections Server.set_pending Server.set_requests
       Server.set_connected Server.set_connected_names Server.set_temp_lost
       Server.set_topics Server.set_last_refresh Server.set_objects
       Server.set_epoll Server.set_log Server.emit Server.update
       Client.name Client.fileno Client.connected Client.lost_time
       Client.message_stream Client.topics
       Client.set_fileno Client.set_connected Client.set_lost_time
       Client.set_message_stream Client.set_topics Client.init fst snd] in *.

Ltac ok_inv H :=
  srv_simpl in H;
  lazymatch type of H with
  | bind ?m _ = Ok _ =>
      let a := fresh "r" in let E := fresh "E" in
      apply bind_Ok in H as (a & E & H); ok_inv E; ok_inv H
  | Raise _ = Ok _ => discriminate H
  | Ok _ = Ok _ => injection H as H
  | (if decide ?P then _ else _) = Ok _ => destruct (decide P); ok_inv H
  | (if ?b then _ else _) = Ok _ => destruct b eqn:?; ok_inv H
  | (match ?x with _ => _ end) = Ok _ => destruct x eqn:?; ok_inv H
  | _ => idtac
  end.

Lemma connection_remove_fields fileno s s' :
  Server.connection_remove fileno s = Ok s' →
  Server.connected s' = Server.connected s ∧
  Server.connected_names s' = Server.connected_names s ∧
  Server.temp_lost s' = Server.temp_lost s ∧
  Server.topics s' = Server.topics s ∧
  Server.objects s' = Server.objects s ∧
  Server.connections s' = Server.connections s ∖ {[fileno]} ∧
  Server.pending s' = Server.pending s ∖ {[fileno]} ∧
  dom (Server.epoll s') = dom (Server.epoll s) ∖ {[fileno]}.
Proof.
  unfold Server.connection_remove, Server.epoll_unregister, delitem.
  intros H. ok_inv H; subst; simpl in *.
  destruct (decide (_ ∈ Server.pending s)) as [Hp|Hp]; simpl; rewrite dom_delete_L;
    repeat split; try done.
  clear -Hp. set_solver.
Qed.

Lemma fresh_object s : Server.objects s !! fresh (dom (Server.objects s)) = None.
Proof. apply not_elem_of_dom, is_fresh. Qed.

Ltac map_cases :=
  repeat match goal with
  | H : <[_ := _]> _ !! _ = Some _ |- _ =>
      apply lookup_insert_Some in H as [[? ?]|[? H]]; simplify_eq
  | H : delete _ _ !! _ = Some _ |- _ =>
      apply lookup_delete_Some in H as [? H]
  | H : alter _ _ _ !! _ = Some _ |- _ =>
      apply lookup_alter_Some in H as [(? & ? & ? & ?)|[? H]]; simplify_eq
  end.


Lemma alter_lookup_insert {K} `{Countable K} {V} (f : V → V) (k : K) (m : gmap K V) v :
  m !! k = Some v → alter f k m = <[k := f v]> m.
Proof.
  intros Hk. apply map_eq. intros i. destruct (decide (i = k)) as [->|].
  - by rewrite lookup_alter_eq, lookup_insert_eq, Hk.
  - by rewrite lookup_alter_ne, lookup_insert_ne.
Qed.

Lemma alter_alter_lookup_insert {K} `{Countable K} {V} (f g : V → V) (k : K)
    (m : gmap K V) v :
  m !! k = Some v → alter f k (alter g k m) = <[k := f (g v)]> m.
Proof.
  intros Hk. rewrite (alter_lookup_insert g k m v Hk).
  rewrite (alter_lookup_insert f k _ (g v)) by apply lookup_insert_eq.
  apply insert_insert_eq.
Qed.

Ltac learn_from H :=
  let P := type of H in
  lazymatch goal with
  | _ : learnt P |- _ => fail
  | _ => pose proof (Learnt P)
  end.

Ltac wf_sat Hwf :=
  repeat (match goal with
  | H : live _ _ |- _ => destruct H as [[? H]|[? H]]
  | H : Server.connected ?s !! ?f = Some ?o |- _ =>
      learn_from H;
      destruct (wf_connected s Hwf f o H) as (? & ? & ? & ? & ?)
  | H : Server.connected_names ?s !! ?f = Some ?o |- _ =>
      learn_from H;
      destruct (wf_connected_names s Hwf f o H) as (? & ? & ? & ? & ?)
  | H : Server.temp_lost ?s !! ?f = Some ?o |- _ =>
      learn_from H;
      destruct (wf_temp_lost s Hwf f o H) as (? & ? & ? & ? & ? & ? & ?)
  | H : Server.topics ?s !! ?t = Some ?S, H' : ?o ∈ ?S |- _ =>
      learn_from (conj H H');
      destruct (wf_topics_sound s Hwf t S o H H') as (? & ? & ? & ?)
  end; simplify_eq).

(** The facts of a well-formed state about descriptors, as set facts. *)
Ltac set_facts Hwf :=
  let s := lazymatch type of Hwf with wf ?s => s end in
  pose proof (wf_pending s Hwf); pose proof (wf_bound s Hwf);
  pose proof (wf_pending_bound s Hwf); pose proof (wf_registered s Hwf).

Lemma client_add_effect fileno client_name s s' :
  Server.client_add fileno client_name s = Ok s' →
  let client := fresh (dom (Server.objects s)) in
  fileno ∈ Server.connections s ∧ fileno ∈ Server.pending s ∧
  Server.connected s' = <[fileno := client]> (Server.connected s) ∧
  Server.connected_names s' = <[client_name := client]> (Server.connected_names s) ∧
  Server.temp_lost s' = Server.temp_lost s ∧
  Server.topics s' = Server.topics s ∧
  Server.objects s' = <[client := Client.init client_name fileno]> (Server.objects s) ∧
  Server.connections s' = Server.connections s ∧
  Server.pending s' = Server.pending s ∖ {[fileno]} ∧
  Server.epoll s' = Server.epoll s ∧
  Server.log s' = Server.log s ++ [SockSend fileno (encode "OK: Conn accepted" ++ EOM)].
Proof.
  unfold Server.client_add, Server.connection_send, set_remove.
  intros H. ok_inv H; subst; simpl in *. done.
Qed.

Ltac wf_intro :=
  constructor; unfold live;
  repeat match goal with H : _ = _ |- _ => rewrite H; clear H end.

Ltac destruct_hyps :=
  repeat match goal with
  | H : ∃ _, _ |- _ => destruct H
  | H : _ ∧ _ |- _ => destruct H
  | H : _ ∨ _ |- _ => destruct H
  end.


Ltac ne_facts :=
  repeat match goal with
  | H1 : ?m !! ?a = None, H2 : ?m !! ?b = Some _ |- _ =>
      lazymatch goal with
      | _ : a ≠ b |- _ => fail
      | _ => assert (a ≠ b) by congruence
      end
  end.

Ltac solve_lookup :=
  lazymatch goal with
  | |- <[_ := _]> _ !! _ = Some _ =>
      (apply lookup_insert_Some; left; split; reflexivity) +
      (apply lookup_insert_Some; right; split; [|solve_lookup]; congruence)
  | |- delete _ _ !! _ = Some _ =>
      apply lookup_delete_Some; split; [|solve_lookup]; congruence
  | |- <[_ := _]> _ !! _ = None =>
      apply lookup_insert_None; split; [solve_lookup|congruence]
  | |- delete _ _ !! _ = None =>
      apply lookup_delete_None; ((left; congruence) + (right; solve_lookup))
  | |- _ => eassumption
  end.

Ltac solve_obj :=
  eexists; split; [solve_lookup|]; simpl; split_and?;
  first [done | solve_lookup | congruence | set_solver].

Ltac solve_live :=
  (left; eexists; solve_lookup) + (right; eexists; solve_lookup).

Ltac solve_complete Hwf :=
  match goal with
  | |- ∃ S, Server.topics ?s !! _ = Some S ∧ _ ∈ S =>
      eapply (wf_topics_complete s Hwf);
      [unfold live; solve_live | eassumption | eassumption]
  end.

Ltac wf_solve Hwf :=
  ne_facts;
  solve [ solve_obj | solve_complete Hwf | split; [solve_live | solve_obj] ].

Lemma client_add_wf fileno client_name s s' :
  Server.client_add fileno client_name s = Ok s' →
  client_name ≠ EmptyString →
  Server.connected_names s !! client_name = None →
  Server.temp_lost s !! client_name = None →
  wf s → wf s'.
Proof.
  intros H Hne Hn Hl Hwf.
  apply client_add_effect in H as (Hc & Hp & H1 & H2 & H3 & H4 & H5 & H6 & H7 & H8 & _).
  pose proof (fresh_object s) as Hfresh. revert H1 H2 H5 Hfresh.
  generalize (fresh (dom (Server.objects s))). intros o H1 H2 H5 Ho.
  assert (fileno ∉ dom (Server.connected s)) as Hf.
  { set_facts Hwf. clear -Hp H0 H9 H10. set_solver. }
  constructor; unfold live; rewrite ?H1, ?H2, ?H3, ?H4, ?H5, ?H6, ?H7, ?H8.
  7-10: rewrite ?dom_insert_L; set_facts Hwf; clear -Hc Hp Hf H H0 H9 H10; set_solver.
  5: apply Hwf.
  all: apply not_elem_of_dom in Hf.
  all: intros; destruct_hyps; map_cases; wf_sat Hwf.
  all: wf_solve Hwf.
Qed.


Lemma client_restore_effect fileno client_name s s' :
  Server.client_restore fileno client_name s = Ok s' →
  ∃ client c,
    Server.temp_lost s !! client_name = Some client ∧
    Server.objects s !! client = Some c ∧
    fileno ∈ Server.connections s ∧ fileno ∈ Server.pending s ∧
    Server.connected s' = <[fileno := client]> (Server.connected s) ∧
    Server.connected_names s' = <[client_name := client]> (Server.connected_names s) ∧
    Server.temp_lost s' = delete client_name (Server.temp_lost s) ∧
    Server.topics s' = Server.topics s ∧
    Server.objects s' =
      <[client := Client.set_connected true (Client.set_fileno fileno c)]> (Server.objects s) ∧
    Server.connections s' = Server.connections s ∧
    Server.pending s' = Server.pending s ∖ {[fileno]} ∧
    dom (Server.epoll s') = dom (Server.epoll s) ∧
    Server.log s' =
      Server.log s ++
      [SockSend fileno (frame (encode ("RESTORED " +:+ client_name)) ++
                        frame (encode (str_join (elements (Client.topics c)))))] ++
      (if decide (Client.message_stream c = [])
       then [] else [EpollModify fileno (Z.lor EPOLLIN EPOLLOUT)]).
Proof.
  unfold Server.client_restore, Server.connection_send, set_remove, getitem, delitem,
    Server.deref, Server.update, Server.epoll_modify.
  intros H. ok_inv H. all: subst. all: srv_simpl_all.
  all: rewrite !lookup_alter_eq in *.
  all: match goal with
       | H1 : Server.objects _ !! _ = Some _, H2 : _ <$> (_ <$> _) = Some _ |- _ =>
           rewrite H1 in H2; cbn in H2; injection H2 as <-
       end.
  all: eexists _, _; split_and!; try done.
  all: try (by apply alter_alter_lookup_insert).
  all: try (by apply dom_insert_lookup_L).
  all: unfold Client.message_stream_size, len in *; srv_simpl_all.
  all: case_decide as Hs; try (rewrite Hs in *; done).
  all: try (rewrite app_nil_r; reflexivity).
  all: try (rewrite <- (app_assoc (Server.log s)); reflexivity).
  all: destruct (Client.message_stream _); simpl in *; (done || lia).
Qed.

Lemma wf_conn_ok s :
  wf s →
  conn_ok (Server.connections s) (Server.pending s) (dom (Server.connected s))
          (dom (Server.epoll s)).
Proof. intros []. by repeat split. Qed.

Lemma conn_ok_bind C P B R f :
  conn_ok C P B R → f ∈ P → conn_ok C (P ∖ {[f]}) ({[f]} ∪ B) R.
Proof. unfold conn_ok. set_solver. Qed.

Lemma conn_ok_close C P B R f :
  conn_ok C P B R → conn_ok (C ∖ {[f]}) (P ∖ {[f]}) (B ∖ {[f]}) (R ∖ {[f]}).
Proof. unfold conn_ok. set_solver. Qed.

Lemma conn_ok_open C P B R f :
  conn_ok C P B R → f ∉ R → conn_ok (C ∪ {[f]}) (P ∪ {[f]}) B ({[f]} ∪ R).
Proof. unfold conn_ok. set_solver. Qed.

Lemma conn_ok_pending_unbound C P B R f : conn_ok C P B R → f ∈ P → f ∉ B.
Proof. unfold conn_ok. set_solver. Qed.

Ltac obj_split :=
  repeat match goal with
  | o1 : positive, o2 : positive |- _ =>
      tryif constr_eq o1 o2 then fail else
      lazymatch goal with
      | _ : o1 ≠ o2 |- _ => fail
      | _ : o2 ≠ o1 |- _ => fail
      | _ => destruct (decide (o1 = o2)); [subst|]
      end
  end.

Ltac wf_cases Hwf :=
  intros; destruct_hyps; map_cases; obj_split; wf_sat Hwf; try wf_solve Hwf.

(** Closes the four goals of [wf] about descriptors from a [conn_ok]. *)
Ltac conn_goals Hconn :=
  destruct Hconn as (? & ? & ? & ?); assumption.

Lemma conn_ok_remove C P B R f :
  conn_ok C P B R → f ∉ B → conn_ok (C ∖ {[f]}) (P ∖ {[f]}) B (R ∖ {[f]}).
Proof. unfold conn_ok. set_solver. Qed.

Lemma connection_remove_wf fileno s s' :
  Server.connection_remove fileno s = Ok s' →
  fileno ∉ dom (Server.connected s) → wf s → wf s'.
Proof.
  intros H Hf Hwf.
  apply connection_remove_fields in H as (H1 & H2 & H3 & H4 & H5 & H6 & H7 & H8).
  pose proof (wf_conn_ok s Hwf) as Hconn.
  apply (conn_ok_remove _ _ _ _ fileno) in Hconn; [|done].
  destruct Hwf.
  constructor; unfold live in *; rewrite ?H1, ?H2, ?H3, ?H4, ?H5, ?H6, ?H7, ?H8; try done.
  all: conn_goals Hconn.
Qed.

Lemma client_restore_wf fileno client_name s s' :
  Server.client_restore fileno client_name s = Ok s' → wf s → wf s'.
Proof.
  intros H Hwf.
  apply client_restore_effect in H
    as (o & c & Hl & Ho & Hc & Hp & H1 & H2 & H3 & H4 & H5 & H6 & H7 & H8 & _).
  pose proof (wf_conn_ok s Hwf) as Hconn.
  pose proof (conn_ok_pending_unbound _ _ _ _ _ Hconn Hp) as Hf.
  apply (conn_ok_bind _ _ _ _ fileno) in Hconn; [|done].
  destruct (wf_temp_lost s Hwf _ _ Hl) as (c' & ? & ? & ? & ? & ? & ?). simplify_eq.
  constructor; unfold live; rewrite ?H1, ?H2, ?H3, ?H4, ?H5, ?H6, ?H7, ?H8.
  7-10: rewrite ?dom_insert_L; conn_goals Hconn.
  5: apply Hwf.
  all: clear Hconn; apply not_elem_of_dom in Hf.
  all: wf_cases Hwf.
Qed.

Lemma alter_insert_same {K} `{Countable K} {V} (f : V → V) (k : K) (m : gmap K V) v :
  alter f k (<[k := v]> m) = <[k := f v]> m.
Proof.
  rewrite (alter_lookup_insert f k _ v) by apply lookup_insert_eq.
  apply insert_insert_eq.
Qed.

Ltac alter_norm Ho :=
  rewrite (alter_lookup_insert _ _ _ _ Ho), ?alter_insert_same.

Lemma client_lost_effect fileno now s s' :
  Server.client_lost fileno now s = Ok s' →
  ∃ client c,
    Server.connected s !! fileno = Some client ∧
    Server.objects s !! client = Some c ∧
    Server.connected s' = delete fileno (Server.connected s) ∧
    Server.connected_names s' = delete (Client.name c) (Server.connected_names s) ∧
    Server.temp_lost s' = <[Client.name c := client]> (Server.temp_lost s) ∧
    Server.topics s' = Server.topics s ∧
    Server.objects s' =
      <[client := Client.set_lost_time now
                    (Client.set_connected false (Client.set_fileno 0 c))]>
        (Server.objects s) ∧
    Server.connections s' = Server.connections s ∖ {[fileno]} ∧
    Server.pending s' = Server.pending s ∖ {[fileno]} ∧
    dom (Server.epoll s') = dom (Server.epoll s) ∖ {[fileno]}.
Proof.
  unfold Server.client_lost, getitem, delitem, Server.deref.
  intros H. ok_inv H.
  apply connection_remove_fields in H as (H1 & H2 & H3 & H4 & H5 & H6 & H7 & H8).
  srv_simpl_all. simplify_eq.
  eexists _, _; split_and!; try done.
  rewrite H5. by alter_norm Heqo0.
Qed.

Lemma connection_register_effect fileno accepted s s' :
  Server.connection_register fileno accepted s = Ok s' →
  accepted ∉ dom (Server.epoll s) ∧
  Server.connected s' = Server.connected s ∧
  Server.connected_names s' = Server.connected_names s ∧
  Server.temp_lost s' = Server.temp_lost s ∧
  Server.topics s' = Server.topics s ∧
  Server.objects s' = Server.objects s ∧
  Server.connections s' = Server.connections s ∪ {[accepted]} ∧
  Server.pending s' = Server.pending s ∪ {[accepted]} ∧
  dom (Server.epoll s') = {[accepted]} ∪ dom (Server.epoll s).
Proof.
  unfold Server.connection_register, Server.epoll_register.
  intros H. ok_inv H. subst. srv_simpl_all.
  split_and!; try done; [by apply not_elem_of_dom | by rewrite dom_insert_L].
Qed.


Lemma client_lost_wf fileno now s s' :
  Server.client_lost fileno now s = Ok s' → wf s → wf s'.
Proof.
  intros H Hwf.
  apply client_lost_effect in H
    as (o & c & Hf & Ho & H1 & H2 & H3 & H4 & H5 & H6 & H7 & H8).
  pose proof (wf_conn_ok s Hwf) as Hconn.
  apply (conn_ok_close _ _ _ _ fileno) in Hconn.
  constructor; unfold live; rewrite ?H1, ?H2, ?H3, ?H4, ?H5, ?H6, ?H7, ?H8.
  7-10: rewrite ?dom_delete_L; conn_goals Hconn.
  5: apply Hwf.
  all: clear Hconn.
  all: wf_cases Hwf.
Qed.

Lemma connection_register_wf fileno accepted s s' :
  Server.connection_register fileno accepted s = Ok s' → wf s → wf s'.
Proof.
  intros H Hwf.
  apply connection_register_effect in H as (Hf & H1 & H2 & H3 & H4 & H5 & H6 & H7 & H8).
  pose proof (wf_conn_ok s Hwf) as Hconn.
  apply (conn_ok_open _ _ _ _ accepted) in Hconn; [|done].
  destruct Hwf.
  constructor; unfold live in *; rewrite ?H1, ?H2, ?H3, ?H4, ?H5, ?H6, ?H7, ?H8; try done.
  all: conn_goals Hconn.
Qed.

Lemma client_remove_topic_effect client topic s s' :
  Server.client_remove_topic client topic s = Ok s' →
  s' = Server.set_topics (Server.topics s') s ∧
  ∃ subscribers,
    Server.topics s !! topic = Some subscribers ∧ client ∈ subscribers ∧
    ∀ t, Server.topics s' !! t =
         if decide (t = topic) then without client subscribers
         else Server.topics s !! t.
Proof.
  unfold Server.client_remove_topic, getitem, set_remove.
  intros H. ok_inv H; subst; srv_simpl_all.
  all: split; [by destruct s|].
  all: eexists; split_and!; [done..|].
  all: intros t; unfold without; case_decide; subst; simplify_map_eq; try done.
  all: repeat case_decide; done.
Qed.

Lemma client_remove_topics_effect client l s s' :
  for_each l (Server.client_remove_topic client) s = Ok s' →
  NoDup l →
  s' = Server.set_topics (Server.topics s') s ∧
  ∀ t, Server.topics s' !! t =
       if decide (t ∈ l) then Server.topics s !! t ≫= without client
       else Server.topics s !! t.
Proof.
  revert s. induction l as [|topic l IH]; intros s H Hnd.
  - simpl in H. simplify_eq. split; [by destruct s'|].
    intros t. case_decide as Hin; [by apply elem_of_nil in Hin|done].
  - simpl in H. apply bind_Ok in H as (s1 & H1 & H).
    apply NoDup_cons in Hnd as [Hni Hnd].
    apply client_remove_topic_effect in H1 as (Hs1 & S & HS & Hin & Ht).
    apply IH in H as [Hs' Ht']; [|done].
    split; [rewrite Hs', Hs1; by destruct s|].
    intros t. rewrite Ht', Ht.
    destruct (decide (t = topic)) as [->|Hne].
    + rewrite decide_False by done. rewrite decide_True by (apply elem_of_cons; auto).
      by rewrite HS.
    + destruct (decide (t ∈ l)).
      * rewrite decide_True by (apply elem_of_cons; auto). done.
      * rewrite decide_False; [done|]. rewrite elem_of_cons. tauto.
Qed.

Lemma client_remove_effect client s s' :
  Server.client_remove client s = Ok s' →
  ∃ c,
    Server.objects s !! client = Some c ∧
    Server.objects s' = Server.objects s ∧
    (∀ t, Server.topics s' !! t =
          if decide (t ∈ Client.topics c) then Server.topics s !! t ≫= without client
          else Server.topics s !! t) ∧
    if Client.connected c then
      is_Some (Server.connected s !! Client.fileno c) ∧
      Server.connected s' = delete (Client.fileno c) (Server.connected s) ∧
      Server.connected_names s' = delete (Client.name c) (Server.connected_names s) ∧
      Server.temp_lost s' = Server.temp_lost s ∧
      Server.connections s' = Server.connections s ∖ {[Client.fileno c]} ∧
      Server.pending s' = Server.pending s ∖ {[Client.fileno c]} ∧
      dom (Server.epoll s') = dom (Server.epoll s) ∖ {[Client.fileno c]}
    else
      Server.connected s' = Server.connected s ∧
      Server.connected_names s' = Server.connected_names s ∧
      Server.temp_lost s' = delete (Client.name c) (Server.temp_lost s) ∧
      Server.connections s' = Server.connections s ∧
      Server.pending s' = Server.pending s ∧
      Server.epoll s' = Server.epoll s.
Proof.
  unfold Server.client_remove, Server.deref, delitem.
  intros H. ok_inv H. all: subst.
  all: match goal with
       | E : for_each _ _ ?s0 = Ok ?s1 |- _ =>
           apply client_remove_topics_effect in E as [Hs1 Ht]; [|apply NoDup_elements];
           remember (Server.topics s1) as T eqn:HT; clear HT; subst s1
       end.
  - apply connection_remove_fields in H as (H1 & H2 & H3 & H4 & H5 & H6 & H7 & H8).
    srv_simpl_all.
    eexists; split_and!; [reflexivity|by rewrite H5| |].
    + intros t. rewrite H4, Ht. apply decide_ext, elem_of_elements.
    + rewrite Heqb. split_and!; try done.
  - subst. srv_simpl_all.
    eexists; split_and!; [reflexivity|done| |].
    + intros t. rewrite Ht. apply decide_ext, elem_of_elements.
    + rewrite Heqb. split_and!; try done.
Qed.

Lemma without_Some client subscribers S' :
  without client subscribers = Some S' ↔
  S' = subscribers ∖ {[client]} ∧ S' ≠ ∅.
Proof.
  unfold without. case_decide as E; split.
  - done.
  - intros [-> ?]. done.
  - intros [= <-]. done.
  - intros [-> _]. done.
Qed.

Lemma without_other s client c topic :
  wf s → Server.objects s !! client = Some c → topic ∉ Client.topics c →
  Server.topics s !! topic ≫= without client = Server.topics s !! topic.
Proof.
  intros Hwf Hc Ht. destruct (Server.topics s !! topic) as [S|] eqn:HS; [|done].
  simpl. assert (client ∉ S) as Hni.
  { intros Hin. destruct (wf_topics_sound s Hwf _ _ _ HS Hin) as (_ & c' & ? & ?).
    by simplify_eq. }
  apply without_Some. split; [set_solver|].
  intros ->. by apply (wf_topics_nonempty s Hwf topic).
Qed.

Ltac topics_sound_without Hwf :=
  let S := fresh "S" in let HS := fresh "HS" in let Hw := fresh "Hw" in
  let Hin := fresh "Hin" in let Hno := fresh "Hno" in
  intros ? ? ? (S & HS & Hw)%bind_Some Hin;
  apply without_Some in Hw as [-> _];
  apply elem_of_difference in Hin as [Hin Hno];
  rewrite elem_of_singleton in Hno;
  wf_sat Hwf; wf_solve Hwf.

Ltac topics_nonempty_without :=
  let Hw := fresh "Hw" in
  intros ? (? & ? & Hw)%bind_Some; apply without_Some in Hw as [? ?]; congruence.

Lemma topics_complete_without s client client' c' topic :
  wf s → live s client' → client' ≠ client →
  Server.objects s !! client' = Some c' → topic ∈ Client.topics c' →
  ∃ subscribers,
    Server.topics s !! topic ≫= without client = Some subscribers ∧
    client' ∈ subscribers.
Proof.
  intros Hwf Hl Hne Hc Ht.
  destruct (wf_topics_complete s Hwf _ _ _ Hl Hc Ht) as (S & HS & Hin).
  exists (S ∖ {[client]}). rewrite HS. simpl. split; [|set_solver].
  apply without_Some. split; [done|set_solver].
Qed.

Lemma client_remove_wf client s s' :
  Server.client_remove client s = Ok s' → live s client → wf s → wf s'.
Proof.
  intros H Hlive Hwf.
  apply client_remove_effect in H as (c & Hc & Ho & Ht & H).
  assert (∀ t, Server.topics s' !! t = Server.topics s !! t ≫= without client) as Ht'.
  { intros t. rewrite Ht. case_decide; [done|]. symmetry. by eapply without_other. }
  clear Ht.
  pose proof (wf_conn_ok s Hwf) as Hconn.
  destruct (Client.connected c) eqn:Hflag.
  - destruct H as (Hf & H1 & H2 & H3 & H6 & H7 & H8).
    apply (conn_ok_close _ _ _ _ (Client.fileno c)) in Hconn.
    constructor; unfold live; rewrite ?H1, ?H2, ?H3, ?Ho, ?H6, ?H7, ?H8.
    7-10: rewrite ?dom_delete_L; conn_goals Hconn.
    all: clear Hconn.
    all: try setoid_rewrite Ht'.
    1-3: wf_cases Hwf.
    + topics_sound_without Hwf.
    + topics_nonempty_without.
    + intros o' c' t Hl Hc' Hin.
      eapply topics_complete_without; [done| | |done..].
      * destruct_hyps; map_cases; [left|right]; eauto.
      * intros ->. destruct_hyps; map_cases; wf_sat Hwf; congruence.
  - destruct H as (H1 & H2 & H3 & H6 & H7 & H8).
    constructor; unfold live; rewrite ?H1, ?H2, ?H3, ?Ho, ?H6, ?H7, ?H8.
    7-10: conn_goals Hconn.
    all: clear Hconn.
    all: try setoid_rewrite Ht'.
    1-3: wf_cases Hwf.
    + topics_sound_without Hwf.
    + topics_nonempty_without.
    + intros o' c' t Hl Hc' Hin.
      eapply topics_complete_without; [done| | |done..].
      * destruct_hyps; map_cases; [left|right]; eauto.
      * intros ->. destruct_hyps; map_cases; wf_sat Hwf; congruence.
Qed.

(** Replacing a Client object by one with the same name, descriptor, flag
    and subscriptions keeps the state well formed. *)
Lemma wf_update_client client c c' s s' :
  wf s →
  Server.objects s !! client = Some c →
  Client.name c' = Client.name c → Client.fileno c' = Client.fileno c →
  Client.connected c' = Client.connected c → Client.topics c' = Client.topics c →
  Server.objects s' = <[client := c']> (Server.objects s) →
  Server.connected s' = Server.connected s →
  Server.connected_names s' = Server.connected_names s →
  Server.temp_lost s' = Server.temp_lost s →
  Server.topics s' = Server.topics s →
  Server.connections s' = Server.connections s →
  Server.pending s' = Server.pending s →
  dom (Server.epoll s') = dom (Server.epoll s) →
  wf s'.
Proof.
  intros Hwf Hc Hn Hf Hb Ht H5 H1 H2 H3 H4 H6 H7 H8.
  pose proof (wf_conn_ok s Hwf) as Hconn.
  constructor; unfold live; rewrite ?H1, ?H2, ?H3, ?H4, ?H5, ?H6, ?H7, ?H8.
  7-10: conn_goals Hconn.
  5: apply Hwf.
  all: clear Hconn.
  all: wf_cases Hwf.
  all: rewrite Ht in *; wf_solve Hwf.
Qed.

Lemma epoll_modify_effect fileno eventmask s s' :
  Server.epoll_modify fileno eventmask s = Ok s' →
  fileno ∈ dom (Server.epoll s) ∧
  s' = Server.emit (EpollModify fileno eventmask)
         (Server.set_epoll (<[fileno := eventmask]> (Server.epoll s)) s).
Proof.
  unfold Server.epoll_modify. intros H. ok_inv H. subst.
  split; [by apply elem_of_dom|done].
Qed.

Lemma epoll_modify_dom fileno eventmask s s' :
  Server.epoll_modify fileno eventmask s = Ok s' →
  dom (Server.epoll s') = dom (Server.epoll s).
Proof.
  intros [Hin ->]%epoll_modify_effect. srv_simpl.
  rewrite dom_insert_L. set_solver.
Qed.

(** One step of the fan-out: the stream of the subscriber is what
    [add_message] makes of it, and the state is otherwise the same up to
    the epoll registrations and the log. *)
Lemma publish_to_effect message client s s' :
  Server.publish_to message client s = Ok s' →
  ∃ c,
    Server.objects s !! client = Some c ∧
    Server.objects s' = <[client := (Client.add_message message c).2]> (Server.objects s) ∧
    Server.connected s' = Server.connected s ∧
    Server.connected_names s' = Server.connected_names s ∧
    Server.temp_lost s' = Server.temp_lost s ∧
    Server.topics s' = Server.topics s ∧
    Server.connections s' = Server.connections s ∧
    Server.pending s' = Server.pending s ∧
    Server.requests s' = Server.requests s ∧
    dom (Server.epoll s') = dom (Server.epoll s).
Proof.
  unfold Server.publish_to, Server.deref.
  intros H. ok_inv H.
  all: try (apply epoll_modify_effect in H as [Hin ->]).
  all: subst; srv_simpl.
  all: eexists; split; [done|]; rewrite ?Heqp; srv_simpl; split_and!; try done.
  rewrite dom_insert_L. set_solver.
Qed.


Lemma add_message_fields message c :
  let c' := (Client.add_message message c).2 in
  Client.name c' = Client.name c ∧ Client.fileno c' = Client.fileno c ∧
  Client.connected c' = Client.connected c ∧ Client.topics c' = Client.topics c ∧
  Client.lost_time c' = Client.lost_time c.
Proof. unfold Client.add_message. simpl. by case_match. Qed.

Lemma publish_to_wf message client s s' :
  Server.publish_to message client s = Ok s' → wf s → wf s'.
Proof.
  intros H Hwf.
  apply publish_to_effect in H as (c & Hc & H5 & H1 & H2 & H3 & H4 & H6 & H7 & _ & H8).
  destruct (add_message_fields message c) as (? & ? & ? & ? & _).
  by eapply (wf_update_client client c).
Qed.

Lemma for_each_preserves {A S} (P : S → Prop) (body : A → S → result S) l s s' :
  (∀ x s s', body x s = Ok s' → P s → P s') →
  for_each l body s = Ok s' → P s → P s'.
Proof.
  intros Hbody. revert s. induction l as [|x l IH]; intros s H Hs.
  - simpl in H. by simplify_eq.
  - simpl in H. apply bind_Ok in H as (s1 & H1 & H). eauto.
Qed.

Lemma process_publish_wf topic data s s' :
  Server.process_publish topic data s = Ok s' → wf s → wf s'.
Proof.
  unfold Server.process_publish. intros H Hwf. ok_inv H; [|by subst].
  eapply for_each_preserves; [|done..]. intros ???. apply publish_to_wf.
Qed.

Lemma send_message_chunk_effect fileno s s' :
  Server.send_message_chunk fileno s = Ok s' →
  ∃ client c,
    Server.connected s !! fileno = Some client ∧
    Server.objects s !! client = Some c ∧
    Server.objects s' =
      <[client := (Client.get_message_chunk BUFFER_SIZE c).2]> (Server.objects s) ∧
    Server.connected s' = Server.connected s ∧
    Server.connected_names s' = Server.connected_names s ∧
    Server.temp_lost s' = Server.temp_lost s ∧
    Server.topics s' = Server.topics s ∧
    Server.connections s' = Server.connections s ∧
    Server.pending s' = Server.pending s ∧
    Server.requests s' = Server.requests s ∧
    dom (Server.epoll s') = dom (Server.epoll s).
Proof.
  unfold Server.send_message_chunk, Server.deref, Server.connection_send, getitem.
  intros H. ok_inv H.
  all: try (apply epoll_modify_effect in H as [Hin ->]).
  all: subst; srv_simpl.
  all: eexists _, _; split_and!; try done.
  all: try (match goal with E : Client.get_message_chunk _ _ = _ |- _ => by rewrite E end).
  srv_simpl_all. rewrite dom_insert_L. set_solver.
Qed.

Lemma get_message_chunk_fields max_chunk_size c :
  let c' := (Client.get_message_chunk max_chunk_size c).2 in
  Client.name c' = Client.name c ∧ Client.fileno c' = Client.fileno c ∧
  Client.connected c' = Client.connected c ∧ Client.topics c' = Client.topics c.
Proof. done. Qed.

Lemma send_message_chunk_wf fileno s s' :
  Server.send_message_chunk fileno s = Ok s' → wf s → wf s'.
Proof.
  intros H Hwf.
  apply send_message_chunk_effect in H
    as (o & c & Hf & Hc & H5 & H1 & H2 & H3 & H4 & H6 & H7 & _ & H8).
  destruct (get_message_chunk_fields BUFFER_SIZE c) as (? & ? & ? & ?).
  by eapply (wf_update_client o c).
Qed.

Lemma process_subscribe_effect fileno topic s s' :
  Server.process_subscribe fileno topic s = Ok s' →
  topic ≠ EmptyString ∧
  ∃ client c,
    Server.connected s !! fileno = Some client ∧
    Server.objects s !! client = Some c ∧
    s' = Server.set_topics (Server.topics s') (Server.set_objects (Server.objects s') s) ∧
    if decide (topic ∈ Client.topics c) then
      Server.objects s' = Server.objects s ∧ Server.topics s' = Server.topics s
    else
      Server.objects s' =
        <[client := Client.set_topics (Client.topics c ∪ {[topic]}) c]> (Server.objects s) ∧
      Server.topics s' =
        <[topic := default ∅ (Server.topics s !! topic) ∪ {[client]}]> (Server.topics s).
Proof.
  unfold Server.process_subscribe, Server.deref, getitem, Client.subscribe.
  intros H. ok_inv H. all: subst; srv_simpl_all.
  all: split; [done|]; eexists _, _; split_and!; [done..|].
  all: repeat case_decide; simplify_eq; srv_simpl_all; try done.
  by rewrite insert_id.
Qed.

Lemma process_subscribe_wf fileno topic s s' :
  Server.process_subscribe fileno topic s = Ok s' → wf s → wf s'.
Proof.
  intros H Hwf.
  apply process_subscribe_effect in H as (Hne & o & c & Hf & Hc & Hs' & H).
  pose proof (wf_conn_ok s Hwf) as Hconn.
  case_decide as Hin.
  { destruct H as [H5 H4]. destruct Hwf.
    rewrite Hs'. constructor; unfold live in *; srv_simpl; rewrite ?H4, ?H5; done. }
  destruct H as [H5 H4].
  rewrite Hs'. constructor; unfold live; srv_simpl; rewrite ?H4, ?H5.
  7-10: conn_goals Hconn.
  all: clear Hconn Hs'.
  1-3: wf_cases Hwf.
  - intros t S o' HS Hin'.
    assert (live s o' ∧ ∃ c', Server.objects s !! o' = Some c' ∧
              (t = topic ∨ t ∈ Client.topics c')) as (Hl & c' & Hc' & Ht).
    { apply lookup_insert_Some in HS as [[<- <-]|[Hne' HS]].
      - apply elem_of_union in Hin' as [Hin'|Hin'].
        + destruct (Server.topics s !! topic) as [S0|] eqn:HS0; [|set_solver].
          destruct (wf_topics_sound s Hwf _ _ _ HS0 Hin') as (? & c' & ? & ?). eauto 6.
        + apply elem_of_singleton in Hin' as ->. split; [left; eauto|eauto].
      - destruct (wf_topics_sound s Hwf _ _ _ HS Hin') as (? & c' & ? & ?). eauto 6. }
    split; [done|].
    destruct (decide (o' = o)) as [->|Hno].
    + eexists. rewrite lookup_insert_eq. split; [done|]. srv_simpl.
      simplify_eq. set_solver.
    + rewrite lookup_insert_ne by done. exists c'. split; [done|].
      destruct Ht as [->|Ht]; [|done].
      apply lookup_insert_Some in HS as [[_ <-]|[? _]]; [|done].
      apply elem_of_union in Hin' as [Hin'|Hin']; [|set_solver].
      destruct (Server.topics s !! topic) as [S0|] eqn:HS0; [|set_solver].
      destruct (wf_topics_sound s Hwf _ _ _ HS0 Hin') as (? & c'' & ? & ?).
      by simplify_eq.
  - intros t [[_ HS]|[_ HS]]%lookup_insert_Some; [set_solver|].
    by apply (wf_topics_nonempty s Hwf t).
  - intros o' c' t Hl Hc' Ht.
    assert (t = topic ∧ o' = o ∨
            ∃ S, Server.topics s !! t = Some S ∧ o' ∈ S) as [[-> ->]|(S & HS & HinS)].
    { apply lookup_insert_Some in Hc' as [[<- <-]|[Hno Hc']].
      - srv_simpl_all. apply elem_of_union in Ht as [Ht|Ht].
        + right. eapply (wf_topics_complete s Hwf); [left; eauto|done..].
        + apply elem_of_singleton in Ht as ->. by left.
      - right. by eapply (wf_topics_complete s Hwf). }
    + eexists. rewrite lookup_insert_eq. split; [done|set_solver].
    + destruct (decide (t = topic)) as [->|Hnt].
      * eexists. rewrite lookup_insert_eq. split; [done|]. rewrite HS. set_solver.
      * exists S. by rewrite lookup_insert_ne.
Qed.


Lemma process_unsubscribe_effect fileno topic s s' :
  Server.process_unsubscribe fileno topic s = Ok s' →
  topic ≠ EmptyString ∧
  ∃ client c,
    Server.connected s !! fileno = Some client ∧
    Server.objects s !! client = Some c ∧
    s' = Server.set_topics (Server.topics s') (Server.set_objects (Server.objects s') s) ∧
    if decide (topic ∈ Client.topics c) then
      Server.objects s' =
        <[client := Client.set_topics (Client.topics c ∖ {[topic]}) c]> (Server.objects s) ∧
      ∃ subscribers,
        Server.topics s !! topic = Some subscribers ∧ client ∈ subscribers ∧
        ∀ t, Server.topics s' !! t =
             if decide (t = topic) then without client subscribers
             else Server.topics s !! t
    else
      Server.objects s' = Server.objects s ∧ Server.topics s' = Server.topics s.
Proof.
  unfold Server.process_unsubscribe, Server.deref, getitem, Client.unsubscribe.
  intros H. ok_inv H. all: subst.
  - apply client_remove_topic_effect in H as (Hs' & S & HS & Hin & Ht).
    srv_simpl_all. split; [done|]. eexists _, _; split_and!; [done..| |].
    + rewrite Hs' at 1. srv_simpl. rewrite Hs'. srv_simpl. by destruct s.
    + case_decide; simplify_eq. srv_simpl_all.
      split; [by rewrite Hs'|]. eauto.
  - subst. srv_simpl_all. split; [done|]. eexists _, _; split_and!; [done..| |].
    + by destruct s.
    + case_decide; simplify_eq. srv_simpl. by rewrite insert_id.
Qed.

Lemma process_unsubscribe_wf fileno topic s s' :
  Server.process_unsubscribe fileno topic s = Ok s' → wf s → wf s'.
Proof.
  intros H Hwf.
  apply process_unsubscribe_effect in H as (Hne & o & c & Hf & Hc & Hs' & H).
  pose proof (wf_conn_ok s Hwf) as Hconn.
  case_decide as Hin.
  2:{ destruct H as [H5 H4]. destruct Hwf.
      rewrite Hs'. constructor; unfold live in *; srv_simpl; rewrite ?H4, ?H5; done. }
  destruct H as (H5 & S & HS & HinS & Ht).
  rewrite Hs'. constructor; unfold live; srv_simpl; rewrite ?H5.
  7-10: conn_goals Hconn.
  all: clear Hconn Hs'.
  1-3: wf_cases Hwf.
  - intros t S' o' HS' Hin'. rewrite Ht in HS'.
    assert (live s o' ∧ (t = topic → o' ≠ o) ∧
            ∃ c', Server.objects s !! o' = Some c' ∧ t ∈ Client.topics c')
      as (Hl & Hno & c' & Hc' & Ht').
    { case_decide as Heq.
      - subst t. apply without_Some in HS' as [-> _].
        apply elem_of_difference in Hin' as [Hin' Hno].
        destruct (wf_topics_sound s Hwf _ _ _ HS Hin') as (? & c' & ? & ?).
        split_and!; [done|set_solver|eauto].
      - destruct (wf_topics_sound s Hwf _ _ _ HS' Hin') as (? & c' & ? & ?).
        split_and!; [done|done|eauto]. }
    split; [done|].
    destruct (decide (o' = o)) as [->|Hne'].
    + eexists. rewrite lookup_insert_eq. split; [done|]. srv_simpl.
      simplify_eq. set_solver.
    + rewrite lookup_insert_ne by done. eauto.
  - intros t. rewrite Ht. case_decide.
    + intros [_ ?]%without_Some. done.
    + by apply (wf_topics_nonempty s Hwf t).
  - intros o' c' t Hl Hc' Ht'. rewrite Ht.
    assert (∃ S', Server.topics s !! t = Some S' ∧ o' ∈ S' ∧ (t = topic → o' ≠ o))
      as (S' & HS' & HinS' & Hno).
    { apply lookup_insert_Some in Hc' as [[<- <-]|[Hno Hc']].
      - srv_simpl_all. apply elem_of_difference in Ht' as [Ht' Hnt].
        destruct (wf_topics_complete s Hwf o c t) as (S' & ? & ?); [left; eauto|done..|].
        exists S'. split_and!; [done..|set_solver].
      - destruct (wf_topics_complete s Hwf o' c' t) as (S' & ? & ?); [done..|].
        exists S'. split_and!; done. }
    case_decide as Heq; [|eauto].
    subst t. assert (S' = S) as -> by congruence.
    exists (S ∖ {[o]}). split; [|set_solver].
    apply without_Some. split; [done|]. specialize (Hno eq_refl). set_solver.
Qed.

(** [wf] reads eight components of the state. *)
Lemma wf_same s s' :
  Server.connected s' = Server.connected s →
  Server.connected_names s' = Server.connected_names s →
  Server.temp_lost s' = Server.temp_lost s →
  Server.topics s' = Server.topics s →
  Server.objects s' = Server.objects s →
  Server.connections s' = Server.connections s →
  Server.pending s' = Server.pending s →
  dom (Server.epoll s') = dom (Server.epoll s) →
  wf s → wf s'.
Proof.
  intros H1 H2 H3 H4 H5 H6 H7 H8 [].
  constructor; unfold live in *; rewrite ?H1, ?H2, ?H3, ?H4, ?H5, ?H6, ?H7, ?H8; done.
Qed.

Lemma connection_send_effect fileno data s s' :
  Server.connection_send fileno data s = Ok s' →
  fileno ∈ Server.connections s ∧ s' = Server.emit (SockSend fileno data) s.
Proof. unfold Server.connection_send. intros H. ok_inv H. by subst. Qed.

Lemma process_connect_wf fileno client_name s s' :
  Server.process_connect fileno client_name s = Ok s' →
  fileno ∈ Server.pending s → wf s → wf s'.
Proof.
  unfold Server.process_connect. intros H Hp Hwf. ok_inv H.
  - apply connection_send_effect in E as [_ ->].
    eapply connection_remove_wf; [done| |].
    + srv_simpl. eapply conn_ok_pending_unbound; [by apply wf_conn_ok|done].
    + by apply (wf_same s).
  - by eapply client_restore_wf.
  - eapply client_add_wf; [done..| | |done].
    + by apply eq_None_not_Some.
    + by apply eq_None_not_Some.
Qed.

Lemma process_disconect_wf fileno s s' :
  Server.process_disconect fileno s = Ok s' → wf s → wf s'.
Proof.
  unfold Server.process_disconect, getitem. intros H Hwf. ok_inv H. subst.
  eapply client_remove_wf; [done| |done]. left; eauto.
Qed.

Lemma process_command_wf fileno command arg1 data s s' :
  Server.process_command fileno command arg1 data s = Ok s' → wf s → wf s'.
Proof.
  unfold Server.process_command. intros H Hwf. ok_inv H.
  - by eapply process_connect_wf.
  - eapply connection_remove_wf; [done| |done].
    eapply conn_ok_pending_unbound; [by apply wf_conn_ok|done].
  - by eapply process_disconect_wf.
  - by eapply process_publish_wf.
  - by eapply process_subscribe_wf.
  - by eapply process_unsubscribe_wf.
  - by subst.
Qed.

Lemma process_message_wf fileno bin_msg s s' :
  Server.process_message fileno bin_msg s = Ok s' → wf s → wf s'.
Proof.
  unfold Server.process_message. intros H Hwf.
  destruct (parse_message bin_msg) as [[[command arg1] data]|]; [|by simplify_eq].
  by eapply process_command_wf.
Qed.

Lemma receive_request_chunk_wf fileno request_chunk now s s' :
  Server.receive_request_chunk fileno request_chunk now s = Ok s' → wf s → wf s'.
Proof.
  unfold Server.receive_request_chunk, getitem. intros H Hwf. ok_inv H.
  - by eapply client_lost_wf.
  - eapply connection_remove_wf; [done| |done].
    eapply conn_ok_pending_unbound; [by apply wf_conn_ok|done].
  - eapply (for_each_preserves wf); [|done|].
    + intros ???. apply process_message_wf.
    + by apply (wf_same s).
Qed.

Lemma dispatch_wf r s s' : Server.dispatch r s = Ok s' → wf s → wf s'.
Proof.
  unfold Server.dispatch. intros H Hwf. ok_inv H.
  - by eapply connection_register_wf.
  - by eapply receive_request_chunk_wf.
  - by eapply send_message_chunk_wf.
  - by subst.
Qed.

Lemma remove_list_loop now s (l : list (string * positive)) (acc R : gset positive) :
  for_each l
    (λ '(client_name, client) remove_list,
       do c <- Server.deref client s;
       if Server.lost_too_long now c then Ok (remove_list ∪ {[client]})
       else Ok remove_list) acc = Ok R →
  ∀ o, o ∈ R ↔
       o ∈ acc ∨ ∃ n c, (n, o) ∈ l ∧ Server.objects s !! o = Some c ∧
                        Server.lost_too_long now c = true.
Proof.
  revert acc. induction l as [|[n' o'] l IH]; intros acc H o.
  - simpl in H. simplify_eq. split; [auto|]. intros [?|(? & ? & Hin & _)]; [done|].
    by apply elem_of_nil in Hin.
  - cbn [for_each] in H. apply bind_Ok in H as (acc' & H1 & H).
    apply IH with (o := o) in H. rewrite H. clear H IH.
    unfold Server.deref in H1. ok_inv H1; subst.
    + rewrite elem_of_union, elem_of_singleton. split.
      * intros [[?| ->]|(n & c & Hin & ?)]; [by left| |].
        -- right. exists n', r. split; [apply elem_of_cons; auto|done].
        -- right. exists n, c. split; [apply elem_of_cons; auto|done].
      * intros [?|(n & c & Hin & Hc & Hl)]; [by left; left|].
        apply elem_of_cons in Hin as [[= -> ->]|Hin]; [by left; right|].
        right. eauto.
    + split.
      * intros [?|(n & c & Hin & ?)]; [by left|].
        right. exists n, c. split; [apply elem_of_cons; auto|done].
      * intros [?|(n & c & Hin & Hc & Hl)]; [by left|].
        apply elem_of_cons in Hin as [[= -> ->]|Hin]; [congruence|].
        right. eauto.
Qed.

(** [remove_list] holds the lost clients that have been lost for more
    than [LOST_TIMEOUT]. *)
Lemma remove_list_spec now s R :
  Server.remove_list now s = Ok R →
  ∀ o, o ∈ R ↔ ∃ n c, Server.temp_lost s !! n = Some o ∧
                      Server.objects s !! o = Some c ∧
                      Server.lost_too_long now c = true.
Proof.
  unfold Server.remove_list. intros H o.
  rewrite (remove_list_loop _ _ _ _ _ H o).
  setoid_rewrite elem_of_map_to_list. set_solver.
Qed.

(** Removing lost clients one after the other: the clients left in the
    lost table are those that were not in the list. *)
Lemma remove_lost_clients l s s' :
  for_each l Server.client_remove s = Ok s' →
  NoDup l →
  (∀ o, o ∈ l → ∃ n, Server.temp_lost s !! n = Some o) →
  wf s →
  wf s' ∧
  Server.connected s' = Server.connected s ∧
  Server.connected_names s' = Server.connected_names s ∧
  Server.objects s' = Server.objects s ∧
  Server.epoll s' = Server.epoll s ∧
  ∀ n o, Server.temp_lost s' !! n = Some o ↔
         Server.temp_lost s !! n = Some o ∧ o ∉ l.
Proof.
  revert s. induction l as [|o l IH]; intros s H Hnd Hl Hwf.
  - simpl in H. simplify_eq. split_and!; try done.
    intros n o. split; [intros ?; split; [done|apply not_elem_of_nil]|by intros [? _]].
  - cbn [for_each] in H. apply bind_Ok in H as (s1 & H1 & H).
    apply NoDup_cons in Hnd as [Hni Hnd].
    destruct (Hl o) as [n Hn]; [apply elem_of_cons; auto|].
    assert (wf s1) as Hwf1.
    { eapply client_remove_wf; [done| |done]. right; eauto. }
    apply client_remove_effect in H1 as (c & Hc & Ho & _ & H1).
    destruct (wf_temp_lost s Hwf _ _ Hn) as (c' & ? & ? & ? & Hflag & ? & ?).
    simplify_eq. rewrite Hflag in H1.
    destruct H1 as (E1 & E2 & E3 & E6 & E7 & E8).
    apply IH in H as (Hwf' & E1' & E2' & Ho' & E8' & E3'); [|done| |done].
    + split_and!; try congruence.
      intros n' o'. rewrite E3', E3, lookup_delete_Some, elem_of_cons.
      split.
      * intros [[Hne Hn'] Hni']. split; [done|]. intros [->|?]; [|done].
        destruct (wf_temp_lost s Hwf _ _ Hn') as (c' & ? & ? & _). by simplify_eq.
      * intros [Hn' Hni']. split; [|tauto]. split; [|done].
        intros <-. apply Hni'. left. congruence.
    + intros o' Hin'. destruct (Hl o') as [n' Hn']; [apply elem_of_cons; auto|].
      exists n'. rewrite E3. apply lookup_delete_Some. split; [|done].
      intros <-. assert (o' = o) as -> by congruence. done.
Qed.

(** The sweep removes exactly the lost clients that have been lost for
    more than [LOST_TIMEOUT], whatever the order in which [remove_list] is
    walked. *)
Lemma clients_remove_dead_spec now s s' :
  Server.clients_remove_dead now s = Ok s' → wf s →
  wf s' ∧
  Server.connected s' = Server.connected s ∧
  Server.connected_names s' = Server.connected_names s ∧
  Server.objects s' = Server.objects s ∧
  Server.epoll s' = Server.epoll s ∧
  ∀ n o, Server.temp_lost s' !! n = Some o ↔
         Server.temp_lost s !! n = Some o ∧
         ∃ c, Server.objects s !! o = Some c ∧ Server.lost_too_long now c = false.
Proof.
  unfold Server.clients_remove_dead. intros H Hwf.
  apply bind_Ok in H as (R & HR & H).
  pose proof (remove_list_spec _ _ _ HR) as HR'.
  apply remove_lost_clients in H as (Hwf' & H1 & H2 & H5 & H8 & H3);
    [|apply NoDup_elements| |done].
  - split_and!; try done. intros n o. rewrite H3, elem_of_elements, HR'.
    split.
    + intros [Hn Hni]. split; [done|].
      destruct (wf_temp_lost s Hwf _ _ Hn) as (c & Hc & _). exists c. split; [done|].
      destruct (Server.lost_too_long now c) eqn:E; [|done].
      exfalso. apply Hni. eauto.
    + intros [Hn (c & Hc & Hl)]. split; [done|].
      intros (n' & c' & _ & Hc' & Hl'). congruence.
  - intros o (n & c & Hn & _)%elem_of_elements%HR'. eauto.
Qed.

Lemma refresh_wf time1 time2 s s' :
  Server.refresh time1 time2 s = Ok s' → wf s → wf s'.
Proof.
  unfold Server.refresh. intros H Hwf. ok_inv H; [|by subst].
  apply clients_remove_dead_spec in H as [? _]; [done|].
  by apply (wf_same s).
Qed.

Lemma server_loop_iteration_wf events time1 time2 s s' :
  Server.server_loop_iteration events time1 time2 s = Ok s' → wf s → wf s'.
Proof.
  unfold Server.server_loop_iteration. intros H Hwf.
  apply bind_Ok in H as (s1 & H1 & H).
  eapply refresh_wf; [done|].
  eapply (for_each_preserves wf); [|done..]. intros ???. apply dispatch_wf.
Qed.

Lemma init_wf listen_fileno now : wf (Server.init listen_fileno now).
Proof.
  constructor; unfold live; simpl; try set_solver.
  all: intros; destruct_hyps; simplify_map_eq.
Qed.

(** Every state in which the loop starts an iteration is well formed. *)
Lemma reachable_wf s : reachable s → wf s.
Proof.
  induction 1 as [|s events time1 time2 s' _ IH H].
  - apply init_wf.
  - by eapply server_loop_iteration_wf.
Qed.

(** ** Reachable states of the scenarios *)

Lemma run_reachable iterations s s' :
  run iterations s = Ok s' → reachable s → reachable s'.
Proof.
  unfold run. revert s. induction iterations as [|[events time] l IH]; intros s H Hs.
  - simpl in H. by simplify_eq.
  - cbn [for_each] in H. apply bind_Ok in H as (s1 & H1 & H).
    eapply IH; [done|]. by eapply reachable_iteration.
Qed.

Lemma boot_reachable : reachable boot.
Proof. apply reachable_init. Qed.

Lemma two_clients_reachable : reachable two_clients.
Proof.
  apply (run_reachable two_clients_script boot); [|apply boot_reachable].
  vm_compute. reflexivity.
Qed.

Lemma bob_lost_reachable : reachable bob_lost.
Proof.
  apply (run_reachable bob_lost_script two_clients); [|apply two_clients_reachable].
  vm_compute. reflexivity.
Qed.

Lemma long_name_connected_reachable : reachable long_name_connected.
Proof.
  apply (run_reachable long_name_script boot); [|apply boot_reachable].
  vm_compute. reflexivity.
Qed.

(** ** Name uniqueness *)

Lemma NoDup_omap_inj {A B} (f : A → option B) (l : list A) :
  NoDup l →
  (∀ x y b, x ∈ l → y ∈ l → f x = Some b → f y = Some b → x = y) →
  NoDup (omap f l).
Proof.
  induction 1 as [|x l Hx Hnd IH]; intros Hinj; [constructor|].
  csimpl. destruct (f x) as [b|] eqn:Hfx.
  - constructor.
    + rewrite list_elem_of_omap. intros (y & Hy & Hfy).
      assert (x = y) as ->; [|done].
      eapply Hinj; [by left|by right|done..].
    + apply IH. intros y z c Hy Hz. apply Hinj; by right.
  - apply IH. intros y z c Hy Hz. apply Hinj; by right.
Qed.

Lemma length_omap_total {A B} (f : A → option B) (l : list A) :
  (∀ x, x ∈ l → is_Some (f x)) → length (omap f l) = length l.
Proof.
  induction l as [|x l IH]; intros Hf; [done|].
  csimpl. destruct (Hf x) as [b ->]; [by left|].
  simpl. f_equal. apply IH. intros y Hy. apply Hf. by right.
Qed.

Lemma elem_of_client_names {K} `{Countable K} s (d : gmap K positive) name :
  name ∈ client_names s d ↔
  ∃ k client c, d !! k = Some client ∧ Server.objects s !! client = Some c ∧
                Client.name c = name.
Proof.
  unfold client_names. rewrite list_elem_of_omap. split.
  - intros ([k o] & Hin & Hn). apply elem_of_map_to_list in Hin.
    apply fmap_Some in Hn as (c & ? & ->). eauto 6.
  - intros (k & o & c & Hk & Hc & <-). exists (k, o).
    split; [by apply elem_of_map_to_list|]. by rewrite Hc.
Qed.

Lemma wf_names_unique s : wf s → names_unique s.
Proof.
  intros Hwf. apply NoDup_app. split_and!.
  - apply NoDup_omap_inj; [apply NoDup_map_to_list|].
    intros [f1 o1] [f2 o2] b H1%elem_of_map_to_list H2%elem_of_map_to_list
      (c1 & Hc1 & ->)%fmap_Some (c2 & Hc2 & E)%fmap_Some.
    wf_sat Hwf. rewrite <- E in *. by simplify_eq.
  - intros n (f & o & c & Hf & Hc & <-)%elem_of_client_names
      (n' & o' & c' & Hn' & Hc' & E)%elem_of_client_names.
    wf_sat Hwf. congruence.
  - apply NoDup_omap_inj; [apply NoDup_map_to_list|].
    intros [n1 o1] [n2 o2] b H1%elem_of_map_to_list H2%elem_of_map_to_list
      (c1 & Hc1 & ->)%fmap_Some (c2 & Hc2 & E)%fmap_Some.
    wf_sat Hwf. rewrite <- E in *. by simplify_eq.
Qed.

Lemma wf_names_total {K} `{Countable K} s (d : gmap K positive) :
  (∀ k client, d !! k = Some client → is_Some (Server.objects s !! client)) →
  length (client_names s d) = size d.
Proof.
  intros Hd. unfold client_names. rewrite length_omap_total.
  - by rewrite length_map_to_list.
  - intros [k o] Hin%elem_of_map_to_list. destruct (Hd _ _ Hin) as [c ->]. by eexists.
Qed.

(** C2: between two iterations of the loop, no name occurs twice among
    the names of the connected clients and of the lost clients taken
    together, and every entry of the two tables has its name in these
    lists; and this is so again after a CONNECT on a pending connection
    (accepted, restored or refused), after the loss of a connection and
    after the removal of a live client. *)
Theorem name_uniqueness s :
  reachable s →
  names_unique s ∧
  length (connected_client_names s) = size (Server.connected s) ∧
  length (lost_client_names s) = size (Server.temp_lost s) ∧
  (∀ fileno client_name s',
     fileno ∈ Server.pending s →
     Server.process_connect fileno client_name s = Ok s' → names_unique s') ∧
  (∀ fileno now s', Server.client_lost fileno now s = Ok s' → names_unique s') ∧
  (∀ client s',
     live s client → Server.client_remove client s = Ok s' → names_unique s').
Proof.
  intros Hwf%reachable_wf. split_and!.
  - by apply wf_names_unique.
  - apply wf_names_total. intros f o Hf.
    destruct (wf_connected s Hwf _ _ Hf) as (c & -> & _). by eexists.
  - apply wf_names_total. intros f o Hf.
    destruct (wf_temp_lost s Hwf _ _ Hf) as (c & -> & _). by eexists.
  - intros fileno client_name s' Hp H. by eapply wf_names_unique, process_connect_wf.
  - intros fileno now s' H. by eapply wf_names_unique, client_lost_wf.
  - intros client s' Hl H. by eapply wf_names_unique, client_remove_wf.
Qed.

Lemma name_uniqueness_witness :
  reachable bob_lost ∧
  connected_client_names bob_lost = ["alice"]%string ∧
  lost_client_names bob_lost = ["bob"]%string ∧
  names_unique bob_lost.
Proof.
  split; [apply bob_lost_reachable|]. split; [by vm_compute|]. split; [by vm_compute|].
  apply (name_uniqueness bob_lost), bob_lost_reachable.
Defined.

(** ** Topic index *)

Lemma wf_index_consistent s : wf s → index_consistent s.
Proof.
  intros Hwf. split_and!.
  - intros topic client c Hl Hc. split.
    + intros (S & HS & Hin).
      destruct (wf_topics_sound s Hwf _ _ _ HS Hin) as (_ & c' & ? & ?). by simplify_eq.
    + intros Ht. by eapply (wf_topics_complete s Hwf).
  - intros topic client (S & HS & Hin).
    by destruct (wf_topics_sound s Hwf _ _ _ HS Hin).
  - apply Hwf.
Qed.

(** C3: between two iterations of the loop, a live client is in the index
    entry of a topic exactly when the topic is in its subscription set, the
    index refers to live clients only and has no empty entry; and this is
    so again after a SUBSCRIBE, after an UNSUBSCRIBE and after the removal
    of a live client. *)
Theorem topic_index_consistency s :
  reachable s →
  index_consistent s ∧
  (∀ fileno topic s',
     Server.process_subscribe fileno topic s = Ok s' → index_consistent s') ∧
  (∀ fileno topic s',
     Server.process_unsubscribe fileno topic s = Ok s' → index_consistent s') ∧
  (∀ client s',
     live s client → Server.client_remove client s = Ok s' → index_consistent s').
Proof.
  intros Hwf%reachable_wf. split_and!.
  - by apply wf_index_consistent.
  - intros fileno topic s' H. by eapply wf_index_consistent, process_subscribe_wf.
  - intros fileno topic s' H. by eapply wf_index_consistent, process_unsubscribe_wf.
  - intros client s' Hl H. by eapply wf_index_consistent, client_remove_wf.
Qed.

Lemma topic_index_consistency_witness :
  reachable two_clients ∧
  index_consistent two_clients ∧
  map_to_list (Server.topics two_clients) =
    [("weather", {[2%positive]}); ("sports", {[2%positive]})]%string.
Proof.
  split; [apply two_clients_reachable|]. split.
  - apply (topic_index_consistency two_clients), two_clients_reachable.
  - vm_compute. reflexivity.
Defined.

(** ** Client names *)

(** C8, as amended: every client that the broker holds, connected or
    lost, has a non-empty name, and a CONNECT with an empty name on a
    pending connection closes the connection and leaves the tables of
    clients as they are.  The server does not look at the length of a name. *)
Theorem client_names_nonempty s :
  reachable s →
  (∀ client c, live s client → Server.objects s !! client = Some c →
               Client.name c ≠ EmptyString) ∧
  (∀ fileno data s',
     fileno ∈ Server.pending s →
     Server.process_command fileno "CONNECT" "" data s = Ok s' →
     Server.connected s' = Server.connected s ∧
     Server.connected_names s' = Server.connected_names s ∧
     Server.temp_lost s' = Server.temp_lost s ∧
     Server.objects s' = Server.objects s ∧
     fileno ∉ Server.connections s').
Proof.
  intros Hwf%reachable_wf. split.
  - intros client c [[f Hf]|[n Hn]] Hc; wf_sat Hwf; congruence.
  - intros fileno data s' Hp H. unfold Server.process_command in H.
    rewrite decide_True in H by done.
    rewrite decide_False in H by (by intros [_ ?]).
    apply connection_remove_fields in H as (-> & -> & -> & _ & -> & -> & _).
    split_and!; try done. set_solver.
Qed.

Lemma client_names_nonempty_witness :
  reachable bob_lost ∧
  ∀ client c, live bob_lost client → Server.objects bob_lost !! client = Some c →
              Client.name c ≠ EmptyString.
Proof.
  split; [apply bob_lost_reachable|].
  apply (client_names_nonempty bob_lost), bob_lost_reachable.
Defined.

(** C8, as stated, fails: a CONNECT with a name of 65 characters creates
    a client of that name. *)
Lemma client_name_length_counterexample :
  str_len long_name = 65 ∧
  reachable long_name_connected ∧
  ∃ c, Server.connected long_name_connected !! 5 = Some 1%positive ∧
       Server.objects long_name_connected !! 1%positive = Some c ∧
       Client.name c = long_name.
Proof.
  split; [by vm_compute|]. split; [apply long_name_connected_reachable|].
  eexists. split; [by vm_compute|]. split; [by vm_compute|]. reflexivity.
Qed.

(** ** Restoring a lost client *)

(** Evaluation of a handler under known lookups and memberships. *)
Ltac eval_step tac :=
  progress (cbn [bind]; srv_simpl) ||
  match goal with
  | H : ?m !! ?k = _ |- context [?m !! ?k] => rewrite H
  | |- context [decide ?P] =>
      first [ rewrite (decide_True (P := P)) by tac
            | rewrite (decide_False (P := P)) by tac ]
  | |- context [alter ?f ?k (alter ?g ?k ?m) !! ?k] =>
      rewrite (lookup_alter_eq f (alter g k m) k), (lookup_alter_eq g m k)
  end.

Lemma client_restore_total fileno client_name client c s :
  Server.temp_lost s !! client_name = Some client →
  Server.objects s !! client = Some c →
  fileno ∈ Server.connections s → fileno ∈ Server.pending s →
  is_Some (Server.epoll s !! fileno) →
  ∃ s', Server.client_restore fileno client_name s = Ok s'.
Proof.
  intros Hl Hc Hconn Hp [m Hm].
  unfold Server.client_restore, getitem, Server.deref, Server.connection_send,
    set_remove, delitem, Server.epoll_modify.
  repeat eval_step ltac:(done). cbn [fmap option_fmap option_map bind].
  case_decide; eauto.
Qed.


Lemma bob_returns_reachable : reachable bob_returns.
Proof.
  apply (run_reachable bob_returns_script bob_lost); [|apply bob_lost_reachable].
  vm_compute. reflexivity.
Qed.


(** ** Publishing *)

Lemma publish_to_total message client c s :
  wf s → Server.objects s !! client = Some c →
  ∃ s', Server.publish_to message client s = Ok s' ∧
        Server.log s' = Server.log s ++ option_list (arm s message client) ∧
        ∀ fileno, Server.connected s !! fileno = None →
                  Server.epoll s' !! fileno = Server.epoll s !! fileno.
Proof.
  intros Hwf Hc. unfold Server.publish_to, Server.deref, arm. rewrite Hc. cbn [bind].
  destruct (Client.add_message message c) as [size c'] eqn:Hadd. srv_simpl.
  destruct (decide (size = len message)) as [Hs|Hs].
  - destruct (decide (is_Some (Server.connected s !! Client.fileno c'))) as [Hf|Hf].
    + rewrite decide_True by done.
      assert (is_Some (Server.epoll s !! Client.fileno c')) as [m Hm].
      { apply elem_of_dom, (wf_registered s Hwf), (wf_bound s Hwf). by apply elem_of_dom. }
      unfold Server.epoll_modify. srv_simpl. rewrite Hm.
      eexists. split; [done|]. srv_simpl. split; [done|].
      intros fileno Hfn. rewrite lookup_insert_ne; [done|].
      intros <-. rewrite Hfn in Hf. by destruct Hf.
    + rewrite decide_False by (by intros [_ ?]).
      eexists. split; [done|]. srv_simpl. by rewrite app_nil_r.
  - rewrite decide_False by (by intros [? _]).
    eexists. split; [done|]. srv_simpl. by rewrite app_nil_r.
Qed.

Lemma arm_same s s' message client :
  Server.objects s' !! client = Server.objects s !! client →
  Server.connected s' = Server.connected s →
  arm s' message client = arm s message client.
Proof. unfold arm. by intros -> ->. Qed.

Lemma omap_ext_in {A B} (f g : A → option B) (l : list A) :
  (∀ x, x ∈ l → f x = g x) → omap f l = omap g l.
Proof.
  induction l as [|x l IH]; intros H; [done|].
  csimpl. rewrite (H x) by (by left). rewrite IH; [done|].
  intros y Hy. apply H. by right.
Qed.

(** The loop of [__process_publish]: every subscriber gets its stream from
    [add_message], once; the calls made are those of [arm], in the order
    of the walk. *)
Lemma publish_loop message l s :
  NoDup l → wf s →
  (∀ client, client ∈ l → is_Some (Server.objects s !! client)) →
  ∃ s',
    for_each l (Server.publish_to message) s = Ok s' ∧
    wf s' ∧
    Server.connected s' = Server.connected s ∧
    Server.connected_names s' = Server.connected_names s ∧
    Server.temp_lost s' = Server.temp_lost s ∧
    Server.topics s' = Server.topics s ∧
    Server.requests s' = Server.requests s ∧
    (∀ client c, client ∈ l → Server.objects s !! client = Some c →
       Server.objects s' !! client = Some (Client.add_message message c).2) ∧
    (∀ client, client ∉ l → Server.objects s' !! client = Server.objects s !! client) ∧
    Server.log s' = Server.log s ++ omap (arm s message) l ∧
    (∀ fileno, Server.connected s !! fileno = None →
               Server.epoll s' !! fileno = Server.epoll s !! fileno).
Proof.
  intros Hnd. revert s. induction Hnd as [|o l Hni Hnd IH]; intros s Hwf Hobj.
  - exists s. split_and!; try done.
    + intros ?? Hin. by apply elem_of_nil in Hin.
    + csimpl. by rewrite app_nil_r.
  - destruct (Hobj o) as [c Hc]; [by left|].
    destruct (publish_to_total message o c s Hwf Hc) as (s1 & H1 & Hlog1 & Hep1).
    pose proof (publish_to_wf _ _ _ _ H1 Hwf) as Hwf1.
    pose proof H1 as Heff. apply publish_to_effect in Heff
      as (c' & Hc' & E5 & E1 & E2 & E3 & E4 & E6 & E7 & Er & E8).
    simplify_eq.
    destruct (IH s1 Hwf1) as (s' & H & Hwf' & F1 & F2 & F3 & F4 & Fr & Fin & Fout & Flog & Fep).
    { intros o' Hin'. rewrite E5. rewrite lookup_insert_ne by (intros <-; done).
      apply Hobj. by right. }
    exists s'. split_and!; try congruence.
    + cbn [for_each]. rewrite H1. done.
    + intros o' c' [->|Hin']%elem_of_cons Hc'.
      * rewrite Fout by done. rewrite E5, lookup_insert_eq. congruence.
      * apply Fin; [done|]. rewrite E5, lookup_insert_ne; [done|]. by intros <-.
    + intros o' Hni'. apply not_elem_of_cons in Hni' as [Hne Hni'].
      rewrite Fout by done. by rewrite E5, lookup_insert_ne.
    + rewrite Flog, Hlog1, <- app_assoc. f_equal. csimpl.
      replace (omap (arm s1 message) l) with (omap (arm s message) l).
      * by destruct (arm s message o).
      * apply omap_ext_in. intros o' Hin'. symmetry. apply arm_same; [|done].
        rewrite E5, lookup_insert_ne; [done|]. by intros <-.
    + intros fileno Hf. rewrite Fep by congruence. by apply Hep1.
Qed.

Lemma elem_of_omap_arm s message (l : list positive) call :
  call ∈ omap (arm s message) l ↔
  ∃ client c,
    client ∈ l ∧ Server.objects s !! client = Some c ∧
    (Client.add_message message c).1 = len message ∧
    is_Some (Server.connected s !! Client.fileno c) ∧
    call = EpollModify (Client.fileno c) READ_WRITE.
Proof.
  rewrite list_elem_of_omap. unfold arm. split.
  - intros (o & Hin & H). destruct (Server.objects s !! o) as [c|] eqn:Hc; [|done].
    destruct (add_message_fields message c) as (_ & Hf & _).
    destruct (Client.add_message message c) as [size c'] eqn:Hadd.
    case_decide as Hd; [|done]. destruct Hd as [-> ?]. simplify_eq.
    simpl in Hf. rewrite Hf in *. exists o, c. by rewrite Hadd.
  - intros (o & c & Hin & Hc & Hsz & Hf & ->). exists o. split; [done|].
    rewrite Hc. destruct (add_message_fields message c) as (_ & Hf' & _).
    destruct (Client.add_message message c) as [size c'] eqn:Hadd.
    simpl in *. rewrite Hf'. rewrite decide_True; [done|]. by split.
Qed.

Lemma frame_nonempty payload : frame payload ≠ [].
Proof. unfold frame. by destruct payload. Qed.




(** ** The lost window *)

Lemma streams_grow_refl s : streams_grow s s.
Proof. intros o c Hc. by exists c. Qed.

Lemma streams_grow_trans s1 s2 s3 :
  streams_grow s1 s2 → streams_grow s2 s3 → streams_grow s1 s3.
Proof.
  intros H12 H23 o c Hc. destruct (H12 _ _ Hc) as (c2 & Hc2 & Hp2).
  destruct (H23 _ _ Hc2) as (c3 & Hc3 & Hp3). exists c3. split; [done|]. by etrans.
Qed.

Lemma streams_grow_same s s' :
  Server.objects s' = Server.objects s → streams_grow s s'.
Proof. intros E o c Hc. exists c. by rewrite E. Qed.

Lemma streams_grow_insert s s' client c c' :
  Server.objects s !! client = Some c →
  Server.objects s' = <[client := c']> (Server.objects s) →
  Client.message_stream c `prefix_of` Client.message_stream c' →
  streams_grow s s'.
Proof.
  intros Hc E Hp o c0 Hc0. rewrite E. destruct (decide (o = client)) as [->|Hne].
  - exists c'. rewrite lookup_insert_eq. by simplify_eq.
  - exists c0. by rewrite lookup_insert_ne.
Qed.

Lemma streams_grow_lost_kept s s' : streams_grow s s' → lost_kept s s'.
Proof. intros H n o c _ Hc _. by apply H. Qed.

Lemma for_each_streams_grow {A} (body : A → Server.t → result Server.t) l s s' :
  (∀ x s s', body x s = Ok s' → streams_grow s s') →
  for_each l body s = Ok s' → streams_grow s s'.
Proof.
  intros Hbody. revert s. induction l as [|x l IH]; intros s H.
  - simpl in H. simplify_eq. apply streams_grow_refl.
  - cbn [for_each] in H. apply bind_Ok in H as (s1 & H1 & H).
    eapply streams_grow_trans; eauto.
Qed.

Lemma add_message_prefix message c :
  Client.message_stream c `prefix_of`
  Client.message_stream (Client.add_message message c).2.
Proof.
  rewrite add_message_spec. case_match; simpl; [by eexists|done].
Qed.

Lemma process_command_streams_grow fileno command arg1 data s s' :
  Server.process_command fileno command arg1 data s = Ok s' → streams_grow s s'.
Proof.
  unfold Server.process_command, Server.process_connect, Server.process_disconect,
    Server.process_publish, getitem.
  intros H. ok_inv H.
  - apply connection_send_effect in E as [_ ->].
    apply connection_remove_fields in H as (_ & _ & _ & _ & Eo & _).
    by apply streams_grow_same.
  - apply client_restore_effect in H
      as (o & c & _ & Hc & _ & _ & _ & _ & _ & _ & Eo & _).
    by eapply streams_grow_insert.
  - apply client_add_effect in H as (_ & _ & _ & _ & _ & _ & Eo & _).
    intros o c Hc. exists c. rewrite Eo, lookup_insert_ne; [done|].
    intros <-. by rewrite fresh_object in Hc.
  - apply connection_remove_fields in H as (_ & _ & _ & _ & Eo & _).
    by apply streams_grow_same.
  - apply client_remove_effect in H as (c & _ & Eo & _). by apply streams_grow_same.
  - eapply for_each_streams_grow; [|done]. clear. intros o s s' H.
    apply publish_to_effect in H as (c & Hc & Eo & _).
    eapply streams_grow_insert; [done..|]. apply add_message_prefix.
  - subst. apply streams_grow_refl.
  - apply process_subscribe_effect in H as (_ & o & c & _ & Hc & _ & H).
    case_decide; destruct H as [Eo _].
    + by apply streams_grow_same.
    + by eapply streams_grow_insert.
  - apply process_unsubscribe_effect in H as (_ & o & c & _ & Hc & _ & H).
    case_decide; destruct H as [Eo _].
    + by eapply streams_grow_insert.
    + by apply streams_grow_same.
  - subst. apply streams_grow_refl.
Qed.

Lemma receive_request_chunk_streams_grow fileno request_chunk now s s' :
  Server.receive_request_chunk fileno request_chunk now s = Ok s' → streams_grow s s'.
Proof.
  unfold Server.receive_request_chunk, getitem. intros H. ok_inv H.
  - apply client_lost_effect in H as (o & c & _ & Hc & _ & _ & _ & _ & Eo & _).
    by eapply streams_grow_insert.
  - apply connection_remove_fields in H as (_ & _ & _ & _ & Eo & _).
    by apply streams_grow_same.
  - eapply streams_grow_trans; [|eapply for_each_streams_grow; [|done]].
    + by apply streams_grow_same.
    + clear. intros m s s' H. unfold Server.process_message in H.
      destruct (parse_message m) as [[[command arg1] data]|].
      * by eapply process_command_streams_grow.
      * simplify_eq. apply streams_grow_refl.
Qed.

(** Whatever the loop does in one step, a client that is lost before
    and after keeps what it had queued. *)
Lemma dispatch_lost_kept r s s' :
  wf s → Server.dispatch r s = Ok s' → lost_kept s s'.
Proof.
  unfold Server.dispatch. intros Hwf H. ok_inv H.
  - apply connection_register_effect in H as (_ & _ & _ & _ & _ & Eo & _).
    by apply streams_grow_lost_kept, streams_grow_same.
  - by eapply streams_grow_lost_kept, receive_request_chunk_streams_grow.
  - apply send_message_chunk_effect in H
      as (o & c & Hf & Hc & Eo & _).
    intros name o' c' Hn Hc' _. exists c'. split; [|done].
    rewrite Eo, lookup_insert_ne; [done|]. intros <-. wf_sat Hwf; congruence.
  - subst. apply streams_grow_lost_kept, streams_grow_refl.
Qed.

Lemma refresh_lost_kept time1 time2 s s' :
  wf s → Server.refresh time1 time2 s = Ok s' → lost_kept s s'.
Proof.
  unfold Server.refresh. intros Hwf H. ok_inv H.
  - apply clients_remove_dead_spec in H as (_ & _ & _ & E & _); [|by apply (wf_same s)].
    by apply streams_grow_lost_kept, streams_grow_same.
  - subst. apply streams_grow_lost_kept, streams_grow_refl.
Qed.

Lemma client_restore_epoll fileno client_name client c s s' :
  Server.client_restore fileno client_name s = Ok s' →
  Server.temp_lost s !! client_name = Some client →
  Server.objects s !! client = Some c →
  Client.message_stream c ≠ [] →
  Server.epoll s' !! fileno = Some READ_WRITE.
Proof.
  unfold Server.client_restore, Server.connection_send, set_remove, getitem, delitem,
    Server.deref, Server.epoll_modify.
  intros H Hl Hc Hs. ok_inv H. all: subst. all: srv_simpl_all.
  all: rewrite !lookup_alter_eq in *; simplify_eq.
  - apply lookup_insert_eq.
  - exfalso. unfold Client.message_stream_size, len in *.
    match goal with
    | H1 : Server.objects _ !! _ = Some _, H2 : _ <$> _ = Some _ |- _ =>
        rewrite H1 in H2; cbn in H2
    end.
    simplify_eq. srv_simpl_all. destruct (Client.message_stream _); [done|].
    simpl in *. lia.
Qed.

Lemma stream_of_same s s' client :
  Server.objects s' = Server.objects s → stream_of s' client = stream_of s client.
Proof. unfold stream_of. by intros ->. Qed.

Lemma stream_of_insert s s' o c c' client :
  Server.objects s' = <[o := c']> (Server.objects s) →
  Server.objects s !! o = Some c →
  Client.message_stream c' = Client.message_stream c →
  stream_of s' client = stream_of s client.
Proof.
  unfold stream_of. intros -> Hc E. destruct (decide (client = o)) as [->|Hne].
  - by rewrite lookup_insert_eq, Hc.
  - by rewrite lookup_insert_ne.
Qed.

(** Only PUBLISH puts anything on a stream: every other command leaves the
    stream of every Client object as it is. *)
Lemma process_command_streams_same fileno command arg1 data s s' client :
  command ≠ "PUBLISH"%string →
  Server.process_command fileno command arg1 data s = Ok s' →
  is_Some (Server.objects s !! client) →
  stream_of s' client = stream_of s client.
Proof.
  unfold Server.process_command, Server.process_connect, Server.process_disconect,
    getitem.
  intros Hc H [c0 Hc0]. ok_inv H.
  - apply connection_send_effect in E as [_ ->].
    apply connection_remove_fields in H as (_ & _ & _ & _ & Eo & _).
    by apply stream_of_same.
  - apply client_restore_effect in H
      as (o & c & _ & Hc' & _ & _ & _ & _ & _ & _ & Eo & _).
    by eapply stream_of_insert.
  - apply client_add_effect in H as (_ & _ & _ & _ & _ & _ & Eo & _).
    unfold stream_of. rewrite Eo, lookup_insert_ne; [done|].
    intros <-. apply (is_fresh (dom (Server.objects s))). by apply elem_of_dom.
  - apply connection_remove_fields in H as (_ & _ & _ & _ & Eo & _).
    by apply stream_of_same.
  - apply client_remove_effect in H as (c & _ & Eo & _). by apply stream_of_same.
  - tauto.
  - apply process_subscribe_effect in H as (_ & o & c & _ & Hc' & _ & H).
    case_decide; destruct H as [Eo _].
    + by apply stream_of_same.
    + by eapply stream_of_insert.
  - apply process_unsubscribe_effect in H as (_ & o & c & _ & Hc' & _ & H).
    case_decide; destruct H as [Eo _].
    + by eapply stream_of_insert.
    + by apply stream_of_same.
  - by subst.
Qed.

(** An event that brings no request octets (a new connection, the end of
    a connection, a descriptor ready for writing) leaves the stream of
    every lost client as it is. *)
Lemma dispatch_quiet_lost_same r s s' name client :
  wf s → Server.dispatch r s = Ok s' →
  Server.received r = [] ∨ Z.land (Server.ready_event r) EPOLLIN = 0 →
  Server.temp_lost s !! name = Some client →
  stream_of s' client = stream_of s client.
Proof.
  unfold Server.dispatch, Server.receive_request_chunk. intros Hwf H Hq Hl.
  destruct (wf_temp_lost s Hwf _ _ Hl) as (c0 & Hc0 & _).
  ok_inv H.
  - apply connection_register_effect in H as (_ & _ & _ & _ & _ & Eo & _).
    by apply stream_of_same.
  - apply client_lost_effect in H as (o & c & _ & Hc & _ & _ & _ & _ & Eo & _).
    by eapply stream_of_insert.
  - apply connection_remove_fields in H as (_ & _ & _ & _ & Eo & _).
    by apply stream_of_same.
  - destruct Hq; done.
  - apply send_message_chunk_effect in H as (o & c & Hf & Hc & Eo & _).
    unfold stream_of. rewrite Eo, lookup_insert_ne; [done|].
    intros <-. wf_sat Hwf; congruence.
  - by subst.
Qed.

Lemma refresh_objects time1 time2 s s' :
  wf s → Server.refresh time1 time2 s = Ok s' → Server.objects s' = Server.objects s.
Proof.
  unfold Server.refresh. intros Hwf H. ok_inv H.
  - by apply clients_remove_dead_spec in H as (_ & _ & _ & E & _); [|by apply (wf_same s)].
  - by subst.
Qed.

(** C10: a PUBLISH to a topic that a lost client subscribes to appends the
    framed message to the stream of that client when the two together stay
    below [MAX_STREAM_SIZE], and leaves the record as it is otherwise: the
    record that [add_message], the function used for connected clients,
    makes of it.  The PUBLISH leaves the client in the lost table, does
    not touch the records of clients outside the topic, and makes epoll
    calls for descriptors of connected clients only.  The step that loses
    a client keeps its stream.  No step of the loop, and no sweep, takes
    anything away from the stream of a client that is lost before and
    after it; a command other than PUBLISH, an event that brings no
    request octets, and the sweep leave the stream exactly as it is.  The
    CONNECT that restores the client keeps the stream and registers the
    new descriptor for writing when the stream is not empty.  Descriptor
    0, which lost clients carry, is assumed not to be a connection. *)
Theorem lost_window_retention s :
  reachable s →
  (∀ fileno topic data subscribers name client c,
     fileno ∉ Server.pending s → topic ≠ EmptyString →
     Server.topics s !! topic = Some subscribers →
     Server.connected s !! 0 = None →
     Server.temp_lost s !! name = Some client → client ∈ subscribers →
     Server.objects s !! client = Some c →
     let message := frame (encode (topic +:+ " " +:+ data)) in
     ∃ s' calls,
       Server.process_command fileno "PUBLISH" topic data s = Ok s' ∧
       Server.objects s' !! client = Some (Client.add_message message c).2 ∧
       (len (Client.message_stream c) + len message < Client.MAX_STREAM_SIZE →
          Server.objects s' !! client =
            Some (with_stream (Client.message_stream c ++ message) c) ∧
          stream_of s' client = Client.message_stream c ++ message) ∧
       (Client.MAX_STREAM_SIZE ≤ len (Client.message_stream c) + len message →
          Server.objects s' !! client = Some c ∧
          stream_of s' client = Client.message_stream c) ∧
       (∀ client', client' ∉ subscribers →
          Server.objects s' !! client' = Server.objects s !! client') ∧
       Server.temp_lost s' = Server.temp_lost s ∧
       Server.log s' = Server.log s ++ calls ∧
       (∀ call, call ∈ calls →
          ∃ fileno', call = EpollModify fileno' READ_WRITE ∧
                     is_Some (Server.connected s !! fileno')) ∧
       (∀ fileno', Server.connected s !! fileno' = None →
          Server.epoll s' !! fileno' = Server.epoll s !! fileno')) ∧
  (∀ fileno now client c s',
     Server.connected s !! fileno = Some client →
     Server.objects s !! client = Some c →
     Server.client_lost fileno now s = Ok s' →
     Server.temp_lost s' !! Client.name c = Some client ∧
     stream_of s' client = Client.message_stream c) ∧
  (∀ r s', Server.dispatch r s = Ok s' → lost_kept s s') ∧
  (∀ time1 time2 s', Server.refresh time1 time2 s = Ok s' → lost_kept s s') ∧
  (∀ fileno name data client c s',
     fileno ∈ Server.pending s →
     Server.temp_lost s !! name = Some client →
     Server.objects s !! client = Some c →
     Server.process_command fileno "CONNECT" name data s = Ok s' →
     Server.connected s' !! fileno = Some client ∧
     stream_of s' client = Client.message_stream c ∧
     (Client.message_stream c ≠ [] → Server.epoll s' !! fileno = Some READ_WRITE)) ∧
  (∀ fileno command arg1 data name client s',
     command ≠ "PUBLISH"%string →
     Server.process_command fileno command arg1 data s = Ok s' →
     Server.temp_lost s !! name = Some client →
     stream_of s' client = stream_of s client) ∧
  (∀ r name client s',
     Server.received r = [] ∨ Z.land (Server.ready_event r) EPOLLIN = 0 →
     Server.dispatch r s = Ok s' →
     Server.temp_lost s !! name = Some client →
     stream_of s' client = stream_of s client) ∧
  (∀ time1 time2 s',
     Server.refresh time1 time2 s = Ok s' → Server.objects s' = Server.objects s).
Proof.
  intros Hwf%reachable_wf. split_and!.
  - intros fileno topic data subscribers name client c Hp Ht HS H0 Hl Hin Hc message.
    destruct (publish_loop message (elements subscribers) s) as
      (s' & H & _ & _ & _ & F3 & _ & _ & Fin & Fout & Flog & Fep);
      [apply NoDup_elements|done| |].
    { intros o Hin'%elem_of_elements.
      destruct (wf_topics_sound s Hwf _ _ _ HS Hin') as (_ & c' & -> & _). by eexists. }
    assert (Server.objects s' !! client = Some (Client.add_message message c).2) as Hc'
      by (apply Fin; [by apply elem_of_elements|done]).
    exists s', (omap (arm s message) (elements subscribers)). split_and!; try done.
    + unfold Server.process_command, Server.process_publish.
      rewrite decide_False by done. rewrite decide_False by done.
      rewrite decide_True by done. rewrite decide_False by done. by rewrite HS.
    + intros Hlt. unfold stream_of. rewrite Hc', add_message_spec.
      destruct (Z.ltb_spec (len (Client.message_stream c) + len message)
                  Client.MAX_STREAM_SIZE); [done|lia].
    + intros Hge. unfold stream_of. rewrite Hc', add_message_spec.
      destruct (Z.ltb_spec (len (Client.message_stream c) + len message)
                  Client.MAX_STREAM_SIZE); [lia|done].
    + intros o Hni. apply Fout. by rewrite elem_of_elements.
    + intros call (o & c' & _ & _ & _ & ? & ->)%elem_of_omap_arm. eauto.
  - intros fileno now client c s' Hf Hc H.
    apply client_lost_effect in H as (o & c' & Hf' & Hc' & _ & _ & E3 & _ & E5 & _).
    simplify_eq. unfold stream_of. by rewrite E3, E5, !lookup_insert_eq.
  - intros r s'. by apply dispatch_lost_kept.
  - intros time1 time2 s'. by apply refresh_lost_kept.
  - intros fileno name data client c s' Hp Hl Hc H.
    destruct (wf_temp_lost s Hwf _ _ Hl) as (c' & ? & Hn & Hne & _ & _ & Hnc).
    simplify_eq.
    unfold Server.process_command, Server.process_connect in H.
    rewrite decide_True in H by done. rewrite decide_True in H by done.
    rewrite decide_False in H by done.
    rewrite decide_False in H by (rewrite Hnc; by intros [? ?]).
    rewrite decide_True in H by (by rewrite Hl).
    pose proof (client_restore_epoll _ _ _ _ _ _ H Hl Hc) as Hep.
    apply client_restore_effect in H
      as (o & c' & Hl' & Hc' & _ & _ & E1 & _ & _ & _ & E5 & _).
    simplify_eq. unfold stream_of. rewrite E1, E5, !lookup_insert_eq. done.
  - intros fileno command arg1 data name client s' Hc H Hl.
    destruct (wf_temp_lost s Hwf _ _ Hl) as (c & Hc' & _).
    eapply process_command_streams_same; [done..|by eexists].
  - intros r name client s' Hq H Hl. by eapply dispatch_quiet_lost_same.
  - intros time1 time2 s'. by apply refresh_objects.
Qed.

Lemma lost_window_retention_witness :
  reachable bob_lost ∧
  ∃ s' calls,
    Server.process_command 5 "PUBLISH" "weather" "rain" bob_lost = Ok s' ∧
    Server.objects s' !! 2%positive = Some bob_record ∧
    stream_of s' 2%positive = wire "weather rain" ∧
    Server.temp_lost s' = Server.temp_lost bob_lost ∧
    Server.log s' = Server.log bob_lost ++ calls.
Proof.
  split; [apply bob_lost_reachable|].
  destruct (lost_window_retention bob_lost bob_lost_reachable) as (Hpub & _).
  destruct (Hpub 5 "weather" "rain" {[2%positive]} "bob" 2%positive
              (with_stream [] bob_record))
    as (s' & calls & H & _ & Hbelow & _ & _ & Hl & Hlog & _).
  - vm_compute. discriminate.
  - discriminate.
  - vm_compute. reflexivity.
  - vm_compute. reflexivity.
  - vm_compute. reflexivity.
  - vm_compute. reflexivity.
  - vm_compute. reflexivity.
  - destruct Hbelow as [Ho Hs]; [vm_compute; reflexivity|].
    exists s', calls. split; [exact H|]. split; [exact Ho|].
    split; [exact Hs|]. split; [exact Hl|exact Hlog].
Defined.

(** ** The sweep of the lost table *)

(** The test of the loop: some client is lost and the clock does not show
    the time of the last sweep.  A second does not come into it. *)
Lemma refresh_due_spec time1 s :
  Server.refresh_due time1 s = true ↔
  Server.temp_lost s ≠ ∅ ∧ ¬ (Server.last_refresh s == time1)%Q.
Proof.
  unfold Server.refresh_due.
  rewrite andb_true_iff, bool_decide_eq_true, negb_true_iff.
  rewrite <- not_true_iff_false, Qeq_bool_iff.
  split; intros [? Hne]; (split; [done|]); intros E; apply Hne.
  - rewrite E. unfold Qminus. apply Qplus_opp_r.
  - rewrite <- (Qplus_0_l time1), <- E. unfold Qminus.
    rewrite <- Qplus_assoc, (Qplus_comm (- time1)), Qplus_opp_r. symmetry. apply Qplus_0_r.
Qed.


(** ** Descriptors, buffers and event masks *)

Lemma connection_remove_io fileno s s' :
  Server.connection_remove fileno s = Ok s' →
  fileno ∈ Server.connections s ∧
  Server.socket_fileno s' = Server.socket_fileno s ∧
  Server.requests s' = delete fileno (Server.requests s) ∧
  Server.epoll s' = delete fileno (Server.epoll s) ∧
  Server.last_refresh s' = Server.last_refresh s ∧
  Server.log s' =
    Server.log s ++ [EpollUnregister fileno; SockShutdown fileno; SockClose fileno].
Proof.
  unfold Server.connection_remove, Server.epoll_unregister, delitem.
  intros H. ok_inv H; subst; simpl in *.
  destruct (decide (_ ∈ Server.pending s)); simpl; rewrite <- !app_assoc; done.
Qed.

Lemma connection_register_io fileno accepted s s' :
  Server.connection_register fileno accepted s = Ok s' →
  Server.epoll s !! accepted = None ∧
  Server.socket_fileno s' = Server.socket_fileno s ∧
  Server.requests s' = <[accepted := []]> (Server.requests s) ∧
  Server.epoll s' = <[accepted := EPOLLIN]> (Server.epoll s) ∧
  Server.last_refresh s' = Server.last_refresh s ∧
  Server.log s' = Server.log s ++ [EpollRegister accepted EPOLLIN].
Proof.
  unfold Server.connection_register, Server.epoll_register.
  intros H. ok_inv H. subst. srv_simpl_all. done.
Qed.

Lemma client_add_io fileno client_name s s' :
  Server.client_add fileno client_name s = Ok s' →
  Server.socket_fileno s' = Server.socket_fileno s ∧
  Server.requests s' = Server.requests s ∧
  Server.last_refresh s' = Server.last_refresh s.
Proof.
  unfold Server.client_add, Server.connection_send, set_remove.
  intros H. ok_inv H; subst; simpl in *. done.
Qed.

Lemma client_restore_io fileno client_name s s' :
  Server.client_restore fileno client_name s = Ok s' →
  Server.socket_fileno s' = Server.socket_fileno s ∧
  Server.requests s' = Server.requests s ∧
  Server.last_refresh s' = Server.last_refresh s ∧
  ∃ client c,
    Server.temp_lost s !! client_name = Some client ∧
    Server.objects s !! client = Some c ∧
    Server.epoll s' =
      if decide (Client.message_stream c = []) then Server.epoll s
      else <[fileno := READ_WRITE]> (Server.epoll s).
Proof.
  unfold Server.client_restore, Server.connection_send, set_remove, getitem, delitem,
    Server.deref, Server.update, Server.epoll_modify.
  intros H. ok_inv H. all: subst. all: srv_simpl_all.
  all: rewrite !lookup_alter_eq in *.
  all: match goal with
       | H1 : Server.objects _ !! _ = Some _, H2 : _ <$> (_ <$> _) = Some _ |- _ =>
           rewrite H1 in H2; cbn in H2; injection H2 as <-
       end.
  all: split_and!; try done.
  all: eexists _, _; split_and!; try done.
  all: unfold Client.message_stream_size, len in *; srv_simpl_all.
  all: case_decide as Hs; try (rewrite Hs in *; done).
  all: destruct (Client.message_stream _); simpl in *; (done || lia).
Qed.

Lemma client_lost_io fileno now s s' :
  Server.client_lost fileno now s = Ok s' →
  fileno ∈ Server.connections s ∧
  Server.socket_fileno s' = Server.socket_fileno s ∧
  Server.requests s' = delete fileno (Server.requests s) ∧
  Server.epoll s' = delete fileno (Server.epoll s) ∧
  Server.last_refresh s' = Server.last_refresh s ∧
  Server.log s' =
    Server.log s ++ [EpollUnregister fileno; SockShutdown fileno; SockClose fileno].
Proof.
  unfold Server.client_lost, getitem, delitem, Server.deref.
  intros H. ok_inv H.
  apply connection_remove_io in H as (H1 & H2 & H3 & H4 & H5 & H6).
  srv_simpl_all. done.
Qed.

Lemma client_remove_io client s s' :
  Server.client_remove client s = Ok s' →
  Server.socket_fileno s' = Server.socket_fileno s ∧
  Server.last_refresh s' = Server.last_refresh s ∧
  ∃ c,
    Server.objects s !! client = Some c ∧
    if Client.connected c then
      Client.fileno c ∈ Server.connections s ∧
      Server.requests s' = delete (Client.fileno c) (Server.requests s) ∧
      Server.epoll s' = delete (Client.fileno c) (Server.epoll s) ∧
      Server.log s' =
        Server.log s ++ [EpollUnregister (Client.fileno c); SockShutdown (Client.fileno c);
                         SockClose (Client.fileno c)]
    else
      Server.requests s' = Server.requests s ∧
      Server.log s' = Server.log s.
Proof.
  unfold Server.client_remove, Server.deref, delitem.
  intros H. ok_inv H. all: subst.
  all: match goal with
       | E : for_each _ _ ?s0 = Ok ?s1 |- _ =>
           apply client_remove_topics_effect in E as [Hs1 _]; [|apply NoDup_elements];
           remember (Server.topics s1) as T eqn:HT; clear HT; subst s1
       end.
  - apply connection_remove_io in H as (H1 & H2 & H3 & H4 & H5 & H6).
    srv_simpl_all. split_and!; try done.
    eexists; split; [reflexivity|]. rewrite Heqb. done.
  - subst. srv_simpl_all. split_and!; try done.
    eexists; split; [reflexivity|]. rewrite Heqb. done.
Qed.

Lemma publish_to_io message client s s' :
  Server.publish_to message client s = Ok s' →
  Server.socket_fileno s' = Server.socket_fileno s ∧
  Server.last_refresh s' = Server.last_refresh s ∧
  ∃ c,
    Server.objects s !! client = Some c ∧
    Server.epoll s' =
      if decide ((Client.add_message message c).1 = len message ∧
                 is_Some (Server.connected s !! Client.fileno c))
      then <[Client.fileno c := READ_WRITE]> (Server.epoll s)
      else Server.epoll s.
Proof.
  unfold Server.publish_to, Server.deref.
  intros H. ok_inv H.
  all: try (apply epoll_modify_effect in H as [Hin ->]).
  all: subst; srv_simpl.
  all: split_and!; try done.
  all: eexists; split; [done|].
  all: destruct (add_message_fields message r) as (_ & Hf & _).
  all: rewrite Heqp in *; srv_simpl_all.
  - rewrite decide_True; [by rewrite Hf|]. by rewrite <- Hf.
  - rewrite decide_False; [done|]. rewrite <- Hf. by intros [_ ?].
  - rewrite decide_False; [done|]. by intros [? _].
Qed.

Lemma get_message_chunk_spec max_chunk_size c :
  0 ≤ max_chunk_size →
  let '((msg_chunk, remaining), c') := Client.get_message_chunk max_chunk_size c in
  msg_chunk ++ Client.message_stream c' = Client.message_stream c ∧
  len msg_chunk = Z.min max_chunk_size (len (Client.message_stream c)) ∧
  remaining = len (Client.message_stream c') ∧
  msg_chunk = take (Z.to_nat max_chunk_size) (Client.message_stream c) ∧
  Client.message_stream c' = drop (Z.to_nat max_chunk_size) (Client.message_stream c).
Proof.
  intros Hmax. unfold Client.get_message_chunk, Client.message_stream_size, len.
  cbn [Client.message_stream Client.set_message_stream].
  destruct (Z.ltb_spec max_chunk_size (Z.of_nat (length (Client.message_stream c))))
    as [Hlt|Hge].
  - rewrite take_drop, length_take, length_drop. split_and!; try done; lia.
  - rewrite Nat2Z.id, take_drop, length_take, length_drop.
    rewrite firstn_all, drop_all. split_and!; try done; try lia.
    + rewrite take_ge; [done|lia].
    + rewrite drop_ge; [done|lia].
Qed.

Lemma BUFFER_SIZE_nonneg : 0 ≤ BUFFER_SIZE.
Proof. unfold BUFFER_SIZE. lia. Qed.

Lemma send_message_chunk_io fileno s s' :
  Server.send_message_chunk fileno s = Ok s' →
  Server.socket_fileno s' = Server.socket_fileno s ∧
  Server.last_refresh s' = Server.last_refresh s ∧
  ∃ client c,
    Server.connected s !! fileno = Some client ∧
    Server.objects s !! client = Some c ∧
    Server.objects s' =
      <[client := Client.set_message_stream
                    (drop (Z.to_nat BUFFER_SIZE) (Client.message_stream c)) c]>
        (Server.objects s) ∧
    Server.epoll s' =
      (if decide (drop (Z.to_nat BUFFER_SIZE) (Client.message_stream c) = [])
       then <[fileno := EPOLLIN]> (Server.epoll s) else Server.epoll s) ∧
    Server.log s' =
      Server.log s ++
      [SockSend fileno (take (Z.to_nat BUFFER_SIZE) (Client.message_stream c))] ++
      (if decide (drop (Z.to_nat BUFFER_SIZE) (Client.message_stream c) = [])
       then [EpollModify fileno EPOLLIN] else []).
Proof.
  unfold Server.send_message_chunk, Server.deref, Server.connection_send, getitem.
  intros H. ok_inv H.
  all: try (apply epoll_modify_effect in H as [Hin ->]).
  all: subst; srv_simpl.
  all: split_and!; try done.
  all: eexists _, _; split_and!; try done.
  all: match goal with
       | E : Client.get_message_chunk _ ?c = (_, _, ?c') |- _ =>
           pose proof (get_message_chunk_spec BUFFER_SIZE c BUFFER_SIZE_nonneg) as Hspec;
           rewrite E in Hspec; destruct Hspec as (_ & _ & Hrem & Htake & Hdrop);
           assert (c' = Client.set_message_stream (Client.message_stream c') c) as Hc'
             by (unfold Client.get_message_chunk in E; by simplify_eq);
           rewrite Hdrop in Hc'; clear E
       end.
  all: subst; srv_simpl_all; try done.
  all: try (rewrite <- !app_assoc; simpl).
  all: unfold len in *.
  all: case_decide as Hd; try done.
  all: try (rewrite Hd in *; simpl in *; done).
  all: destruct (drop _ _); simpl in *; try done; lia.
Qed.

Lemma io_desc_ok s :
  wf s → io_ok s →
  desc_ok (Server.socket_fileno s) (Server.connections s) (Server.pending s)
          (dom (Server.connected s)) (dom (Server.epoll s)) (dom (Server.requests s)).
Proof. intros [] []. by repeat split. Qed.

Lemma desc_ok_open l C P B R Q f :
  desc_ok l C P B R Q → f ∉ R →
  desc_ok l (C ∪ {[f]}) (P ∪ {[f]}) B ({[f]} ∪ R) ({[f]} ∪ Q).
Proof. unfold desc_ok. set_solver. Qed.

Lemma desc_ok_close l C P B R Q f :
  desc_ok l C P B R Q → f ∈ C →
  desc_ok l (C ∖ {[f]}) (P ∖ {[f]}) (B ∖ {[f]}) (R ∖ {[f]}) (Q ∖ {[f]}).
Proof. unfold desc_ok. set_solver. Qed.

Lemma desc_ok_remove l C P B R Q f :
  desc_ok l C P B R Q → f ∈ C → f ∉ B →
  desc_ok l (C ∖ {[f]}) (P ∖ {[f]}) B (R ∖ {[f]}) (Q ∖ {[f]}).
Proof. unfold desc_ok. set_solver. Qed.

Lemma desc_ok_bind l C P B R Q f :
  desc_ok l C P B R Q → f ∈ P → desc_ok l C (P ∖ {[f]}) ({[f]} ∪ B) R Q.
Proof.
  unfold desc_ok. intros (? & ? & ? & ? & ?) ?. split_and!; try done; [|set_solver].
  subst. apply set_eq. intros x. rewrite !elem_of_union, elem_of_difference, elem_of_singleton.
  destruct (decide (x = f)); subst; tauto.
Qed.

(** Closes the four goals of [io_ok] about descriptors from a [desc_ok]. *)
Ltac desc_goals Hdesc :=
  destruct Hdesc as (? & ? & ? & ? & ?); assumption.

(** Keeps what set reasoning about descriptors can use. *)
Ltac desc_only :=
  repeat match goal with
  | H : _ !! _ = Some _ |- _ => apply elem_of_dom_2 in H
  | H : _ !! _ = None |- _ => apply not_elem_of_dom in H
  | H : is_Some (_ !! _) |- _ => apply elem_of_dom in H
  end;
  repeat match goal with
  | H : ?T |- _ =>
      lazymatch T with
      | _ ∈ _ => fail
      | _ ∉ _ => fail
      | _ ## _ => fail
      | @eq (gset Z) _ _ => fail
      | @eq Z _ _ => fail
      | ¬ (@eq Z _ _) => fail
      | _ => clear H
      end
  end.

Ltac desc_solve Hdesc :=
  exfalso + idtac;
  destruct Hdesc as (? & ? & ? & ? & ?); desc_only; set_solver.

Ltac lookup_cases :=
  repeat match goal with
  | |- context [<[?k := _]> _ !! ?x] =>
      destruct (decide (x = k)) as [->|?];
      [rewrite lookup_insert_eq | rewrite lookup_insert_ne by done]
  | |- context [delete ?k _ !! ?x] =>
      destruct (decide (x = k)) as [->|?];
      [rewrite lookup_delete_eq | rewrite lookup_delete_ne by done]
  end.

Lemma connection_register_io_ok fileno accepted s s' :
  Server.connection_register fileno accepted s = Ok s' → wf s → io_ok s → io_ok s'.
Proof.
  intros H Hwf Hio.
  pose proof (io_desc_ok s Hwf Hio) as Hdesc.
  pose proof H as H'.
  apply connection_register_effect in H' as (Hf & H1 & H2 & H3 & H4 & H5 & H6 & H7 & H8).
  apply connection_register_io in H as (Hn & I1 & I2 & I3 & _).
  pose proof (desc_ok_open _ _ _ _ _ _ accepted Hdesc Hf) as Hdesc'.
  constructor; rewrite ?I1, ?I2, ?I3, ?H1, ?H5, ?H6, ?H7.
  2-5: rewrite ?dom_insert_L; desc_goals Hdesc'.
  all: clear Hdesc' H8 H2 H3 H4.
  - pose proof (io_listen s Hio). lookup_cases; [congruence|done].
  - intros f r Hr. map_cases; [done|]. by apply (io_request_clean s Hio f).
  - intros f m Hm. map_cases; [by left|]. by apply (io_masks s Hio f).
  - intros f Hp. lookup_cases; [done|]. apply (io_pending_mask s Hio). set_solver.
  - intros f o c Hc Ho Hs. pose proof (io_armed s Hio _ _ _ Hc Ho Hs).
    lookup_cases; [congruence|done].
  - intros f o c Hz Hc Ho Hs. pose proof (io_idle s Hio _ _ _ Hz Hc Ho Hs).
    lookup_cases; done.
  - apply Hio.
Qed.

Lemma streams_from_same s s' : Server.objects s' = Server.objects s → streams_from s s'.
Proof. intros E o c Hc. exists c. by rewrite <- E. Qed.

Lemma streams_from_insert s s' client c c' :
  Server.objects s !! client = Some c →
  Server.objects s' = <[client := c']> (Server.objects s) →
  Client.message_stream c' = Client.message_stream c →
  streams_from s s'.
Proof.
  intros Hc E Hs o c0 Hc0. rewrite E in Hc0.
  apply lookup_insert_Some in Hc0 as [[<- <-]|[? ?]]; eauto.
Qed.

Lemma io_ok_same s s' :
  Server.socket_fileno s' = Server.socket_fileno s →
  Server.requests s' = Server.requests s →
  Server.epoll s' = Server.epoll s →
  Server.connections s' = Server.connections s →
  Server.pending s' = Server.pending s →
  Server.connected s' = Server.connected s →
  streams_from s s' →
  io_ok s → io_ok s'.
Proof.
  intros I1 I2 I3 H6 H7 H1 Hst [].
  constructor; rewrite ?I1, ?I2, ?I3, ?H1, ?H6, ?H7; try done.
  - intros f o c' Hf Ho Hs. destruct (Hst _ _ Ho) as (c & Hc & E).
    rewrite E in Hs. eauto.
  - intros f o c' Hz Hf Ho Hs. destruct (Hst _ _ Ho) as (c & Hc & E).
    rewrite E in Hs. eauto.
  - intros o c' Ho. destruct (Hst _ _ Ho) as (c & Hc & ->). eauto.
Qed.

Lemma io_open_facts s fileno :
  wf s → io_ok s → fileno ∈ Server.connections s →
  fileno ≠ Server.socket_fileno s ∧
  is_Some (Server.epoll s !! fileno) ∧ is_Some (Server.requests s !! fileno) ∧
  (fileno ∈ Server.pending s ∧ Server.connected s !! fileno = None ∨
   fileno ∉ Server.pending s ∧ is_Some (Server.connected s !! fileno)).
Proof.
  intros Hwf Hio Hc. split_and!.
  - intros ->. by apply (io_listen_apart s Hio).
  - apply elem_of_dom. rewrite (io_registered s Hio). set_solver.
  - apply elem_of_dom. by rewrite (io_requests s Hio).
  - rewrite (io_partition s Hio) in Hc. pose proof (wf_pending_bound s Hwf) as Hd.
    apply elem_of_union in Hc as [Hp|Hb].
    + left. split; [done|]. apply not_elem_of_dom. set_solver.
    + right. split; [set_solver|]. by apply elem_of_dom.
Qed.

Lemma io_bound_open s fileno client :
  wf s → Server.connected s !! fileno = Some client → fileno ∈ Server.connections s.
Proof. intros Hwf Hf. apply (wf_bound s Hwf). by apply elem_of_dom_2 in Hf. Qed.

Lemma io_pending_open s fileno :
  wf s → fileno ∈ Server.pending s → fileno ∈ Server.connections s.
Proof. intros Hwf Hf. by apply (wf_pending s Hwf). Qed.

Lemma io_ok_close fileno s s' :
  wf s → io_ok s → fileno ∈ Server.connections s →
  Server.socket_fileno s' = Server.socket_fileno s →
  Server.requests s' = delete fileno (Server.requests s) →
  Server.epoll s' = delete fileno (Server.epoll s) →
  Server.connections s' = Server.connections s ∖ {[fileno]} →
  Server.pending s' = Server.pending s ∖ {[fileno]} →
  Server.connected s' = delete fileno (Server.connected s) →
  streams_from s s' →
  io_ok s'.
Proof.
  intros Hwf Hio Hc I1 I2 I3 H6 H7 H1 Hst.
  pose proof (io_desc_ok s Hwf Hio) as Hdesc.
  pose proof (desc_ok_close _ _ _ _ _ _ fileno Hdesc Hc) as Hdesc'.
  constructor; rewrite ?I1, ?I2, ?I3, ?H1, ?H6, ?H7.
  2-5: rewrite ?dom_delete_L; desc_goals Hdesc'.
  all: clear Hdesc'.
  - destruct (io_open_facts s fileno Hwf Hio Hc) as [Hne _].
    rewrite lookup_delete_ne by done. apply Hio.
  - intros f r Hr. map_cases. by apply (io_request_clean s Hio f).
  - intros f m Hm. map_cases. by apply (io_masks s Hio f).
  - intros f [Hp Hne]%elem_of_difference. rewrite lookup_delete_ne by set_solver.
    by apply (io_pending_mask s Hio).
  - intros f o c' Hf Ho Hs. map_cases. destruct (Hst _ _ Ho) as (c & Hc' & E).
    rewrite E in Hs. rewrite lookup_delete_ne by done. by eapply (io_armed s Hio).
  - intros f o c' Hz Hf Ho Hs. map_cases. destruct (Hst _ _ Ho) as (c & Hc' & E).
    rewrite E in Hs. rewrite lookup_delete_ne by done. by eapply (io_idle s Hio).
  - intros o c' Ho. destruct (Hst _ _ Ho) as (c & Hc' & ->). by eapply (io_stream_bound s Hio).
Qed.

Lemma connection_remove_io_ok fileno s s' :
  Server.connection_remove fileno s = Ok s' →
  fileno ∉ dom (Server.connected s) → wf s → io_ok s → io_ok s'.
Proof.
  intros H Hf Hwf Hio. pose proof H as H'.
  apply connection_remove_fields in H' as (H1 & H2 & H3 & H4 & H5 & H6 & H7 & H8).
  apply connection_remove_io in H as (Hc & I1 & I2 & I3 & _).
  eapply (io_ok_close fileno s); try done.
  - rewrite H1. symmetry. apply delete_id. by apply not_elem_of_dom.
  - by apply streams_from_same.
Qed.

Lemma client_lost_io_ok fileno now s s' :
  Server.client_lost fileno now s = Ok s' → wf s → io_ok s → io_ok s'.
Proof.
  intros H Hwf Hio. pose proof H as H'.
  apply client_lost_effect in H' as (o & c & Hf & Ho & H1 & H2 & H3 & H4 & H5 & H6 & H7 & H8).
  apply client_lost_io in H as (Hc & I1 & I2 & I3 & _).
  eapply (io_ok_close fileno s); try done.
  by eapply streams_from_insert.
Qed.

Lemma client_remove_io_ok client s s' :
  Server.client_remove client s = Ok s' → wf s → io_ok s → io_ok s'.
Proof.
  intros H Hwf Hio. pose proof H as H'.
  apply client_remove_effect in H' as (c & Hc & Ho & _ & H').
  apply client_remove_io in H as (I1 & _ & c' & Hc' & H).
  rewrite Hc in Hc'. injection Hc' as <-.
  destruct (Client.connected c).
  - destruct H' as (Hf & H1 & H2 & H3 & H6 & H7 & H8).
    destruct H as (Hin & I2 & I3 & _).
    eapply (io_ok_close (Client.fileno c) s); try done.
    by apply streams_from_same.
  - destruct H' as (H1 & H2 & H3 & H6 & H7 & H8). destruct H as (I2 & _).
    eapply (io_ok_same s); try done. by apply streams_from_same.
Qed.

(** Closes a goal of [io_ok] for the new state from the facts of the old
    one. *)
Ltac io_auto Hwf Hio :=
  let s := lazymatch type of Hio with io_ok ?s => s end in
  first
  [ done
  | by eapply (io_armed s Hio)
  | by eapply (io_idle s Hio)
  | by eapply (io_stream_bound s Hio)
  | by eapply (io_pending_mask s Hio)
  | by eapply (io_masks s Hio)
  | by eapply (io_request_clean s Hio)
  | by left
  | by right
  | match goal with
    | H : Server.connected s !! _ = Some _ |- _ =>
        destruct (wf_connected s Hwf _ _ H) as (? & ? & ? & ? & ?); congruence
    end ].

Lemma client_add_io_ok fileno client_name s s' :
  Server.client_add fileno client_name s = Ok s' → wf s → io_ok s → io_ok s'.
Proof.
  intros H Hwf Hio. pose proof H as H'.
  apply client_add_effect in H' as (Hc & Hp & H1 & H2 & H3 & H4 & H5 & H6 & H7 & I3 & _).
  apply client_add_io in H as (I1 & I2 & _).
  pose proof (fresh_object s) as Hfresh. revert H1 H2 H5 Hfresh.
  generalize (fresh (dom (Server.objects s))). intros o H1 H2 H5 Ho.
  pose proof (io_desc_ok s Hwf Hio) as Hdesc.
  pose proof (desc_ok_bind _ _ _ _ _ _ fileno Hdesc Hp) as Hdesc'.
  constructor; rewrite ?I1, ?I2, ?I3, ?H1, ?H5, ?H6, ?H7.
  2-5: rewrite ?dom_insert_L; desc_goals Hdesc'.
  all: clear Hdesc Hdesc'.
  1-3: apply Hio.
  - intros f [Hf Hne]%elem_of_difference. io_auto Hwf Hio.
  - intros f o' c' Hf Ho' Hs. map_cases; io_auto Hwf Hio.
  - intros f o' c' Hz Hf Ho' Hs. map_cases; io_auto Hwf Hio.
  - intros o' c' Ho'. map_cases; io_auto Hwf Hio.
Qed.

Lemma client_restore_io_ok fileno client_name s s' :
  Server.client_restore fileno client_name s = Ok s' → wf s → io_ok s → io_ok s'.
Proof.
  intros H Hwf Hio. pose proof H as H'.
  apply client_restore_effect in H'
    as (o & c & Hl & Ho & Hc & Hp & H1 & H2 & H3 & H4 & H5 & H6 & H7 & H8 & _).
  apply client_restore_io in H as (I1 & I2 & _ & o' & c' & Hl' & Ho' & I3).
  rewrite Hl in Hl'. injection Hl' as <-. rewrite Ho in Ho'. injection Ho' as <-.
  destruct (io_open_facts s fileno Hwf Hio Hc) as (Hne & [m Hm] & _ & _).
  pose proof (io_desc_ok s Hwf Hio) as Hdesc.
  pose proof (desc_ok_bind _ _ _ _ _ _ fileno Hdesc Hp) as Hdesc'.
  assert (∀ f o', Server.connected s !! f = Some o' → o' ≠ o) as Hother.
  { intros f o' Hf ->. wf_sat Hwf; congruence. }
  assert (dom (Server.epoll s') = dom (Server.epoll s)) as Hdom.
  { rewrite I3. case_decide; [done|]. by apply dom_insert_lookup_L. }
  constructor; rewrite ?I1, ?I2, ?Hdom, ?H1, ?H5, ?H6, ?H7.
  2-5: rewrite ?dom_insert_L; desc_goals Hdesc'.
  all: clear Hdesc Hdesc' Hdom; rewrite ?I3.
  - case_decide; [apply Hio|]. rewrite lookup_insert_ne by done. apply Hio.
  - apply Hio.
  - intros f m' Hm'. case_decide; map_cases; io_auto Hwf Hio.
  - intros f [Hf Hnf]%elem_of_difference.
    case_decide; [io_auto Hwf Hio|].
    rewrite lookup_insert_ne by set_solver. io_auto Hwf Hio.
  - intros f o' c' Hf Ho' Hs. map_cases; srv_simpl_all.
    + rewrite decide_False by done. apply lookup_insert_eq.
    + by destruct (Hother _ _ Hf).
    + case_decide; [io_auto Hwf Hio|].
      rewrite lookup_insert_ne by done. io_auto Hwf Hio.
  - intros f o' c' Hz Hf Ho' Hs. map_cases; srv_simpl_all.
    + rewrite decide_True by done. io_auto Hwf Hio.
    + by destruct (Hother _ _ Hf).
    + case_decide; [io_auto Hwf Hio|].
      rewrite lookup_insert_ne by done. io_auto Hwf Hio.
  - intros o' c' Ho'. map_cases; srv_simpl; io_auto Hwf Hio.
Qed.

Lemma add_message_bound message c :
  len (Client.message_stream c) < Client.MAX_STREAM_SIZE →
  len (Client.message_stream (Client.add_message message c).2) < Client.MAX_STREAM_SIZE.
Proof.
  intros Hc. rewrite add_message_spec.
  destruct (Z.ltb_spec (len (Client.message_stream c) + len message) Client.MAX_STREAM_SIZE);
    simpl; [|done].
  unfold len in *. rewrite length_app. lia.
Qed.

Lemma len_nil_iff {A} (l : list A) : len l = 0 ↔ l = [].
Proof. unfold len. destruct l; simpl; split; (done || lia). Qed.

(** The test of the fan-out on a subscriber whose stream was empty holds
    exactly when the stream is not empty afterwards. *)
Lemma add_message_first message c :
  message ≠ [] → Client.message_stream c = [] →
  ((Client.add_message message c).1 = len message ↔
   Client.message_stream (Client.add_message message c).2 ≠ []).
Proof.
  intros Hm Hc. rewrite add_message_spec, Hc.
  assert (len message ≠ 0) by (by rewrite len_nil_iff).
  destruct (Z.ltb_spec (len (@nil byte) + len message) Client.MAX_STREAM_SIZE); simpl.
  - split; [|done]. intros _. by destruct message.
  - rewrite Hc. change (len (@nil byte)) with 0. split; [lia|done].
Qed.

Lemma add_message_nonempty message c :
  Client.message_stream c ≠ [] →
  Client.message_stream (Client.add_message message c).2 ≠ [].
Proof.
  intros Hc. destruct (add_message_prefix message c) as [k ->].
  by destruct (Client.message_stream c).
Qed.

Lemma publish_to_io_ok message client s s' :
  Server.publish_to message client s = Ok s' →
  message ≠ [] → live s client → wf s → io_ok s → io_ok s'.
Proof.
  intros H Hm Hlive Hwf Hio. pose proof H as H'.
  apply publish_to_effect in H' as (c & Hc & H5 & H1 & H2 & H3 & H4 & H6 & H7 & I2 & H8).
  apply publish_to_io in H as (I1 & _ & c0 & Hc0 & I3).
  rewrite Hc in Hc0. injection Hc0 as <-.
  pose proof (io_desc_ok s Hwf Hio) as Hdesc.
  assert (∀ f, Server.connected s !! f = Some client → Client.fileno c = f) as Hown.
  { intros f Hf. destruct (wf_connected s Hwf _ _ Hf) as (? & ? & ? & _). congruence. }
  assert (∀ f o, f ≠ 0 → Server.connected s !! f = Some o → o ≠ client →
                 Client.fileno c ≠ f) as Hother.
  { intros f o Hz Hf Hne <-. destruct Hlive as [[f' Hf']|[n Hn]].
    - rewrite (Hown _ Hf') in Hf. congruence.
    - destruct (wf_temp_lost s Hwf _ _ Hn) as (? & ? & _ & _ & _ & ? & _). congruence. }
  constructor; rewrite ?I1, ?I2, ?H8, ?H1, ?H5, ?H6, ?H7.
  2-5: desc_goals Hdesc.
  all: clear Hdesc H8; rewrite ?I3.
  - case_decide as Hd; [|apply Hio]. destruct Hd as [_ [o Ho]].
    destruct (io_open_facts s _ Hwf Hio (io_bound_open s _ _ Hwf Ho)) as [Hne _].
    rewrite lookup_insert_ne by done. apply Hio.
  - apply Hio.
  - intros f m' Hm'. case_decide; map_cases; io_auto Hwf Hio.
  - intros f Hf. case_decide as Hd; [|io_auto Hwf Hio]. destruct Hd as [_ [o Ho]].
    destruct (io_open_facts s _ Hwf Hio (io_bound_open s _ _ Hwf Ho)) as (_ & _ & _ & Hpb).
    rewrite lookup_insert_ne; [io_auto Hwf Hio|]. intros <-.
    destruct Hpb as [[_ ?]|[? _]]; [congruence|done].
  - intros f o c' Hf Ho Hs. apply lookup_insert_Some in Ho as [[<- <-]|[Hne Ho]].
    + rewrite (Hown _ Hf) in *. case_decide as Hd; [apply lookup_insert_eq|].
      eapply (io_armed s Hio); [done..|]. intros Hempty. apply Hd.
      split; [|by eexists]. by apply add_message_first.
    + pose proof (io_armed s Hio _ _ _ Hf Ho Hs).
      case_decide; [|done]. lookup_cases; done.
  - intros f o c' Hz Hf Ho Hs. apply lookup_insert_Some in Ho as [[<- <-]|[Hne Ho]].
    + assert (Client.message_stream c = []) as Hempty.
      { destruct (Client.message_stream c) eqn:E; [done|].
        exfalso. eapply add_message_nonempty; [|done]. by rewrite E. }
      rewrite decide_False; [by eapply (io_idle s Hio)|].
      intros [Hsz _]. by apply (add_message_first message c Hm Hempty) in Hsz.
    + pose proof (io_idle s Hio _ _ _ Hz Hf Ho Hs).
      case_decide; [|done]. rewrite lookup_insert_ne; [done|]. by eapply Hother.
  - intros o c' Ho. apply lookup_insert_Some in Ho as [[<- <-]|[Hne Ho]].
    + apply add_message_bound. by eapply (io_stream_bound s Hio).
    + by eapply (io_stream_bound s Hio).
Qed.

Lemma send_message_chunk_io_ok fileno s s' :
  Server.send_message_chunk fileno s = Ok s' → wf s → io_ok s → io_ok s'.
Proof.
  intros H Hwf Hio. pose proof H as H'.
  apply send_message_chunk_effect in H'
    as (o & c & Hf & Hc & _ & H1 & H2 & H3 & H4 & H6 & H7 & I2 & H8).
  apply send_message_chunk_io in H as (I1 & _ & o0 & c0 & Hf0 & Hc0 & H5 & I3 & _).
  rewrite Hf in Hf0. injection Hf0 as <-. rewrite Hc in Hc0. injection Hc0 as <-.
  pose proof (io_desc_ok s Hwf Hio) as Hdesc.
  assert (∀ f, Server.connected s !! f = Some o → f = fileno) as Hown.
  { intros f Hf'. destruct (wf_connected s Hwf _ _ Hf') as (? & ? & ? & _).
    destruct (wf_connected s Hwf _ _ Hf) as (? & ? & ? & _). congruence. }
  destruct (io_open_facts s _ Hwf Hio (io_bound_open s _ _ Hwf Hf)) as [Hne _].
  constructor; rewrite ?I1, ?I2, ?H8, ?H1, ?H5, ?H6, ?H7.
  2-5: desc_goals Hdesc.
  all: clear Hdesc H8; rewrite ?I3.
  - case_decide; [|apply Hio]. rewrite lookup_insert_ne by done. apply Hio.
  - apply Hio.
  - intros f m' Hm'. case_decide; map_cases; io_auto Hwf Hio.
  - intros f Hp. case_decide; [|io_auto Hwf Hio]. lookup_cases; io_auto Hwf Hio.
  - intros f o' c' Hf' Ho' Hs. apply lookup_insert_Some in Ho' as [[<- <-]|[Hno Ho']].
    + srv_simpl_all. rewrite decide_False by done.
      eapply (io_armed s Hio); [done..|]. intros E. rewrite E in Hs. by rewrite drop_nil in Hs.
    + pose proof (io_armed s Hio _ _ _ Hf' Ho' Hs).
      case_decide; [|done]. rewrite lookup_insert_ne; [done|]. intros <-. congruence.
  - intros f o' c' Hz Hf' Ho' Hs. apply lookup_insert_Some in Ho' as [[<- <-]|[Hno Ho']].
    + srv_simpl_all. rewrite decide_True by done. rewrite (Hown _ Hf').
      apply lookup_insert_eq.
    + pose proof (io_idle s Hio _ _ _ Hz Hf' Ho' Hs).
      case_decide; [|done]. rewrite lookup_insert_ne; [done|]. intros <-. congruence.
  - intros o' c' Ho'. apply lookup_insert_Some in Ho' as [[<- <-]|[Hno Ho']].
    + srv_simpl. pose proof (io_stream_bound s Hio _ _ Hc). unfold len in *.
      rewrite length_drop. lia.
    + by eapply (io_stream_bound s Hio).
Qed.

Lemma for_each_preserves_in {A S} (P : S → Prop) (body : A → S → result S) l s s' :
  (∀ x s s', x ∈ l → body x s = Ok s' → P s → P s') →
  for_each l body s = Ok s' → P s → P s'.
Proof.
  revert s. induction l as [|x l IH]; intros s Hbody H Hs.
  - simpl in H. by simplify_eq.
  - simpl in H. apply bind_Ok in H as (s1 & H1 & H).
    eapply IH; [|done|].
    + intros y s2 s3 Hy. apply Hbody. by right.
    + eapply Hbody; [by left|done..].
Qed.

Lemma process_publish_io_ok topic data s s' :
  Server.process_publish topic data s = Ok s' → wf s → io_ok s → io_ok s'.
Proof.
  unfold Server.process_publish. intros H Hwf Hio. ok_inv H; [|by subst].
  rename g into subscribers.
  cut (wf s' ∧ io_ok s' ∧ Server.connected s' = Server.connected s ∧
       Server.temp_lost s' = Server.temp_lost s); [tauto|].
  eapply (for_each_preserves_in
            (λ s1, wf s1 ∧ io_ok s1 ∧ Server.connected s1 = Server.connected s ∧
                   Server.temp_lost s1 = Server.temp_lost s)); [|done..].
  intros o s1 s2 Hin%elem_of_elements H1 (Hwf1 & Hio1 & Ec & El).
  pose proof (publish_to_wf _ _ _ _ H1 Hwf1) as Hwf2.
  split; [done|]. split.
  - eapply publish_to_io_ok; [done| | |done..].
    + by destruct (encode _).
    + destruct (wf_topics_sound s Hwf _ _ _ Heqo Hin) as [Hl _].
      unfold live. by rewrite Ec, El.
  - apply publish_to_effect in H1 as (c & _ & _ & E1 & _ & E3 & _). split; congruence.
Qed.

Lemma process_subscribe_io_ok fileno topic s s' :
  Server.process_subscribe fileno topic s = Ok s' → io_ok s → io_ok s'.
Proof.
  intros H Hio.
  apply process_subscribe_effect in H as (_ & o & c & Hf & Hc & Hs' & H).
  eapply (io_ok_same s); try (by rewrite Hs'); [|done].
  case_decide; destruct H as [Eo _].
  - by apply streams_from_same.
  - by eapply streams_from_insert.
Qed.

Lemma process_unsubscribe_io_ok fileno topic s s' :
  Server.process_unsubscribe fileno topic s = Ok s' → io_ok s → io_ok s'.
Proof.
  intros H Hio.
  apply process_unsubscribe_effect in H as (_ & o & c & Hf & Hc & Hs' & H).
  eapply (io_ok_same s); try (by rewrite Hs'); [|done].
  case_decide; destruct H as [Eo _].
  - by eapply streams_from_insert.
  - by apply streams_from_same.
Qed.

Lemma connection_send_io_ok fileno data s s' :
  Server.connection_send fileno data s = Ok s' → io_ok s → io_ok s'.
Proof.
  intros [_ ->]%connection_send_effect Hio.
  eapply (io_ok_same s); try done. by apply streams_from_same.
Qed.

Lemma pending_unbound s fileno :
  wf s → fileno ∈ Server.pending s → fileno ∉ dom (Server.connected s).
Proof. intros Hwf Hp. eapply conn_ok_pending_unbound; [by apply wf_conn_ok|done]. Qed.

Lemma process_connect_io_ok fileno client_name s s' :
  Server.process_connect fileno client_name s = Ok s' →
  fileno ∈ Server.pending s → wf s → io_ok s → io_ok s'.
Proof.
  unfold Server.process_connect. intros H Hp Hwf Hio. ok_inv H.
  - pose proof (connection_send_io_ok _ _ _ _ E Hio) as Hio1.
    apply connection_send_effect in E as [_ ->].
    eapply connection_remove_io_ok; [done| | |done].
    + srv_simpl. by apply pending_unbound.
    + by apply (wf_same s).
  - by eapply client_restore_io_ok.
  - by eapply client_add_io_ok.
Qed.

Lemma process_command_io_ok fileno command arg1 data s s' :
  Server.process_command fileno command arg1 data s = Ok s' → wf s → io_ok s → io_ok s'.
Proof.
  unfold Server.process_command, Server.process_disconect, getitem.
  intros H Hwf Hio. ok_inv H.
  - by eapply process_connect_io_ok.
  - eapply connection_remove_io_ok; [done| |done..]. by apply pending_unbound.
  - by eapply client_remove_io_ok.
  - by eapply process_publish_io_ok.
  - by eapply process_subscribe_io_ok.
  - by eapply process_unsubscribe_io_ok.
  - by subst.
Qed.

Lemma process_message_io_ok fileno bin_msg s s' :
  Server.process_message fileno bin_msg s = Ok s' → wf s → io_ok s → io_ok s'.
Proof.
  unfold Server.process_message. intros H Hwf Hio.
  destruct (parse_message bin_msg) as [[[command arg1] data]|]; [|by simplify_eq].
  by eapply process_command_io_ok.
Qed.

(** What the framer leaves in the buffer has no delimiter in it and is
    within [MAX_REQUEST_SIZE]. *)
Lemma frame_extract_clean request chunk :
  contains_EOM (frame_extract request chunk).1 = false ∧
  len (frame_extract request chunk).1 ≤ MAX_REQUEST_SIZE.
Proof.
  unfold frame_extract.
  destruct (Z.ltb_spec MAX_REQUEST_SIZE (len (request ++ chunk))) as [|Hle]; [done|].
  destruct (contains_EOM (request ++ chunk)) eqn:Hc; [|done].
  destruct (endswith_EOM (request ++ chunk)); [done|].
  cbn [pop_last fst]. split; [apply last_split_EOM_clean|].
  pose proof (last_split_EOM_length (request ++ chunk)). unfold len in *. lia.
Qed.

Lemma receive_request_chunk_io_ok fileno request_chunk now s s' :
  Server.receive_request_chunk fileno request_chunk now s = Ok s' →
  wf s → io_ok s → io_ok s'.
Proof.
  unfold Server.receive_request_chunk, getitem. intros H Hwf Hio. ok_inv H.
  - by eapply client_lost_io_ok.
  - eapply connection_remove_io_ok; [done| |done..]. by apply pending_unbound.
  - cut (wf s' ∧ io_ok s'); [tauto|].
    eapply (for_each_preserves (λ s1, wf s1 ∧ io_ok s1)); [|done|].
    + intros m s1 s2 H1 [Hwf1 Hio1]. split.
      * by eapply process_message_wf.
      * by eapply process_message_io_ok.
    + split; [by apply (wf_same s)|].
      pose proof (frame_extract_clean r request_chunk) as Hclean.
      rewrite Heqp in Hclean. cbn [fst] in Hclean.
      destruct Hio. constructor; srv_simpl; try done.
      * rewrite dom_insert_lookup_L; [done|]. by eexists.
      * intros f r' Hr'. apply lookup_insert_Some in Hr' as [[<- <-]|[? Hr']]; [|eauto].
        apply Hclean.
Qed.

Lemma dispatch_io_ok r s s' : Server.dispatch r s = Ok s' → wf s → io_ok s → io_ok s'.
Proof.
  unfold Server.dispatch. intros H Hwf Hio. ok_inv H.
  - by eapply connection_register_io_ok.
  - by eapply receive_request_chunk_io_ok.
  - by eapply send_message_chunk_io_ok.
  - by subst.
Qed.

Lemma clients_remove_dead_io_ok now s s' :
  Server.clients_remove_dead now s = Ok s' → wf s → io_ok s → io_ok s'.
Proof.
  unfold Server.clients_remove_dead. intros H Hwf Hio.
  apply bind_Ok in H as (R & HR & H).
  cut (wf s' ∧ io_ok s' ∧ Server.temp_lost s' ⊆ Server.temp_lost s); [tauto|].
  pose proof (remove_list_spec _ _ _ HR) as HR'.
  revert H. generalize (NoDup_elements R).
  assert (∀ o, o ∈ elements R → ∃ n, Server.temp_lost s !! n = Some o) as Hl.
  { intros o (n & c & Hn & _)%elem_of_elements%HR'. eauto. }
  clear HR HR'. revert s Hwf Hio Hl.
  induction (elements R) as [|o l IH]; intros s Hwf Hio Hl Hnd H.
  - simpl in H. by simplify_eq.
  - cbn [for_each] in H. apply bind_Ok in H as (s1 & H1 & H).
    apply NoDup_cons in Hnd as [Hni Hnd].
    destruct (Hl o) as [n Hn]; [by left|].
    assert (wf s1) as Hwf1.
    { eapply client_remove_wf; [done| |done]. right; eauto. }
    pose proof (client_remove_io_ok _ _ _ H1 Hwf Hio) as Hio1.
    apply client_remove_effect in H1 as (c & Hc & Ho & _ & H1).
    destruct (wf_temp_lost s Hwf _ _ Hn) as (c' & ? & ? & ? & Hflag & ? & ?).
    simplify_eq. rewrite Hflag in H1. destruct H1 as (E1 & E2 & E3 & E6 & E7 & E8).
    destruct (IH s1) as (Hwf' & Hio' & Hsub); try done.
    + intros o' Hin'. destruct (Hl o') as [n' Hn']; [by right|].
      exists n'. rewrite E3. apply lookup_delete_Some. split; [|done].
      intros <-. assert (o' = o) as -> by congruence. done.
    + split_and!; [done..|]. etrans; [done|]. rewrite E3. apply delete_subseteq.
Qed.

Lemma refresh_io_ok time1 time2 s s' :
  Server.refresh time1 time2 s = Ok s' → wf s → io_ok s → io_ok s'.
Proof.
  unfold Server.refresh. intros H Hwf Hio. ok_inv H; [|by subst].
  eapply clients_remove_dead_io_ok; [done| |].
  - by apply (wf_same s).
  - eapply (io_ok_same s); try done. by apply streams_from_same.
Qed.

Lemma server_loop_iteration_io_ok events time1 time2 s s' :
  Server.server_loop_iteration events time1 time2 s = Ok s' →
  wf s → io_ok s → io_ok s'.
Proof.
  unfold Server.server_loop_iteration. intros H Hwf Hio.
  apply bind_Ok in H as (s1 & H1 & H).
  assert (wf s1 ∧ io_ok s1) as [Hwf1 Hio1].
  { eapply (for_each_preserves (λ s1, wf s1 ∧ io_ok s1)); [|done..].
    intros r s2 s3 H2 [Hwf2 Hio2]. split.
    - by eapply dispatch_wf.
    - by eapply dispatch_io_ok. }
  by eapply refresh_io_ok.
Qed.

Lemma init_io_ok listen_fileno now : io_ok (Server.init listen_fileno now).
Proof.
  constructor; simpl.
  all: try (intros; simplify_map_eq; done).
  - rewrite dom_singleton_L. set_solver.
  - intros f m [<- <-]%lookup_singleton_Some. by left.
Qed.

(** Every state in which the loop starts an iteration has its
    descriptors, buffers and event masks in order. *)
Lemma reachable_io_ok s : reachable s → io_ok s.
Proof.
  induction 1 as [|s events time1 time2 s' Hs IH H].
  - apply init_io_ok.
  - eapply server_loop_iteration_io_ok; [done| |done]. by apply reachable_wf.
Qed.

(** ** Handlers that return *)

Lemma connection_remove_total fileno s :
  wf s → io_ok s → fileno ∈ Server.connections s →
  ∃ s', Server.connection_remove fileno s = Ok s'.
Proof.
  intros Hwf Hio Hc.
  destruct (io_open_facts s fileno Hwf Hio Hc) as (_ & [m Hm] & [r Hr] & _).
  unfold Server.connection_remove, Server.epoll_unregister, delitem.
  rewrite Hm. cbn [bind]. srv_simpl. rewrite decide_True by done. srv_simpl.
  rewrite Hr. cbn [bind]. eauto.
Qed.

Lemma client_add_total fileno client_name s :
  wf s → fileno ∈ Server.pending s →
  ∃ s', Server.client_add fileno client_name s = Ok s'.
Proof.
  intros Hwf Hp. unfold Server.client_add, Server.connection_send, set_remove.
  srv_simpl. rewrite decide_True by (by apply io_pending_open).
  cbn [bind]. srv_simpl. rewrite decide_True by done. eauto.
Qed.

Lemma client_lost_total fileno now client s :
  wf s → io_ok s → Server.connected s !! fileno = Some client →
  ∃ s', Server.client_lost fileno now s = Ok s'.
Proof.
  intros Hwf Hio Hf.
  destruct (wf_connected s Hwf _ _ Hf) as (c & Hc & _ & _ & Hn).
  pose proof (io_bound_open s _ _ Hwf Hf) as Hopen.
  destruct (io_open_facts s fileno Hwf Hio Hopen) as (_ & [m Hm] & [r Hr] & _).
  unfold Server.client_lost, getitem, delitem, Server.deref.
  unfold Server.connection_remove, Server.epoll_unregister, delitem.
  repeat eval_step ltac:(done). eauto.
Qed.

Lemma client_remove_topics_total client l s :
  NoDup l →
  (∀ topic, topic ∈ l →
     ∃ subscribers, Server.topics s !! topic = Some subscribers ∧ client ∈ subscribers) →
  ∃ s', for_each l (Server.client_remove_topic client) s = Ok s'.
Proof.
  intros Hnd. revert s. induction Hnd as [|topic l Hni Hnd IH]; intros s Hl.
  - by exists s.
  - destruct (Hl topic) as (S & HS & Hin); [by left|].
    assert (∃ s1, Server.client_remove_topic client topic s = Ok s1) as [s1 H1].
    { unfold Server.client_remove_topic, getitem, set_remove. rewrite HS. cbn [bind].
      rewrite decide_True by done. cbn [bind]. case_decide; eauto. }
    cbn [for_each]. rewrite H1. cbn [bind]. apply IH.
    intros t Ht. apply client_remove_topic_effect in H1 as (_ & S' & _ & _ & Hlook).
    rewrite Hlook. rewrite decide_False by (intros ->; done).
    apply Hl. by right.
Qed.

Lemma client_remove_total client s :
  wf s → io_ok s → live s client →
  ∃ s', Server.client_remove client s = Ok s'.
Proof.
  intros Hwf Hio Hlive.
  assert (∃ c, Server.objects s !! client = Some c) as [c Hc].
  { destruct Hlive as [[f Hf]|[n Hn]].
    - destruct (wf_connected s Hwf _ _ Hf) as (c & ? & _). eauto.
    - destruct (wf_temp_lost s Hwf _ _ Hn) as (c & ? & _). eauto. }
  assert (∀ s0, Server.topics s0 = Server.topics s →
            ∃ s1, for_each (elements (Client.topics c))
                    (Server.client_remove_topic client) s0 = Ok s1 ∧
                  Server.connections s1 = Server.connections s0 ∧
                  Server.epoll s1 = Server.epoll s0 ∧
                  Server.requests s1 = Server.requests s0 ∧
                  Server.pending s1 = Server.pending s0) as Hloop.
  { intros s0 E.
    destruct (client_remove_topics_total client (elements (Client.topics c)) s0)
      as [s1 H1]; [apply NoDup_elements| |].
    - intros t Ht%elem_of_elements. rewrite E. by eapply (wf_topics_complete s Hwf).
    - exists s1. split; [done|].
      apply client_remove_topics_effect in H1 as [-> _]; [done|apply NoDup_elements]. }
  unfold Server.client_remove, Server.deref, delitem. rewrite Hc. cbn [bind].
  destruct Hlive as [[f Hf]|[n Hn]].
  - destruct (wf_connected s Hwf _ _ Hf) as (c' & Hc' & <- & Hflag & Hname).
    rewrite Hc in Hc'. injection Hc' as <-. rewrite Hflag, Hf. cbn [bind]. srv_simpl.
    rewrite Hname. cbn [bind].
    edestruct Hloop as (s1 & -> & E1 & E2 & E3 & E4); [by srv_simpl|]. cbn [bind].
    pose proof (io_bound_open s _ _ Hwf Hf) as Hopen.
    destruct (io_open_facts s _ Hwf Hio Hopen) as (_ & [m Hm] & [r Hr] & _).
    unfold Server.connection_remove, Server.epoll_unregister, delitem.
    srv_simpl_all. rewrite E2, Hm. cbn [bind]. srv_simpl. rewrite E1.
    rewrite decide_True by done. srv_simpl. rewrite E3, Hr. cbn [bind]. eauto.
  - destruct (wf_temp_lost s Hwf _ _ Hn) as (c' & Hc' & <- & _ & Hflag & _).
    rewrite Hc in Hc'. injection Hc' as <-. rewrite Hflag, Hn. cbn [bind].
    edestruct Hloop as (s1 & -> & _); [by srv_simpl|]. cbn [bind]. eauto.
Qed.

Lemma process_subscribe_total fileno topic client s :
  wf s → topic ≠ EmptyString → Server.connected s !! fileno = Some client →
  ∃ s', Server.process_subscribe fileno topic s = Ok s'.
Proof.
  intros Hwf Ht Hf. destruct (wf_connected s Hwf _ _ Hf) as (c & Hc & _).
  unfold Server.process_subscribe, getitem, Server.deref.
  rewrite decide_False by done. rewrite Hf. cbn [bind]. rewrite Hc. cbn [bind].
  destruct (Client.subscribe topic c) as [[] c']; srv_simpl; [|eauto].
  destruct (Server.topics s !! topic); eauto.
Qed.

Lemma process_unsubscribe_total fileno topic client s :
  wf s → topic ≠ EmptyString → Server.connected s !! fileno = Some client →
  ∃ s', Server.process_unsubscribe fileno topic s = Ok s'.
Proof.
  intros Hwf Ht Hf. destruct (wf_connected s Hwf _ _ Hf) as (c & Hc & _).
  unfold Server.process_unsubscribe, getitem, Server.deref, Client.unsubscribe.
  rewrite decide_False by done. rewrite Hf. cbn [bind]. rewrite Hc. cbn [bind].
  destruct (decide (topic ∈ Client.topics c)) as [Hin|Hin]; srv_simpl; [|eauto].
  destruct (wf_topics_complete s Hwf client c topic) as (S & HS & HinS); [left; eauto|done..|].
  unfold Server.client_remove_topic, getitem, set_remove. srv_simpl.
  rewrite HS. cbn [bind]. rewrite decide_True by done. cbn [bind]. case_decide; eauto.
Qed.

Lemma send_message_chunk_total fileno client s :
  wf s → io_ok s → Server.connected s !! fileno = Some client →
  ∃ s', Server.send_message_chunk fileno s = Ok s'.
Proof.
  intros Hwf Hio Hf. destruct (wf_connected s Hwf _ _ Hf) as (c & Hc & _).
  pose proof (io_bound_open s _ _ Hwf Hf) as Hopen.
  destruct (io_open_facts s _ Hwf Hio Hopen) as (_ & [m Hm] & _).
  pose proof (get_message_chunk_spec BUFFER_SIZE c BUFFER_SIZE_nonneg) as Hspec.
  unfold Server.send_message_chunk, getitem, Server.deref.
  rewrite Hf. cbn [bind]. rewrite Hc. cbn [bind].
  destruct (Client.get_message_chunk BUFFER_SIZE c) as [[msg_chunk remaining] c'].
  destruct Hspec as (_ & Hlen & _). srv_simpl.
  rewrite decide_True by lia.
  unfold Server.connection_send. srv_simpl. rewrite decide_True by done. cbn [bind].
  case_decide; [|eauto]. unfold Server.epoll_modify. srv_simpl. rewrite Hm. eauto.
Qed.

Lemma process_publish_total topic data s :
  wf s → topic ≠ EmptyString → ∃ s', Server.process_publish topic data s = Ok s'.
Proof.
  intros Hwf Ht. unfold Server.process_publish. rewrite decide_False by done.
  destruct (Server.topics s !! topic) as [subscribers|] eqn:HS; [|eauto].
  destruct (publish_loop (encode (topic +:+ " " +:+ data) ++ EOM) (elements subscribers) s)
    as (s' & H & _); [apply NoDup_elements|done| |eauto].
  intros o Hin%elem_of_elements.
  destruct (wf_topics_sound s Hwf _ _ _ HS Hin) as (_ & c & -> & _). by eexists.
Qed.

Lemma process_connect_total fileno client_name s :
  wf s → io_ok s → fileno ∈ Server.pending s → client_name ≠ EmptyString →
  ∃ s', Server.process_connect fileno client_name s = Ok s'.
Proof.
  intros Hwf Hio Hp Hn. pose proof (io_pending_open s _ Hwf Hp) as Hopen.
  unfold Server.process_connect. rewrite decide_False by done.
  case_decide as Htaken.
  - unfold Server.connection_send. rewrite decide_True by done. cbn [bind].
    apply connection_remove_total; [by apply (wf_same s)| |done].
    eapply (io_ok_same s); try done. by apply streams_from_same.
  - case_decide as Hlost.
    + destruct Hlost as [client Hl].
      destruct (wf_temp_lost s Hwf _ _ Hl) as (c & Hc & _).
      destruct (io_open_facts s _ Hwf Hio Hopen) as (_ & Hm & _).
      by eapply client_restore_total.
    + by apply client_add_total.
Qed.

(** A command of an open connection is carried out: no handler raises. *)
Lemma process_command_total fileno command arg1 data s :
  wf s → io_ok s → fileno ∈ Server.connections s →
  ∃ s', Server.process_command fileno command arg1 data s = Ok s'.
Proof.
  intros Hwf Hio Hopen.
  destruct (io_open_facts s _ Hwf Hio Hopen) as (_ & _ & _ & [[Hp _]|[Hp [client Hf]]]).
  - unfold Server.process_command. rewrite decide_True by done.
    case_decide as Hc.
    + destruct Hc. by apply process_connect_total.
    + by apply connection_remove_total.
  - unfold Server.process_command. rewrite decide_False by done.
    case_decide.
    { unfold Server.process_disconect, getitem. rewrite Hf. cbn [bind].
      apply client_remove_total; [done..|]. left; eauto. }
    case_decide as Hc; [destruct Hc; by apply process_publish_total|].
    case_decide as Hc'; [destruct Hc'; by eapply process_subscribe_total|].
    case_decide as Hc''; [destruct Hc''; by eapply process_unsubscribe_total|].
    eauto.
Qed.

Lemma process_message_total fileno bin_msg s :
  wf s → io_ok s → fileno ∈ Server.connections s →
  ∃ s', Server.process_message fileno bin_msg s = Ok s'.
Proof.
  intros Hwf Hio Hopen. unfold Server.process_message.
  destruct (parse_message bin_msg) as [[[command arg1] data]|]; [|eauto].
  by apply process_command_total.
Qed.

(** ** Event masks, buffers and descriptors between two iterations *)

Lemma one_pending_reachable : reachable one_pending.
Proof.
  apply (run_reachable one_pending_script boot); [|apply boot_reachable].
  vm_compute. reflexivity.
Qed.

(** X1: between two iterations of the loop, the descriptor of a connected
    client with something in its stream is registered for reading and
    writing, and the descriptor of one with an empty stream for reading
    only (descriptor 0 apart); pending connections and the listening
    socket are registered for reading only; and nothing is registered
    with another event mask. *)
Theorem write_interest_follows_stream s :
  reachable s →
  (∀ fileno client c,
     Server.connected s !! fileno = Some client →
     Server.objects s !! client = Some c →
     (Client.message_stream c ≠ [] → Server.epoll s !! fileno = Some READ_WRITE) ∧
     (Client.message_stream c = [] → fileno ≠ 0 →
        Server.epoll s !! fileno = Some EPOLLIN)) ∧
  (∀ fileno, fileno ∈ Server.pending s → Server.epoll s !! fileno = Some EPOLLIN) ∧
  Server.epoll s !! Server.socket_fileno s = Some EPOLLIN ∧
  (∀ fileno eventmask,
     Server.epoll s !! fileno = Some eventmask →
     eventmask = EPOLLIN ∨ eventmask = READ_WRITE).
Proof.
  intros Hs. pose proof (reachable_io_ok s Hs) as Hio. split_and!.
  - intros f o c Hf Ho. split.
    + by apply (io_armed s Hio f o c).
    + intros He Hz. by apply (io_idle s Hio f o c).
  - apply Hio.
  - apply Hio.
  - apply Hio.
Qed.

Lemma write_interest_follows_stream_witness :
  Server.epoll two_clients !! 6 = Some EPOLLIN ∧
  Server.epoll two_clients !! 3 = Some EPOLLIN.
Proof.
  destruct (write_interest_follows_stream two_clients two_clients_reachable)
    as (Hc & _ & Hl & _).
  split; [|exact Hl].
  destruct (Hc 6 2%positive
              {| Client.name := "bob"; Client.fileno := 6; Client.connected := true;
                 Client.lost_time := 0 # 1; Client.message_stream := [];
                 Client.topics := {["weather"; "sports"]} |}) as [_ Hidle].
  - vm_compute. reflexivity.
  - vm_compute. reflexivity.
  - apply Hidle; [reflexivity|discriminate].
Defined.

(** X2: between two iterations of the loop, the connections that have a
    request buffer are the open ones, and a request buffer holds no
    complete delimiter and at most [MAX_REQUEST_SIZE] octets. *)
Theorem request_buffers_bounded s :
  reachable s →
  dom (Server.requests s) = Server.connections s ∧
  ∀ fileno request,
    Server.requests s !! fileno = Some request →
    contains_EOM request = false ∧ len request ≤ MAX_REQUEST_SIZE.
Proof.
  intros Hs. pose proof (reachable_io_ok s Hs) as Hio. split; apply Hio.
Qed.

Lemma request_buffers_bounded_witness :
  dom (Server.requests two_clients) = Server.connections two_clients.
Proof. apply (request_buffers_bounded two_clients), two_clients_reachable. Defined.

(** X3: between two iterations of the loop, the stream of every Client
    object is shorter than [MAX_STREAM_SIZE]: it never holds 10240
    octets. *)
Theorem streams_below_cap s client c :
  reachable s →
  Server.objects s !! client = Some c →
  len (Client.message_stream c) < Client.MAX_STREAM_SIZE.
Proof.
  intros Hs Hc. by apply (io_stream_bound s (reachable_io_ok s Hs) client).
Qed.

Lemma streams_below_cap_witness :
  len (Client.message_stream bob_record) < Client.MAX_STREAM_SIZE.
Proof.
  apply (streams_below_cap bob_returns 2%positive bob_record).
  - apply bob_returns_reachable.
  - vm_compute. reflexivity.
Defined.

(** X4: between two iterations of the loop, every open connection is
    either pending or bound to a connected client, never both, and what
    is registered with epoll is the listening socket and the open
    connections, the listening socket not being one of them. *)
Theorem descriptors_partitioned s :
  reachable s →
  Server.connections s = Server.pending s ∪ dom (Server.connected s) ∧
  Server.pending s ## dom (Server.connected s) ∧
  dom (Server.epoll s) = {[Server.socket_fileno s]} ∪ Server.connections s ∧
  Server.socket_fileno s ∉ Server.connections s.
Proof.
  intros Hs. pose proof (reachable_io_ok s Hs) as Hio.
  pose proof (reachable_wf s Hs) as Hwf. split_and!; (apply Hio || apply Hwf).
Qed.

Lemma descriptors_partitioned_witness :
  Server.connections bob_returns =
    Server.pending bob_returns ∪ dom (Server.connected bob_returns).
Proof. apply (descriptors_partitioned bob_returns), bob_returns_reachable. Defined.

(** ** A chunk that ends the server *)

(** A chunk that completes at most one message, or the end of the
    stream, on an open connection of a well-formed state. *)
Lemma receive_request_chunk_total s fileno request request_chunk now :
  wf s → io_ok s →
  fileno ∈ Server.connections s →
  Server.requests s !! fileno = Some request →
  (length (frame_extract request request_chunk).2 ≤ 1)%nat →
  ∃ s', Server.receive_request_chunk fileno request_chunk now s = Ok s'.
Proof.
  intros Hwf Hio Hopen Hr Hone.
  unfold Server.receive_request_chunk. rewrite decide_True by done.
  destruct (io_open_facts s _ Hwf Hio Hopen) as (_ & _ & _ & Hpb).
  case_decide as Hempty.
  - destruct Hpb as [[Hp Hn]|[Hp [client Hf]]].
    + rewrite decide_False by (rewrite Hn; by intros [? ?]).
      rewrite decide_True by done. by apply connection_remove_total.
    + rewrite decide_True by (by eexists). by eapply client_lost_total.
  - unfold getitem. rewrite Hr. cbn [bind].
    pose proof (frame_extract_clean request request_chunk) as Hclean.
    destruct (frame_extract request request_chunk) as [request' bin_msg_list].
    cbn [fst snd] in *.
    set (s1 := Server.set_requests _ s).
    assert (wf s1) as Hwf1 by (by apply (wf_same s)).
    assert (io_ok s1) as Hio1.
    { destruct Hio. constructor; subst s1; srv_simpl; try done.
      - rewrite dom_insert_lookup_L; [done|]. by eexists.
      - intros f r' Hr'. apply lookup_insert_Some in Hr' as [[<- <-]|[? Hr']]; eauto. }
    destruct bin_msg_list as [|m [|m' l]]; [by exists s1| |simpl in Hone; lia].
    cbn [for_each].
    destruct (process_message_total fileno m s1 Hwf1 Hio1 Hopen) as [s' ->]. by exists s'.
Qed.

(** X5: a peer that has not sent a CONNECT can end the server with one
    chunk.  On a pending connection with an empty buffer, a chunk of at
    most [BUFFER_SIZE] octets with a first message that is decoded and is
    not a CONNECT with a name, followed by DISCONNECT, has the connection
    removed at the first message and the lookup of the connected client
    raise KeyError at the second; nothing catches it. *)
Theorem pipelined_disconnect_raises s fileno bin_msg command arg1 data now :
  reachable s →
  fileno ∈ Server.pending s →
  Server.requests s !! fileno = Some [] →
  contains_EOM bin_msg = false →
  len (frame bin_msg ++ wire "DISCONNECT") ≤ BUFFER_SIZE →
  parse_message bin_msg = Some (command, arg1, data) →
  ¬ (command = "CONNECT" ∧ arg1 ≠ EmptyString) →
  Server.receive_request_chunk fileno (frame bin_msg ++ wire "DISCONNECT") now s =
    Raise KeyError.
Proof.
  intros Hs Hp Hr Hclean Hlen Hparse Hcmd.
  pose proof (reachable_wf s Hs) as Hwf. pose proof (reachable_io_ok s Hs) as Hio.
  pose proof (io_pending_open s _ Hwf Hp) as Hopen.
  unfold Server.receive_request_chunk. rewrite decide_True by done.
  rewrite decide_False by (unfold frame; by destruct bin_msg).
  unfold getitem. rewrite Hr. cbn [bind].
  assert (frame bin_msg ++ wire "DISCONNECT" = frame_all [bin_msg; encode "DISCONNECT"])
    as Hall by (unfold frame_all, wire; cbn [map concat]; by rewrite app_nil_r).
  rewrite frame_extract_split.
  2:{ rewrite app_nil_l. unfold MAX_REQUEST_SIZE, BUFFER_SIZE in *. lia. }
  rewrite app_nil_l, Hall, split_EOM_frame_all by (by repeat constructor).
  rewrite List.last_last, removelast_last. cbn [for_each].
  set (s1 := Server.set_requests _ s).
  assert (wf s1) as Hwf1 by (by apply (wf_same s)).
  assert (io_ok s1) as Hio1.
  { destruct Hio. constructor; subst s1; srv_simpl; try done.
    - rewrite dom_insert_lookup_L; [done|]. by eexists.
    - intros f r' Hr'. apply lookup_insert_Some in Hr' as [[<- <-]|[? Hr']]; eauto. }
  unfold Server.process_message at 1. rewrite Hparse.
  unfold Server.process_command at 1.
  rewrite decide_True by done. rewrite decide_False by done.
  destruct (connection_remove_total fileno s1 Hwf1 Hio1 Hopen) as [s2 H2].
  rewrite H2. cbn [bind].
  apply connection_remove_fields in H2 as (E1 & _ & _ & _ & _ & _ & E7 & _).
  unfold Server.process_message.
  change (parse_message (encode "DISCONNECT")) with (Some ("DISCONNECT", "", "")%string).
  unfold Server.process_command.
  rewrite decide_False by (rewrite E7; set_solver).
  rewrite decide_True by done.
  unfold Server.process_disconect, getitem. rewrite E1. subst s1. srv_simpl.
  destruct (io_open_facts s _ Hwf Hio Hopen) as (_ & _ & _ & [[_ ->]|[? _]]); done.
Qed.

Lemma pipelined_disconnect_raises_witness :
  Server.receive_request_chunk 5 (wire "HELLO" ++ wire "DISCONNECT") (1 # 1) one_pending =
    Raise KeyError.
Proof.
  apply (pipelined_disconnect_raises one_pending 5 (encode "HELLO") "HELLO" "" "").
  - apply one_pending_reachable.
  - vm_compute. reflexivity.
  - vm_compute. reflexivity.
  - vm_compute. reflexivity.
  - vm_compute. discriminate.
  - vm_compute. reflexivity.
  - intros [? _]. discriminate.
Defined.

(** ** What a pending connection is answered *)

(** X6: a CONNECT with a name that a connected client has is answered
    with [ERROR: Name already taken] and the connection is closed; the
    client that has the name, the lost clients and the topics are left as
    they are. *)
Theorem connect_name_taken s fileno client_name data client :
  reachable s →
  fileno ∈ Server.pending s →
  Server.connected_names s !! client_name = Some client →
  ∃ s',
    Server.process_command fileno "CONNECT" client_name data s = Ok s' ∧
    Server.log s' =
      Server.log s ++
      [SockSend fileno (frame (encode "ERROR: Name already taken"));
       EpollUnregister fileno; SockShutdown fileno; SockClose fileno] ∧
    fileno ∉ Server.connections s' ∧
    Server.connected s' = Server.connected s ∧
    Server.connected_names s' = Server.connected_names s ∧
    Server.temp_lost s' = Server.temp_lost s ∧
    Server.topics s' = Server.topics s ∧
    Server.objects s' = Server.objects s.
Proof.
  intros Hs Hp Hn.
  pose proof (reachable_wf s Hs) as Hwf. pose proof (reachable_io_ok s Hs) as Hio.
  destruct (wf_connected_names s Hwf _ _ Hn) as (c & _ & _ & Hne & _).
  destruct (process_command_total fileno "CONNECT" client_name data s Hwf Hio)
    as [s' H]; [by apply io_pending_open|].
  exists s'. split; [done|].
  unfold Server.process_command, Server.process_connect in H.
  rewrite decide_True in H by done. rewrite decide_True in H by done.
  rewrite decide_False in H by done. rewrite decide_True in H by (by eexists).
  apply bind_Ok in H as (s1 & [_ ->]%connection_send_effect & H).
  pose proof H as H'. apply connection_remove_io in H' as (_ & _ & _ & _ & _ & ->).
  apply connection_remove_fields in H as (-> & -> & -> & -> & -> & -> & _).
  srv_simpl. rewrite <- app_assoc. split_and!; try done. set_solver.
Qed.

Lemma connect_name_taken_witness :
  ∃ s', Server.process_command 7 "CONNECT" "alice" "" bob_returns = Ok s' ∧
        7 ∉ Server.connections s'.
Proof.
  destruct (connect_name_taken bob_returns 7 "alice" "" 1%positive)
    as (s' & H & _ & Hc & _).
  - apply bob_returns_reachable.
  - vm_compute. reflexivity.
  - vm_compute. reflexivity.
  - exists s'. split; [exact H|exact Hc].
Defined.

(** X7: a CONNECT with a non-empty name that no connected and no lost
    client has is answered with [OK: Conn accepted]; the connection is
    bound to a new Client object of that name, with an empty stream and no
    subscriptions; nothing else is sent, and the descriptor stays
    registered as it was. *)
Theorem connect_new_name s fileno client_name data :
  reachable s →
  fileno ∈ Server.pending s →
  client_name ≠ EmptyString →
  Server.connected_names s !! client_name = None →
  Server.temp_lost s !! client_name = None →
  ∃ s' client,
    Server.process_command fileno "CONNECT" client_name data s = Ok s' ∧
    Server.log s' = Server.log s ++ [SockSend fileno (frame (encode "OK: Conn accepted"))] ∧
    Server.objects s !! client = None ∧
    Server.objects s' = <[client := Client.init client_name fileno]> (Server.objects s) ∧
    Server.connected s' = <[fileno := client]> (Server.connected s) ∧
    Server.connected_names s' = <[client_name := client]> (Server.connected_names s) ∧
    Server.temp_lost s' = Server.temp_lost s ∧
    Server.topics s' = Server.topics s ∧
    Server.pending s' = Server.pending s ∖ {[fileno]} ∧
    Server.connections s' = Server.connections s ∧
    Server.epoll s' = Server.epoll s.
Proof.
  intros Hs Hp Hne Hn Hl.
  pose proof (reachable_wf s Hs) as Hwf. pose proof (reachable_io_ok s Hs) as Hio.
  destruct (process_command_total fileno "CONNECT" client_name data s Hwf Hio)
    as [s' H]; [by apply io_pending_open|].
  exists s', (fresh (dom (Server.objects s))). split; [done|].
  unfold Server.process_command, Server.process_connect in H.
  rewrite decide_True in H by done. rewrite decide_True in H by done.
  rewrite decide_False in H by done.
  rewrite decide_False in H by (rewrite Hn; by intros [? ?]).
  rewrite decide_False in H by (rewrite Hl; by intros [? ?]).
  apply client_add_effect in H as (_ & _ & -> & -> & -> & -> & -> & -> & -> & -> & ->).
  split_and!; try done. apply fresh_object.
Qed.

Lemma connect_new_name_witness :
  ∃ s' client,
    Server.process_command 7 "CONNECT" "carol" "" bob_returns = Ok s' ∧
    Server.connected s' = <[7 := client]> (Server.connected bob_returns).
Proof.
  destruct (connect_new_name bob_returns 7 "carol" "")
    as (s' & client & H & _ & _ & _ & Hc & _).
  - apply bob_returns_reachable.
  - vm_compute. reflexivity.
  - discriminate.
  - vm_compute. reflexivity.
  - vm_compute. reflexivity.
  - exists s', client. split; [exact H|exact Hc].
Defined.

(** X8: whatever a pending connection sends that is not a CONNECT with a
    name has the connection closed without a reply: the only calls are the
    removal from epoll, the shutdown and the close, and no client and no
    topic is touched. *)
Theorem pending_closed_without_reply s fileno command arg1 data :
  reachable s →
  fileno ∈ Server.pending s →
  ¬ (command = "CONNECT" ∧ arg1 ≠ EmptyString) →
  ∃ s',
    Server.process_command fileno command arg1 data s = Ok s' ∧
    Server.log s' =
      Server.log s ++ [EpollUnregister fileno; SockShutdown fileno; SockClose fileno] ∧
    fileno ∉ Server.connections s' ∧
    Server.requests s' !! fileno = None ∧
    Server.epoll s' !! fileno = None ∧
    Server.connected s' = Server.connected s ∧
    Server.connected_names s' = Server.connected_names s ∧
    Server.temp_lost s' = Server.temp_lost s ∧
    Server.topics s' = Server.topics s ∧
    Server.objects s' = Server.objects s.
Proof.
  intros Hs Hp Hcmd.
  pose proof (reachable_wf s Hs) as Hwf. pose proof (reachable_io_ok s Hs) as Hio.
  destruct (process_command_total fileno command arg1 data s Hwf Hio)
    as [s' H]; [by apply io_pending_open|].
  exists s'. split; [done|].
  unfold Server.process_command in H.
  rewrite decide_True in H by done. rewrite decide_False in H by done.
  pose proof H as H'. apply connection_remove_io in H' as (_ & _ & -> & -> & _ & ->).
  apply connection_remove_fields in H as (-> & -> & -> & -> & -> & -> & _).
  rewrite !lookup_delete_eq. split_and!; try done. set_solver.
Qed.

Lemma pending_closed_without_reply_witness :
  ∃ s', Server.process_command 7 "SUBSCRIBE" "weather" "" bob_returns = Ok s' ∧
        Server.log s' =
          Server.log bob_returns ++ [EpollUnregister 7; SockShutdown 7; SockClose 7].
Proof.
  destruct (pending_closed_without_reply bob_returns 7 "SUBSCRIBE" "weather" "")
    as (s' & H & Hlog & _).
  - apply bob_returns_reachable.
  - vm_compute. reflexivity.
  - intros [? _]. discriminate.
  - exists s'. split; [exact H|exact Hlog].
Defined.

(** ** Leaving *)

(** X9: a DISCONNECT of a connected client removes the client for good:
    its connection is closed without a reply, its name is free again, it
    is in no table and in no entry of the topic index, and an entry that
    held nobody else is gone.  The other clients are left as they are. *)
Theorem disconnect_removes_client s fileno arg1 data client c :
  reachable s →
  Server.connected s !! fileno = Some client →
  Server.objects s !! client = Some c →
  ∃ s',
    Server.process_command fileno "DISCONNECT" arg1 data s = Ok s' ∧
    Server.log s' =
      Server.log s ++ [EpollUnregister fileno; SockShutdown fileno; SockClose fileno] ∧
    Server.connected s' = delete fileno (Server.connected s) ∧
    Server.connected_names s' = delete (Client.name c) (Server.connected_names s) ∧
    Server.temp_lost s' = Server.temp_lost s ∧
    (∀ topic, Server.topics s' !! topic = Server.topics s !! topic ≫= without client) ∧
    ¬ live s' client ∧
    (∀ topic, ¬ indexed s' topic client) ∧
    fileno ∉ Server.connections s' ∧
    Server.objects s' = Server.objects s.
Proof.
  intros Hs Hf Hc.
  pose proof (reachable_wf s Hs) as Hwf. pose proof (reachable_io_ok s Hs) as Hio.
  pose proof (io_bound_open s _ _ Hwf Hf) as Hopen.
  destruct (process_command_total fileno "DISCONNECT" arg1 data s Hwf Hio Hopen) as [s' H].
  exists s'. split; [done|].
  destruct (io_open_facts s _ Hwf Hio Hopen) as (_ & _ & _ & [[_ Hn]|[Hp _]]); [congruence|].
  unfold Server.process_command, Server.process_disconect, getitem in H.
  rewrite decide_False in H by done. rewrite decide_True in H by done.
  rewrite Hf in H. cbn [bind] in H.
  destruct (wf_connected s Hwf _ _ Hf) as (c' & Hc' & Hfd & Hflag & Hname).
  rewrite Hc in Hc'. injection Hc' as <-.
  pose proof H as H'. apply client_remove_io in H' as (_ & _ & c' & Hc' & H').
  rewrite Hc in Hc'. injection Hc' as <-.
  apply client_remove_effect in H as (c' & Hc' & Ho & Ht & H).
  rewrite Hc in Hc'. injection Hc' as <-.
  rewrite Hflag, Hfd in *.
  destruct H as (_ & E1 & E2 & E3 & E6 & _). destruct H' as (_ & _ & _ & Elog).
  assert (∀ t, Server.topics s' !! t = Server.topics s !! t ≫= without client) as Ht'.
  { intros t. rewrite Ht. case_decide; [done|]. symmetry. by eapply without_other. }
  split_and!; try done.
  - intros [[f' Hf']|[n Hn]].
    + rewrite E1 in Hf'. apply lookup_delete_Some in Hf' as [Hne Hf'].
      destruct (wf_connected s Hwf _ _ Hf') as (c' & ? & ? & _). congruence.
    + rewrite E3 in Hn.
      destruct (wf_temp_lost s Hwf _ _ Hn) as (c' & ? & _ & _ & ? & _). congruence.
  - intros t (S & HS & Hin). rewrite Ht' in HS.
    apply bind_Some in HS as (S0 & _ & [-> _]%without_Some). set_solver.
  - rewrite E6. set_solver.
Qed.

Lemma disconnect_removes_client_witness :
  ∃ s', Server.process_command 6 "DISCONNECT" "" "" two_clients = Ok s' ∧
        Server.connected s' = delete 6 (Server.connected two_clients) ∧
        ¬ live s' 2%positive.
Proof.
  destruct (disconnect_removes_client two_clients 6 "" "" 2%positive
              {| Client.name := "bob"; Client.fileno := 6; Client.connected := true;
                 Client.lost_time := 0 # 1; Client.message_stream := [];
                 Client.topics := {["weather"; "sports"]} |})
    as (s' & H & _ & Hc & _ & _ & _ & Hl & _).
  - apply two_clients_reachable.
  - vm_compute. reflexivity.
  - vm_compute. reflexivity.
  - exists s'. split; [exact H|]. split; [exact Hc|exact Hl].
Defined.

(** ** Subscribing and unsubscribing *)

Lemma set_same s :
  Server.set_topics (Server.topics s) (Server.set_objects (Server.objects s) s) = s.
Proof. by destruct s. Qed.

Lemma client_set_topics_same c T :
  T = Client.topics c → Client.set_topics T c = c.
Proof. intros ->. by destruct c. Qed.

Lemma bound_command s fileno client command arg1 data :
  wf s → Server.connected s !! fileno = Some client →
  Server.process_command fileno command arg1 data s =
  if decide (command = "DISCONNECT") then Server.process_disconect fileno s
  else if decide (command = "PUBLISH" ∧ arg1 ≠ "") then Server.process_publish arg1 data s
  else if decide (command = "SUBSCRIBE" ∧ arg1 ≠ "") then Server.process_subscribe fileno arg1 s
  else if decide (command = "UNSUBSCRIBE" ∧ arg1 ≠ "")
  then Server.process_unsubscribe fileno arg1 s
  else Ok s.
Proof.
  intros Hwf Hf. unfold Server.process_command. rewrite decide_False; [done|].
  intros Hp. apply (pending_unbound s fileno Hwf Hp). by apply elem_of_dom_2 in Hf.
Qed.

(** X10: for a connected client, a SUBSCRIBE to a topic it is subscribed
    to and an UNSUBSCRIBE from a topic it is not subscribed to change
    nothing; and a SUBSCRIBE to a new topic followed by the UNSUBSCRIBE
    from it gives back the state before the two, topic index included. *)
Theorem subscribe_unsubscribe_round_trip s fileno topic data client c :
  reachable s →
  Server.connected s !! fileno = Some client →
  Server.objects s !! client = Some c →
  topic ≠ EmptyString →
  (topic ∈ Client.topics c →
     Server.process_command fileno "SUBSCRIBE" topic data s = Ok s) ∧
  (topic ∉ Client.topics c →
     Server.process_command fileno "UNSUBSCRIBE" topic data s = Ok s ∧
     ∃ s1,
       Server.process_command fileno "SUBSCRIBE" topic data s = Ok s1 ∧
       indexed s1 topic client ∧
       Server.process_command fileno "UNSUBSCRIBE" topic data s1 = Ok s).
Proof.
  intros Hs Hf Hc Ht. pose proof (reachable_wf s Hs) as Hwf.
  split; [intros Hin|intros Hni; split].
  - rewrite (bound_command s fileno client) by done.
    rewrite decide_False by done. rewrite decide_False by (by intros [? _]).
    rewrite decide_True by done.
    destruct (process_subscribe_total fileno topic client s Hwf Ht Hf) as [s' H].
    rewrite H. f_equal.
    apply process_subscribe_effect in H as (_ & o & c' & Hf' & Hc' & Es' & H).
    simplify_eq. rewrite decide_True in H by done. destruct H as [Eo Et].
    rewrite Es', Eo, Et. apply set_same.
  - rewrite (bound_command s fileno client) by done.
    rewrite decide_False by done. rewrite decide_False by (by intros [? _]).
    rewrite decide_False by (by intros [? _]). rewrite decide_True by done.
    destruct (process_unsubscribe_total fileno topic client s Hwf Ht Hf) as [s' H].
    rewrite H. f_equal.
    apply process_unsubscribe_effect in H as (_ & o & c' & Hf' & Hc' & Es' & H).
    simplify_eq. rewrite decide_False in H by done. destruct H as [Eo Et].
    rewrite Es', Eo, Et. apply set_same.
  - destruct (process_subscribe_total fileno topic client s Hwf Ht Hf) as [s1 H1].
    pose proof (process_subscribe_wf _ _ _ _ H1 Hwf) as Hwf1.
    exists s1.
    apply process_subscribe_effect in H1 as H1'.
    destruct H1' as (_ & o & c' & Hf' & Hc' & Es1 & H1').
    simplify_eq. rewrite decide_False in H1' by done. destruct H1' as [Eo Et].
    assert (Server.connected s1 !! fileno = Some client) as Hf1 by (by rewrite Es1).
    split_and!.
    + rewrite (bound_command s fileno client) by done.
      rewrite decide_False by done. rewrite decide_False by (by intros [? _]).
      by rewrite decide_True by done.
    + eexists. rewrite Et, lookup_insert_eq. split; [done|set_solver].
    + rewrite (bound_command s1 fileno client) by done.
      rewrite decide_False by done. rewrite decide_False by (by intros [? _]).
      rewrite decide_False by (by intros [? _]). rewrite decide_True by done.
      destruct (process_unsubscribe_total fileno topic client s1 Hwf1 Ht Hf1) as [s2 H2].
      rewrite H2. f_equal.
      apply process_unsubscribe_effect in H2 as (_ & o & c1 & Hf2 & Hc1 & Es2 & H2).
      rewrite Hf1 in Hf2. injection Hf2 as <-.
      rewrite Eo, lookup_insert_eq in Hc1. injection Hc1 as <-.
      rewrite decide_True in H2 by (cbn; set_solver).
      destruct H2 as (Eo2 & S1 & HS1 & _ & Ht2).
      rewrite Et, lookup_insert_eq in HS1. injection HS1 as <-.
      rewrite Es2, Es1. srv_simpl.
      replace (Server.objects s2) with (Server.objects s).
      2:{ rewrite Eo2, Eo, insert_insert_eq. cbn.
          replace ((Client.topics c ∪ {[topic]}) ∖ {[topic]}) with (Client.topics c)
            by set_solver.
          symmetry. apply insert_id. rewrite Hc. f_equal. by destruct c. }
      replace (Server.topics s2) with (Server.topics s); [by destruct s|].
      apply map_eq. intros t. rewrite Ht2. case_decide as Heq.
      * subst t. unfold without.
        destruct (Server.topics s !! topic) as [S0|] eqn:HS0; cbn.
        -- assert (client ∉ S0) as Hno.
           { intros Hin. destruct (wf_topics_sound s Hwf _ _ _ HS0 Hin) as (_ & c0 & ? & ?).
             by simplify_eq. }
           replace ((S0 ∪ {[client]}) ∖ {[client]}) with S0 by set_solver.
           rewrite decide_False; [done|]. intros ->. by apply (wf_topics_nonempty s Hwf topic).
        -- rewrite decide_True; [done|]. set_solver.
      * by rewrite Et, lookup_insert_ne.
Qed.

Lemma subscribe_unsubscribe_round_trip_witness :
  Server.process_command 6 "SUBSCRIBE" "weather" "" two_clients = Ok two_clients ∧
  ∃ s1, Server.process_command 6 "SUBSCRIBE" "news" "" two_clients = Ok s1 ∧
        Server.process_command 6 "UNSUBSCRIBE" "news" "" s1 = Ok two_clients.
Proof.
  destruct (subscribe_unsubscribe_round_trip two_clients 6 "weather" "" 2%positive
              {| Client.name := "bob"; Client.fileno := 6; Client.connected := true;
                 Client.lost_time := 0 # 1; Client.message_stream := [];
                 Client.topics := {["weather"; "sports"]} |}) as [Hsame _].
  { apply two_clients_reachable. }
  { vm_compute. reflexivity. }
  { vm_compute. reflexivity. }
  { discriminate. }
  destruct (subscribe_unsubscribe_round_trip two_clients 6 "news" "" 2%positive
              {| Client.name := "bob"; Client.fileno := 6; Client.connected := true;
                 Client.lost_time := 0 # 1; Client.message_stream := [];
                 Client.topics := {["weather"; "sports"]} |}) as [_ Hnew].
  { apply two_clients_reachable. }
  { vm_compute. reflexivity. }
  { vm_compute. reflexivity. }
  { discriminate. }
  split.
  - apply Hsame. vm_compute. reflexivity.
  - destruct Hnew as (_ & s1 & H1 & _ & H2).
    + vm_compute. intros H. discriminate H.
    + exists s1. split; [exact H1|exact H2].
Defined.

(** ** Losing a connection and coming back *)

(** X11: when the peer of a connected client closes the connection, the
    client goes to the lost table with the time of the loss, and the
    connection is closed; a CONNECT with its name on a connection that is
    pending then brings the client back as it was, with its name, its
    stream and its subscriptions, on the new descriptor: the tables of
    names, the lost table and the topic index are what they were before
    the loss. *)
Theorem lost_client_restored s fileno now client c :
  reachable s →
  Server.connected s !! fileno = Some client →
  Server.objects s !! client = Some c →
  ∃ s1,
    Server.receive_request_chunk fileno [] now s = Ok s1 ∧
    Server.temp_lost s1 !! Client.name c = Some client ∧
    Server.connected s1 = delete fileno (Server.connected s) ∧
    fileno ∉ Server.connections s1 ∧
    Server.objects s1 !! client =
      Some (Client.mk (Client.name c) 0 false now (Client.message_stream c)
              (Client.topics c)) ∧
    ∀ fileno' data,
      fileno' ∈ Server.pending s1 →
      ∃ s2,
        Server.process_command fileno' "CONNECT" (Client.name c) data s1 = Ok s2 ∧
        Server.objects s2 !! client =
          Some (Client.mk (Client.name c) fileno' true now (Client.message_stream c)
                  (Client.topics c)) ∧
        Server.connected s2 = <[fileno' := client]> (delete fileno (Server.connected s)) ∧
        Server.connected_names s2 = Server.connected_names s ∧
        Server.temp_lost s2 = Server.temp_lost s ∧
        Server.topics s2 = Server.topics s.
Proof.
  intros Hs Hf Hc.
  pose proof (reachable_wf s Hs) as Hwf. pose proof (reachable_io_ok s Hs) as Hio.
  pose proof (io_bound_open s _ _ Hwf Hf) as Hopen.
  destruct (wf_connected s Hwf _ _ Hf) as (c' & Hc' & Hfd & Hflag & Hname).
  rewrite Hc in Hc'. injection Hc' as <-.
  assert (Server.temp_lost s !! Client.name c = None) as Hnl.
  { destruct (Server.temp_lost s !! Client.name c) as [o|] eqn:E; [|done].
    destruct (wf_temp_lost s Hwf _ _ E) as (_ & _ & _ & _ & _ & _ & ?). congruence. }
  destruct (client_lost_total fileno now client s Hwf Hio Hf) as [s1 H1].
  assert (Server.receive_request_chunk fileno [] now s = Ok s1) as Hrecv.
  { unfold Server.receive_request_chunk. rewrite decide_True by done.
    rewrite decide_True by done. by rewrite decide_True by (by eexists). }
  pose proof (client_lost_wf _ _ _ _ H1 Hwf) as Hwf1.
  pose proof (client_lost_io_ok _ _ _ _ H1 Hwf Hio) as Hio1.
  apply client_lost_effect in H1
    as (o & c' & Hf' & Hc' & E1 & E2 & E3 & E4 & E5 & E6 & E7 & E8).
  rewrite Hf in Hf'. injection Hf' as <-. rewrite Hc in Hc'. injection Hc' as <-.
  exists s1. split_and!; try done.
  - by rewrite E3, lookup_insert_eq.
  - rewrite E6. set_solver.
  - by rewrite E5, lookup_insert_eq.
  - intros fileno' data Hp.
    assert (Client.name c ≠ EmptyString) as Hne.
    { by destruct (wf_connected_names s Hwf _ _ Hname) as (? & ? & ? & ? & _). }
    destruct (process_command_total fileno' "CONNECT" (Client.name c) data s1 Hwf1 Hio1)
      as [s2 H2]; [by apply io_pending_open|].
    exists s2. split; [done|].
    unfold Server.process_command, Server.process_connect in H2.
    rewrite decide_True in H2 by done. rewrite decide_True in H2 by done.
    rewrite decide_False in H2 by done.
    rewrite decide_False in H2 by (rewrite E2, lookup_delete_eq; by intros [? ?]).
    rewrite decide_True in H2 by (rewrite E3, lookup_insert_eq; by eexists).
    apply client_restore_effect in H2
      as (o & c1 & Hl1 & Hc1 & _ & _ & F1 & F2 & F3 & F4 & F5 & _).
    rewrite E3, lookup_insert_eq in Hl1. injection Hl1 as <-.
    rewrite E5, lookup_insert_eq in Hc1. injection Hc1 as <-.
    split_and!.
    + by rewrite F5, lookup_insert_eq.
    + by rewrite F1, E1.
    + rewrite F2, E2. by apply insert_delete_id.
    + rewrite F3, E3. by apply delete_insert_id.
    + by rewrite F4, E4.
Qed.

Lemma lost_client_restored_witness :
  ∃ s1, Server.receive_request_chunk 6 [] (40 # 1) two_clients = Ok s1 ∧
        Server.temp_lost s1 !! "bob" = Some 2%positive.
Proof.
  destruct (lost_client_restored two_clients 6 (40 # 1) 2%positive
              {| Client.name := "bob"; Client.fileno := 6; Client.connected := true;
                 Client.lost_time := 0 # 1; Client.message_stream := [];
                 Client.topics := {["weather"; "sports"]} |})
    as (s1 & H & Hl & _).
  - apply two_clients_reachable.
  - vm_compute. reflexivity.
  - vm_compute. reflexivity.
  - exists s1. split; [exact H|exact Hl].
Defined.

(** ** Parsing a message *)

Lemma str_split_nonempty s : str_split s ≠ [].
Proof. destruct s as [|c s]; simpl; [done|]. case_match; [done|]. by case_match. Qed.

Lemma str_join_cons c h t : str_join (String c h :: t) = String c (str_join (h :: t)).
Proof. by destruct t. Qed.

(** [" ".join(s.split(' ')) == s] *)
Lemma str_join_split s : str_join (str_split s) = s.
Proof.
  induction s as [|c s IH]; [done|]. cbn [str_split].
  destruct (Ascii.eqb c SPACE) eqn:E.
  - apply Ascii.eqb_eq in E as ->. pose proof (str_split_nonempty s).
    destruct (str_split s) as [|h t] eqn:Es; [done|]. by rewrite <- IH.
  - pose proof (str_split_nonempty s).
    destruct (str_split s) as [|h t] eqn:Es; [done|]. by rewrite str_join_cons, IH.
Qed.

Lemma str_split_no_space s : no_space s = true → str_split s = [s].
Proof.
  induction s as [|c s IH]; [done|]. cbn [no_space str_split].
  intros [Hc Hs]%andb_true_iff. apply negb_true_iff in Hc. rewrite Hc, IH; done.
Qed.

Lemma str_split_word a b :
  no_space a = true → str_split (a +:+ " " +:+ b) = a :: str_split b.
Proof.
  induction a as [|c a IH]; [done|]. cbn [no_space].
  intros [Hc Ha]%andb_true_iff. apply negb_true_iff in Hc.
  change (String c a +:+ " " +:+ b) with (String c (a +:+ " " +:+ b)).
  cbn [str_split]. by rewrite Hc, IH.
Qed.

Lemma decode_encode s : utf8_valid (encode s) = true → decode (encode s) = Some s.
Proof.
  intros H. unfold decode. rewrite H. unfold encode.
  by rewrite String.string_of_list_byte_of_string.
Qed.

Lemma encode_nil s : encode s = [] → s = EmptyString.
Proof. by destruct s. Qed.

(** X12: a message made of a command, a first argument and data, put
    together with single spaces, is taken apart into these three again,
    whatever the data (spaces included), when the command and the argument
    hold no space and the text is UTF-8; so are the message with a
    command and an argument, and the message with a command only, the
    missing parts being read as empty. *)
Theorem parse_message_round_trip command arg1 data :
  no_space command = true →
  no_space arg1 = true →
  (utf8_valid (encode (command +:+ " " +:+ arg1 +:+ " " +:+ data)) = true →
     parse_message (encode (command +:+ " " +:+ arg1 +:+ " " +:+ data)) =
       Some (command, arg1, data)) ∧
  (utf8_valid (encode (command +:+ " " +:+ arg1)) = true →
     parse_message (encode (command +:+ " " +:+ arg1)) = Some (command, arg1, EmptyString)) ∧
  (utf8_valid (encode command) = true → command ≠ EmptyString →
     parse_message (encode command) = Some (command, EmptyString, EmptyString)).
Proof.
  intros Hc Ha. split_and!.
  - intros Hv. unfold parse_message. rewrite bool_decide_eq_false_2.
    2:{ intros E%encode_nil. by destruct command. }
    rewrite decode_encode by done. cbn zeta.
    rewrite !str_split_word by done.
    change (drop 2 (command :: arg1 :: str_split data)) with (str_split data).
    by rewrite str_join_split.
  - intros Hv. unfold parse_message. rewrite bool_decide_eq_false_2.
    2:{ intros E%encode_nil. by destruct command. }
    rewrite decode_encode by done. cbn zeta.
    rewrite str_split_word, str_split_no_space by done. done.
  - intros Hv Hne. unfold parse_message. rewrite bool_decide_eq_false_2.
    2:{ by intros E%encode_nil. }
    rewrite decode_encode by done. cbn zeta.
    rewrite str_split_no_space by done. done.
Qed.

Lemma parse_message_round_trip_witness :
  parse_message (encode "PUBLISH weather sunny  and warm") =
    Some ("PUBLISH", "weather", "sunny  and warm")%string.
Proof.
  destruct (parse_message_round_trip "PUBLISH" "weather" "sunny  and warm") as [H _].
  - reflexivity.
  - reflexivity.
  - apply H. reflexivity.
Defined.

(** ** Sending what is queued *)

Lemma send_message_chunk_fields fileno s s' :
  Server.send_message_chunk fileno s = Ok s' →
  Server.connected s' = Server.connected s ∧
  Server.connected_names s' = Server.connected_names s ∧
  Server.temp_lost s' = Server.temp_lost s ∧
  Server.topics s' = Server.topics s ∧
  Server.connections s' = Server.connections s ∧
  Server.pending s' = Server.pending s ∧
  Server.requests s' = Server.requests s.
Proof.
  intros H. apply send_message_chunk_effect in H
    as (o & c & _ & _ & _ & H1 & H2 & H3 & H4 & H6 & H7 & I2 & _). done.
Qed.

(** Successive calls of [__send_message_chunk] for one connection, until
    the stream is empty. *)
Lemma drain_loop n s fileno client c :
  wf s → io_ok s →
  Server.connected s !! fileno = Some client →
  Server.objects s !! client = Some c →
  (length (Client.message_stream c) ≤ n)%nat →
  ∃ chunks s',
    for_each (replicate (length chunks) fileno) Server.send_message_chunk s = Ok s' ∧
    chunks ≠ [] ∧
    concat chunks = Client.message_stream c ∧
    Forall (λ chunk, len chunk ≤ BUFFER_SIZE) chunks ∧
    Server.log s' =
      Server.log s ++ (SockSend fileno <$> chunks) ++ [EpollModify fileno EPOLLIN] ∧
    Server.objects s' = <[client := Client.set_message_stream [] c]> (Server.objects s) ∧
    Server.epoll s' = <[fileno := EPOLLIN]> (Server.epoll s) ∧
    Server.connected s' = Server.connected s ∧
    Server.temp_lost s' = Server.temp_lost s ∧
    Server.topics s' = Server.topics s ∧
    Server.requests s' = Server.requests s.
Proof.
  revert s c. induction n as [n IH] using lt_wf_ind. intros s c Hwf Hio Hf Hc Hn.
  destruct (send_message_chunk_total fileno client s Hwf Hio Hf) as [s1 H1].
  pose proof (send_message_chunk_wf _ _ _ H1 Hwf) as Hwf1.
  pose proof (send_message_chunk_io_ok _ _ _ H1 Hwf Hio) as Hio1.
  pose proof (send_message_chunk_fields _ _ _ H1) as (F1 & _ & F3 & F4 & _ & _ & F7).
  pose proof H1 as H1'.
  apply send_message_chunk_io in H1' as (_ & _ & o & c0 & Hf0 & Hc0 & Eo & Ee & Elog).
  rewrite Hf in Hf0. injection Hf0 as <-. rewrite Hc in Hc0. injection Hc0 as <-.
  set (stream := Client.message_stream c) in *.
  assert (len (take (Z.to_nat BUFFER_SIZE) stream) ≤ BUFFER_SIZE) as Hlen.
  { unfold len. rewrite length_take. unfold BUFFER_SIZE. lia. }
  destruct (decide (drop (Z.to_nat BUFFER_SIZE) stream = [])) as [Hd|Hd].
  - exists [take (Z.to_nat BUFFER_SIZE) stream], s1. cbn [length replicate for_each].
    rewrite H1. cbn [bind]. split_and!; try done.
    + cbn [concat]. rewrite app_nil_r. rewrite <- (take_drop (Z.to_nat BUFFER_SIZE) stream) at 2.
      by rewrite Hd, app_nil_r.
    + by repeat constructor.
    + by rewrite Eo, Hd.
  - assert (length (drop (Z.to_nat BUFFER_SIZE) stream) < n)%nat as Hless.
    { rewrite length_drop. destruct stream; [by rewrite drop_nil in Hd|].
      simpl in *. unfold BUFFER_SIZE. lia. }
    destruct (IH _ Hless s1
                (Client.set_message_stream (drop (Z.to_nat BUFFER_SIZE) stream) c))
      as (chunks & s' & H & Hne & Hcat & Hall & Glog & Go & Ge & G1 & G3 & G4 & G7);
      [done|done|by rewrite F1|by rewrite Eo, lookup_insert_eq|done|].
    exists (take (Z.to_nat BUFFER_SIZE) stream :: chunks), s'.
    cbn [length replicate for_each]. rewrite H1. cbn [bind].
    split_and!; try done; try congruence.
    + cbn [concat]. cbn in Hcat. by rewrite Hcat, take_drop.
    + by constructor.
    + rewrite Glog, Elog. rewrite fmap_cons, app_nil_r. by rewrite <- !app_assoc.
    + rewrite Go, Eo. cbn. by rewrite insert_insert_eq.
Qed.

(** X13: the stream of a connected client goes out in order.  Successive
    calls of [__send_message_chunk] for its connection send chunks of at
    most [BUFFER_SIZE] octets whose concatenation is the stream, nothing
    else; the call that sends the last of them leaves the stream empty and
    registers the descriptor for reading only. *)
Theorem stream_sent_in_order s fileno client c :
  reachable s →
  Server.connected s !! fileno = Some client →
  Server.objects s !! client = Some c →
  ∃ chunks s',
    for_each (replicate (length chunks) fileno) Server.send_message_chunk s = Ok s' ∧
    concat chunks = Client.message_stream c ∧
    Forall (λ chunk, len chunk ≤ BUFFER_SIZE) chunks ∧
    Server.log s' =
      Server.log s ++ (SockSend fileno <$> chunks) ++ [EpollModify fileno EPOLLIN] ∧
    stream_of s' client = [] ∧
    Server.epoll s' !! fileno = Some EPOLLIN.
Proof.
  intros Hs Hf Hc.
  destruct (drain_loop (length (Client.message_stream c)) s fileno client c)
    as (chunks & s' & H & _ & Hcat & Hall & Hlog & Ho & He & _);
    [by apply reachable_wf|by apply reachable_io_ok|done..|].
  exists chunks, s'. split_and!; try done.
  - unfold stream_of. by rewrite Ho, lookup_insert_eq.
  - by rewrite He, lookup_insert_eq.
Qed.

Lemma bob_restored_reachable : reachable bob_restored.
Proof.
  apply (run_reachable bob_restored_script bob_returns); [|apply bob_returns_reachable].
  vm_compute. reflexivity.
Qed.

Lemma stream_sent_in_order_witness :
  ∃ chunks s',
    for_each (replicate (length chunks) 7) Server.send_message_chunk bob_restored = Ok s' ∧
    concat chunks = wire "weather rain".
Proof.
  destruct (stream_sent_in_order bob_restored 7 2%positive bob_restored_record)
    as (chunks & s' & H & Hcat & _).
  - apply bob_restored_reachable.
  - vm_compute. reflexivity.
  - vm_compute. reflexivity.
  - exists chunks, s'. split; [exact H|exact Hcat].
Defined.

(** ** From a PUBLISH to the subscriber *)

Lemma process_publish_effect topic data subscribers s :
  wf s → topic ≠ EmptyString →
  Server.topics s !! topic = Some subscribers →
  let message := frame (encode (topic +:+ " " +:+ data)) in
  ∃ s',
    Server.process_publish topic data s = Ok s' ∧
    wf s' ∧
    Server.connected s' = Server.connected s ∧
    Server.connected_names s' = Server.connected_names s ∧
    Server.temp_lost s' = Server.temp_lost s ∧
    Server.topics s' = Server.topics s ∧
    (∀ client c, client ∈ subscribers → Server.objects s !! client = Some c →
       Server.objects s' !! client = Some (Client.add_message message c).2) ∧
    (∀ client, client ∉ subscribers →
       Server.objects s' !! client = Server.objects s !! client).
Proof.
  intros Hwf Ht HS message.
  destruct (publish_loop message (elements subscribers) s) as
    (s' & H & Hwf' & F1 & F2 & F3 & F4 & _ & Fin & Fout & _);
    [apply NoDup_elements|done| |].
  { intros o Hin%elem_of_elements.
    destruct (wf_topics_sound s Hwf _ _ _ HS Hin) as (_ & c & -> & _). by eexists. }
  exists s'. split_and!; try done.
  - unfold Server.process_publish. rewrite decide_False by done. by rewrite HS.
  - intros o c Hin Hc. apply Fin; [by apply elem_of_elements|done].
  - intros o Hni. apply Fout. by rewrite elem_of_elements.
Qed.

Lemma publish_command s fileno topic data :
  fileno ∉ Server.pending s → topic ≠ EmptyString →
  Server.process_command fileno "PUBLISH" topic data s =
  Server.process_publish topic data s.
Proof.
  intros Hp Ht. unfold Server.process_command.
  rewrite decide_False by done. rewrite decide_False by done.
  by rewrite decide_True by done.
Qed.

(** X14: a PUBLISH reaches a connected subscriber whose stream is empty
    with the next call of [__send_message_chunk] for its connection: the
    PUBLISH registers the descriptor for writing, and the call sends the
    frame [<topic> <data>] with its delimiter in one piece, when it has at
    most [BUFFER_SIZE] octets, and registers the descriptor for reading
    only again. *)
Theorem published_message_delivered s fileno topic data subscribers fileno' client c :
  reachable s →
  fileno ∉ Server.pending s →
  topic ≠ EmptyString →
  Server.topics s !! topic = Some subscribers →
  client ∈ subscribers →
  Server.connected s !! fileno' = Some client →
  Server.objects s !! client = Some c →
  Client.message_stream c = [] →
  len (frame (encode (topic +:+ " " +:+ data))) ≤ BUFFER_SIZE →
  ∃ s1 s2,
    Server.process_command fileno "PUBLISH" topic data s = Ok s1 ∧
    Server.epoll s1 !! fileno' = Some READ_WRITE ∧
    Server.send_message_chunk fileno' s1 = Ok s2 ∧
    Server.log s2 =
      Server.log s1 ++
      [SockSend fileno' (frame (encode (topic +:+ " " +:+ data)));
       EpollModify fileno' EPOLLIN] ∧
    stream_of s2 client = [] ∧
    Server.epoll s2 !! fileno' = Some EPOLLIN.
Proof.
  intros Hs Hp Ht HS Hin Hf Hc Hempty Hlen.
  pose proof (reachable_wf s Hs) as Hwf. pose proof (reachable_io_ok s Hs) as Hio.
  set (message := frame (encode (topic +:+ " " +:+ data))) in *.
  destruct (process_publish_effect topic data subscribers s Hwf Ht HS)
    as (s1 & H1 & Hwf1 & F1 & _ & _ & _ & Fin & _).
  pose proof (process_publish_io_ok _ _ _ _ H1 Hwf Hio) as Hio1.
  specialize (Fin client c Hin Hc). fold message in Fin.
  assert (Client.message_stream (Client.add_message message c).2 = message) as Hstream.
  { rewrite add_message_spec, Hempty.
    destruct (Z.ltb_spec (len (@nil byte) + len message) Client.MAX_STREAM_SIZE) as [|Hge];
      [done|].
    exfalso. change (len (@nil byte)) with 0 in Hge.
    unfold Client.MAX_STREAM_SIZE, BUFFER_SIZE in *. lia. }
  remember (Client.add_message message c).2 as c' eqn:Ec'. clear Ec'.
  assert (Server.connected s1 !! fileno' = Some client) as Hf1 by (by rewrite F1).
  assert (message ≠ []) as Hne by apply frame_nonempty.
  destruct (send_message_chunk_total fileno' client s1 Hwf1 Hio1 Hf1) as [s2 H2].
  exists s1, s2. split_and!.
  - by rewrite publish_command.
  - eapply (io_armed s1 Hio1); [done..|]. by rewrite Hstream.
  - done.
  - apply send_message_chunk_io in H2 as (_ & _ & o & c1 & Hf2 & Hc1 & _ & _ & Elog).
    rewrite Hf1 in Hf2. injection Hf2 as <-. rewrite Fin in Hc1. injection Hc1 as <-.
    rewrite Elog, Hstream.
    rewrite take_ge, drop_ge by (unfold len in Hlen; lia).
    by rewrite decide_True by done.
  - apply send_message_chunk_io in H2 as (_ & _ & o & c1 & Hf2 & Hc1 & Eo & _).
    rewrite Hf1 in Hf2. injection Hf2 as <-. rewrite Fin in Hc1. injection Hc1 as <-.
    unfold stream_of. rewrite Eo, lookup_insert_eq. cbn. rewrite Hstream.
    apply drop_ge. unfold len in Hlen. lia.
  - apply send_message_chunk_io in H2 as (_ & _ & o & c1 & Hf2 & Hc1 & _ & Ee & _).
    rewrite Hf1 in Hf2. injection Hf2 as <-. rewrite Fin in Hc1. injection Hc1 as <-.
    rewrite Ee, Hstream. rewrite drop_ge by (unfold len in Hlen; lia).
    rewrite decide_True by done. apply lookup_insert_eq.
Qed.

Lemma published_message_delivered_witness :
  ∃ s1 s2,
    Server.process_command 5 "PUBLISH" "weather" "sunny" two_clients = Ok s1 ∧
    Server.send_message_chunk 6 s1 = Ok s2 ∧
    Server.log s2 =
      Server.log s1 ++ [SockSend 6 (wire "weather sunny"); EpollModify 6 EPOLLIN].
Proof.
  destruct (published_message_delivered two_clients 5 "weather" "sunny" {[2%positive]}
              6 2%positive
              {| Client.name := "bob"; Client.fileno := 6; Client.connected := true;
                 Client.lost_time := 0 # 1; Client.message_stream := [];
                 Client.topics := {["weather"; "sports"]} |})
    as (s1 & s2 & H1 & _ & H2 & Hlog & _).
  - apply two_clients_reachable.
  - vm_compute. discriminate.
  - discriminate.
  - vm_compute. reflexivity.
  - vm_compute. reflexivity.
  - vm_compute. reflexivity.
  - vm_compute. reflexivity.
  - reflexivity.
  - vm_compute. discriminate.
  - exists s1, s2. split; [exact H1|]. split; [exact H2|exact Hlog].
Defined.

(** X15: what is published queues up in the order of publication.  After
    two PUBLISH commands on topics that a client subscribes to, its stream
    is the stream it had, followed by the frame of the first and the frame
    of the second, when the three together stay below
    [MAX_STREAM_SIZE]. *)
Theorem publications_queue_in_order s fileno topic1 data1 topic2 data2
    subscribers1 subscribers2 client c :
  reachable s →
  fileno ∉ Server.pending s →
  topic1 ≠ EmptyString → topic2 ≠ EmptyString →
  Server.topics s !! topic1 = Some subscribers1 → client ∈ subscribers1 →
  Server.topics s !! topic2 = Some subscribers2 → client ∈ subscribers2 →
  Server.objects s !! client = Some c →
  len (Client.message_stream c) + len (frame (encode (topic1 +:+ " " +:+ data1)))
    + len (frame (encode (topic2 +:+ " " +:+ data2))) < Client.MAX_STREAM_SIZE →
  ∃ s1 s2,
    Server.process_command fileno "PUBLISH" topic1 data1 s = Ok s1 ∧
    Server.process_command fileno "PUBLISH" topic2 data2 s1 = Ok s2 ∧
    stream_of s2 client =
      Client.message_stream c ++ frame (encode (topic1 +:+ " " +:+ data1))
        ++ frame (encode (topic2 +:+ " " +:+ data2)).
Proof.
  intros Hs Hp Ht1 Ht2 HS1 Hin1 HS2 Hin2 Hc Hfit.
  pose proof (reachable_wf s Hs) as Hwf.
  set (m1 := frame (encode (topic1 +:+ " " +:+ data1))) in *.
  set (m2 := frame (encode (topic2 +:+ " " +:+ data2))) in *.
  destruct (process_publish_effect topic1 data1 subscribers1 s Hwf Ht1 HS1)
    as (s1 & H1 & Hwf1 & _ & _ & _ & F4 & Fin1 & _).
  specialize (Fin1 client c Hin1 Hc). fold m1 in Fin1.
  assert (Server.topics s1 !! topic2 = Some subscribers2) as HS2' by (by rewrite F4).
  destruct (process_publish_effect topic2 data2 subscribers2 s1 Hwf1 Ht2 HS2')
    as (s2 & H2 & _ & _ & _ & _ & _ & Fin2 & _).
  specialize (Fin2 client _ Hin2 Fin1). fold m2 in Fin2.
  assert (fileno ∉ Server.pending s1) as Hp1.
  { unfold Server.process_publish in H1. rewrite decide_False, HS1 in H1 by done.
    cut (Server.pending s1 = Server.pending s); [by intros ->|].
    eapply (for_each_preserves (λ s', Server.pending s' = Server.pending s)); [|done..].
    intros o s3 s4 H34 E. apply publish_to_effect in H34 as (? & _ & _ & _ & _ & _ & _ & _ & ? & _).
    congruence. }
  assert (0 ≤ len m1 ∧ 0 ≤ len m2) as [??] by (unfold len; lia).
  exists s1, s2. split_and!.
  - by rewrite publish_command.
  - by rewrite publish_command.
  - unfold stream_of. rewrite Fin2. rewrite !add_message_spec.
    destruct (Z.ltb_spec (len (Client.message_stream c) + len m1) Client.MAX_STREAM_SIZE);
      [|lia]. cbn.
    destruct (Z.ltb_spec (len (Client.message_stream c ++ m1) + len m2)
                Client.MAX_STREAM_SIZE) as [|Hge]; [cbn; by rewrite <- app_assoc|].
    exfalso. unfold len in *. rewrite length_app in Hge. lia.
Qed.

Lemma publications_queue_in_order_witness :
  ∃ s1 s2,
    Server.process_command 5 "PUBLISH" "weather" "rain" bob_lost = Ok s1 ∧
    Server.process_command 5 "PUBLISH" "sports" "goal" s1 = Ok s2 ∧
    stream_of s2 2 = wire "weather rain" ++ wire "sports goal".
Proof.
  destruct (publications_queue_in_order bob_lost 5 "weather" "rain" "sports" "goal"
              {[2%positive]} {[2%positive]} 2%positive (with_stream [] bob_record))
    as (s1 & s2 & H1 & H2 & Hst).
  - apply bob_lost_reachable.
  - vm_compute. discriminate.
  - discriminate.
  - discriminate.
  - vm_compute. reflexivity.
  - vm_compute. reflexivity.
  - vm_compute. reflexivity.
  - vm_compute. reflexivity.
  - vm_compute. reflexivity.
  - vm_compute. reflexivity.
  - exists s1, s2. split; [exact H1|]. split; [exact H2|exact Hst].
Defined.

(** ** The sweep *)

Lemma remove_list_total now s : wf s → ∃ R, Server.remove_list now s = Ok R.
Proof.
  intros Hwf. unfold Server.remove_list.
  assert (∀ n o, (n, o) ∈ map_to_list (Server.temp_lost s) →
                 is_Some (Server.objects s !! o)) as Hl.
  { intros n o Hn%elem_of_map_to_list.
    destruct (wf_temp_lost s Hwf _ _ Hn) as (c & -> & _). by eexists. }
  revert Hl. generalize (∅ : gset positive).
  induction (map_to_list (Server.temp_lost s)) as [|[n o] l IH]; intros acc Hl.
  - by exists acc.
  - cbn [for_each]. destruct (Hl n o) as [c Hc]; [by left|].
    unfold Server.deref at 1. rewrite Hc. cbn [bind].
    destruct (Server.lost_too_long now c); cbn [bind]; apply IH; intros; apply (Hl n0); by right.
Qed.

(** Removing lost clients one after the other returns, and closes
    nothing. *)
Lemma remove_lost_clients_total l s :
  wf s → io_ok s → NoDup l →
  (∀ o, o ∈ l → ∃ n, Server.temp_lost s !! n = Some o) →
  ∃ s', for_each l Server.client_remove s = Ok s' ∧
        Server.log s' = Server.log s ∧
        Server.last_refresh s' = Server.last_refresh s ∧
        Server.requests s' = Server.requests s ∧
        Server.connections s' = Server.connections s ∧
        Server.pending s' = Server.pending s.
Proof.
  intros Hwf Hio Hnd. revert s Hwf Hio.
  induction Hnd as [|o l Hni Hnd IH]; intros s Hwf Hio Hl.
  - by exists s.
  - destruct (Hl o) as [n Hn]; [by left|].
    destruct (client_remove_total o s Hwf Hio) as [s1 H1]; [right; eauto|].
    assert (wf s1) as Hwf1 by (eapply client_remove_wf; [done| |done]; right; eauto).
    pose proof (client_remove_io_ok _ _ _ H1 Hwf Hio) as Hio1.
    pose proof H1 as H1'. apply client_remove_io in H1' as (_ & Er & c & Hc & H1').
    pose proof H1 as H1''. apply client_remove_effect in H1'' as (c' & Hc' & _ & _ & H1'').
    rewrite Hc in Hc'. injection Hc' as <-.
    destruct (wf_temp_lost s Hwf _ _ Hn) as (c' & Hc' & Hname & _ & Hflag & _).
    rewrite Hc in Hc'. injection Hc' as <-. rewrite Hflag in *.
    destruct H1' as [Ereq Elog]. destruct H1'' as (_ & _ & E3 & E6 & E7 & _).
    destruct (IH s1 Hwf1 Hio1) as (s' & H & Glog & Gr & Greq & G6 & G7).
    { intros o' Hin'. destruct (Hl o') as [n' Hn']; [by right|].
      exists n'. rewrite E3. apply lookup_delete_Some. split; [|done].
      intros E. assert (o' = o) as -> by congruence. done. }
    exists s'. cbn [for_each]. rewrite H1. cbn [bind]. split_and!; congruence.
Qed.

Lemma lost_too_long_false now c :
  Server.lost_too_long now c = false ↔ (now - Client.lost_time c <= LOST_TIMEOUT)%Q.
Proof. unfold Server.lost_too_long. by rewrite negb_false_iff, Qle_bool_iff. Qed.

(** X16: the sweep of the loop returns.  When no client is lost, or the
    clock shows the time of the last sweep, the state is left as it is.
    Otherwise the time of the second reading of the clock is recorded, and
    the lost table keeps exactly the clients that have been lost for at
    most [LOST_TIMEOUT] at that time; the others are gone from the table and
    from the topic index.  The connected clients, the connections, the
    epoll registrations and the log are left as they are. *)
Theorem sweep_removes_expired s time1 time2 :
  reachable s →
  ∃ s',
    Server.refresh time1 time2 s = Ok s' ∧
    (Server.temp_lost s = ∅ ∨ (Server.last_refresh s == time1)%Q → s' = s) ∧
    (Server.temp_lost s ≠ ∅ → ¬ (Server.last_refresh s == time1)%Q →
       Server.last_refresh s' = time2 ∧
       (∀ name client,
          Server.temp_lost s' !! name = Some client ↔
          Server.temp_lost s !! name = Some client ∧
          ∃ c, Server.objects s !! client = Some c ∧
               (time2 - Client.lost_time c <= LOST_TIMEOUT)%Q) ∧
       (∀ topic client, indexed s' topic client → live s' client) ∧
       Server.connected s' = Server.connected s ∧
       Server.connected_names s' = Server.connected_names s ∧
       Server.connections s' = Server.connections s ∧
       Server.epoll s' = Server.epoll s ∧
       Server.log s' = Server.log s).
Proof.
  intros Hs.
  pose proof (reachable_wf s Hs) as Hwf. pose proof (reachable_io_ok s Hs) as Hio.
  pose proof (refresh_due_spec time1 s) as Hdue.
  unfold Server.refresh. destruct (Server.refresh_due time1 s).
  - destruct Hdue as [[Hne Hclock] _]; [done|].
    set (s0 := Server.set_last_refresh time2 s).
    assert (wf s0) as Hwf0 by (by apply (wf_same s)).
    assert (io_ok s0) as Hio0.
    { eapply (io_ok_same s); try done. by apply streams_from_same. }
    destruct (remove_list_total time2 s0 Hwf0) as [R HR].
    pose proof (remove_list_spec _ _ _ HR) as HR'.
    destruct (remove_lost_clients_total (elements R) s0 Hwf0 Hio0)
      as (s' & H & Glog & Gr & _ & G6 & _); [apply NoDup_elements| |].
    { intros o (n & c & Hn & _)%elem_of_elements%HR'. eauto. }
    assert (Server.clients_remove_dead time2 s0 = Ok s') as Hsweep.
    { unfold Server.clients_remove_dead. rewrite HR. done. }
    exists s'. split; [done|].
    apply clients_remove_dead_spec in Hsweep as (Hwf' & F1 & F2 & F5 & F8 & F3); [|done].
    split; [intros [?|?]; done|]. intros _ _. split_and!; try done.
    + intros n o. rewrite F3. subst s0. srv_simpl.
      by setoid_rewrite lost_too_long_false.
    + intros t o (S & HS & Hin). by destruct (wf_topics_sound s' Hwf' _ _ _ HS Hin).
  - exists s. split; [done|]. split; [done|].
    intros Hne Hclock. destruct Hdue as [_ Hdue]. by discriminate Hdue.
Qed.

Lemma sweep_removes_expired_witness :
  ∃ s', Server.refresh (101 # 1) (101 # 1) bob_lost = Ok s' ∧
        Server.last_refresh s' = 101 # 1.
Proof.
  destruct (sweep_removes_expired bob_lost (101 # 1) (101 # 1) bob_lost_reachable)
    as (s' & H & _ & Hrun).
  exists s'. split; [exact H|]. apply Hrun.
  - vm_compute. discriminate.
  - vm_compute. discriminate.
Defined.

(** ** Subscriptions and what is queued *)

(** X17: the subscriptions decide what is queued.  For a connected
    client, a SUBSCRIBE to a topic followed by a PUBLISH on the topic gives
    the stream of the client to [add_message] with the frame; an
    UNSUBSCRIBE followed by a PUBLISH on the topic leaves the Client object
    as the UNSUBSCRIBE left it. *)
Theorem subscription_controls_delivery s fileno topic data client fileno' data' :
  reachable s →
  Server.connected s !! fileno = Some client →
  topic ≠ EmptyString →
  fileno' ∉ Server.pending s →
  (∃ s1 c1 s2,
     Server.process_command fileno "SUBSCRIBE" topic data s = Ok s1 ∧
     Server.objects s1 !! client = Some c1 ∧
     Server.process_command fileno' "PUBLISH" topic data' s1 = Ok s2 ∧
     Server.objects s2 !! client =
       Some (Client.add_message (frame (encode (topic +:+ " " +:+ data'))) c1).2) ∧
  (∃ s1 s2,
     Server.process_command fileno "UNSUBSCRIBE" topic data s = Ok s1 ∧
     Server.process_command fileno' "PUBLISH" topic data' s1 = Ok s2 ∧
     Server.objects s2 !! client = Server.objects s1 !! client).
Proof.
  intros Hs Hf Ht Hp. pose proof (reachable_wf s Hs) as Hwf. split.
  - destruct (process_subscribe_total fileno topic client s Hwf Ht Hf) as [s1 H1].
    pose proof (process_subscribe_wf _ _ _ _ H1 Hwf) as Hwf1.
    pose proof H1 as H1'.
    apply process_subscribe_effect in H1' as (_ & o & c & Hf' & Hc & Es1 & H1').
    rewrite Hf in Hf'. injection Hf' as <-.
    assert (Server.connected s1 !! fileno = Some client) as Hf1 by (by rewrite Es1).
    assert (fileno' ∉ Server.pending s1) as Hp1 by (by rewrite Es1).
    assert (∃ c1, Server.objects s1 !! client = Some c1 ∧ topic ∈ Client.topics c1)
      as (c1 & Hc1 & Hin).
    { case_decide as Hd; destruct H1' as [Eo _].
      - exists c. by rewrite Eo.
      - eexists. rewrite Eo, lookup_insert_eq. split; [done|]. cbn. set_solver. }
    destruct (wf_topics_complete s1 Hwf1 client c1 topic) as (S & HS & HinS);
      [left; eauto|done..|].
    destruct (process_publish_effect topic data' S s1 Hwf1 Ht HS)
      as (s2 & H2 & _ & _ & _ & _ & _ & Fin & _).
    exists s1, c1, s2. split_and!; [|done|by rewrite publish_command|by apply Fin].
    rewrite (bound_command s fileno client) by done.
    rewrite decide_False by done. rewrite decide_False by (by intros [? _]).
    by rewrite decide_True by done.
  - destruct (process_unsubscribe_total fileno topic client s Hwf Ht Hf) as [s1 H1].
    pose proof (process_unsubscribe_wf _ _ _ _ H1 Hwf) as Hwf1.
    pose proof H1 as H1'.
    apply process_unsubscribe_effect in H1' as (_ & o & c & Hf' & Hc & Es1 & H1').
    rewrite Hf in Hf'. injection Hf' as <-.
    assert (fileno' ∉ Server.pending s1) as Hp1 by (by rewrite Es1).
    assert (∃ c1, Server.objects s1 !! client = Some c1 ∧ topic ∉ Client.topics c1)
      as (c1 & Hc1 & Hni).
    { case_decide as Hd.
      - destruct H1' as [Eo _]. eexists. rewrite Eo, lookup_insert_eq. split; [done|].
        cbn. set_solver.
      - destruct H1' as [Eo _]. exists c. by rewrite Eo. }
    assert (Server.process_command fileno "UNSUBSCRIBE" topic data s = Ok s1) as Hcmd.
    { rewrite (bound_command s fileno client) by done.
      rewrite decide_False by done. rewrite decide_False by (by intros [? _]).
      rewrite decide_False by (by intros [? _]). by rewrite decide_True by done. }
    destruct (Server.topics s1 !! topic) as [S|] eqn:HS.
    + destruct (process_publish_effect topic data' S s1 Hwf1 Ht HS)
        as (s2 & H2 & _ & _ & _ & _ & _ & _ & Fout).
      exists s1, s2. split_and!; [done|by rewrite publish_command|].
      apply Fout. intros HinS.
      destruct (wf_topics_sound s1 Hwf1 _ _ _ HS HinS) as (_ & c2 & Hc2 & Hin2).
      rewrite Hc1 in Hc2. by injection Hc2 as <-.
    + exists s1, s1. split_and!; [done| |done]. rewrite publish_command by done.
      unfold Server.process_publish. rewrite decide_False by done. by rewrite HS.
Qed.

Lemma subscription_controls_delivery_witness :
  ∃ s1 s2,
    Server.process_command 6 "UNSUBSCRIBE" "weather" "" two_clients = Ok s1 ∧
    Server.process_command 5 "PUBLISH" "weather" "sunny" s1 = Ok s2 ∧
    Server.objects s2 !! 2%positive = Server.objects s1 !! 2%positive.
Proof.
  destruct (subscription_controls_delivery two_clients 6 "weather" "" 2%positive 5 "sunny")
    as [_ H].
  - apply two_clients_reachable.
  - vm_compute. reflexivity.
  - discriminate.
  - vm_compute. discriminate.
  - exact H.
Defined.

(** ** The tables of clients *)

(** X18: between two iterations of the loop, the dictionary of connected
    clients by descriptor and the one by name hold the same clients: an
    entry of either is a client whose Client object has that descriptor,
    respectively that name, and is in the other dictionary under its name,
    respectively its descriptor.  A connected client has its [connected]
    flag set and is not in the lost table; a lost client is under its name
    in the lost table, with the flag cleared and descriptor 0; and no
    client is under two descriptors or under two names. *)
Theorem client_tables_agree s :
  reachable s →
  (∀ fileno client,
     Server.connected s !! fileno = Some client ↔
     ∃ c, Server.objects s !! client = Some c ∧ Client.fileno c = fileno ∧
          Server.connected_names s !! Client.name c = Some client) ∧
  (∀ name client,
     Server.connected_names s !! name = Some client ↔
     ∃ c, Server.objects s !! client = Some c ∧ Client.name c = name ∧
          Server.connected s !! Client.fileno c = Some client) ∧
  (∀ fileno client c,
     Server.connected s !! fileno = Some client →
     Server.objects s !! client = Some c →
     Client.connected c = true ∧ Server.temp_lost s !! Client.name c = None) ∧
  (∀ name client,
     Server.temp_lost s !! name = Some client →
     ∃ c, Server.objects s !! client = Some c ∧ Client.name c = name ∧
          Client.connected c = false ∧ Client.fileno c = 0) ∧
  (∀ fileno1 fileno2 client,
     Server.connected s !! fileno1 = Some client →
     Server.connected s !! fileno2 = Some client → fileno1 = fileno2) ∧
  (∀ name1 name2 client,
     Server.connected_names s !! name1 = Some client →
     Server.connected_names s !! name2 = Some client → name1 = name2).
Proof.
  intros Hs. pose proof (reachable_wf s Hs) as Hwf. split_and!.
  - intros f o. split.
    + intros Hf. destruct (wf_connected s Hwf _ _ Hf) as (c & ? & ? & _ & ?). eauto.
    + intros (c & Hc & <- & Hn).
      destruct (wf_connected_names s Hwf _ _ Hn) as (c' & ? & _ & _ & ?). congruence.
  - intros n o. split.
    + intros Hn. destruct (wf_connected_names s Hwf _ _ Hn) as (c & ? & ? & _ & ?). eauto.
    + intros (c & Hc & <- & Hf).
      destruct (wf_connected s Hwf _ _ Hf) as (c' & ? & _ & _ & ?). congruence.
  - intros f o c Hf Hc. destruct (wf_connected s Hwf _ _ Hf) as (c' & ? & ? & ? & Hn).
    simplify_eq. split; [done|].
    destruct (Server.temp_lost s !! Client.name c) as [o'|] eqn:E; [|done].
    destruct (wf_temp_lost s Hwf _ _ E) as (_ & _ & _ & _ & _ & _ & ?). congruence.
  - intros n o Hn. destruct (wf_temp_lost s Hwf _ _ Hn) as (c & ? & ? & _ & ? & ? & _).
    eauto.
  - intros f1 f2 o H1 H2.
    destruct (wf_connected s Hwf _ _ H1) as (c1 & ? & ? & _).
    destruct (wf_connected s Hwf _ _ H2) as (c2 & ? & ? & _). congruence.
  - intros n1 n2 o H1 H2.
    destruct (wf_connected_names s Hwf _ _ H1) as (c1 & ? & ? & _).
    destruct (wf_connected_names s Hwf _ _ H2) as (c2 & ? & ? & _). congruence.
Qed.

Lemma client_tables_agree_witness :
  (∃ c, Server.objects bob_lost !! 2%positive = Some c ∧ Client.name c = "bob"%string ∧
        Client.connected c = false ∧ Client.fileno c = 0) ∧
  (∃ c, Server.objects bob_lost !! 1%positive = Some c ∧
        Client.name c = "alice"%string ∧
        Server.connected bob_lost !! Client.fileno c = Some 1%positive).
Proof.
  destruct (client_tables_agree bob_lost bob_lost_reachable)
    as (_ & Hn & _ & Hl & _).
  split.
  - apply Hl. vm_compute. reflexivity.
  - apply Hn. vm_compute. reflexivity.
Defined.

(** ** Iterations that return *)

Lemma apart_refl fileno s : apart fileno s s.
Proof. by split. Qed.

Lemma apart_trans fileno s1 s2 s3 :
  apart fileno s1 s2 → apart fileno s2 s3 → apart fileno s1 s3.
Proof.
  intros [E12 H12] [E23 H23]. split; [congruence|]. intros f Hf.
  destruct (H12 f Hf) as (? & ? & ?). destruct (H23 f Hf) as (? & ? & ?).
  split_and!; [tauto|congruence..].
Qed.

Lemma apart_same fileno s s' :
  Server.socket_fileno s' = Server.socket_fileno s →
  Server.connections s' = Server.connections s →
  Server.requests s' = Server.requests s →
  Server.connected s' = Server.connected s →
  apart fileno s s'.
Proof. intros E1 E2 E3 E4. split; [done|]. intros f _. by rewrite E2, E3, E4. Qed.

Lemma for_each_apart {A} fileno (body : A → Server.t → result Server.t) l s s' :
  (∀ x s s', body x s = Ok s' → apart fileno s s') →
  for_each l body s = Ok s' → apart fileno s s'.
Proof.
  intros Hbody. revert s. induction l as [|x l IH]; intros s H.
  - simpl in H. simplify_eq. apply apart_refl.
  - cbn [for_each] in H. apply bind_Ok in H as (s1 & H1 & H).
    eapply apart_trans; eauto.
Qed.

Lemma connection_remove_apart fileno s s' :
  Server.connection_remove fileno s = Ok s' →
  apart fileno s s' ∧ Server.connections s' ⊆ Server.connections s.
Proof.
  intros H. pose proof H as H'.
  apply connection_remove_fields in H' as (H1 & _ & _ & _ & _ & H6 & _).
  apply connection_remove_io in H as (_ & I1 & I2 & _).
  split; [|rewrite H6; set_solver]. split; [done|]. intros f Hf.
  rewrite H1, H6, I2, lookup_delete_ne by done. split_and!; [set_solver|done..].
Qed.

Lemma process_disconect_apart fileno s s' :
  Server.process_disconect fileno s = Ok s' → wf s →
  apart fileno s s' ∧ Server.connections s' ⊆ Server.connections s.
Proof.
  unfold Server.process_disconect, getitem. intros H Hwf.
  destruct (Server.connected s !! fileno) as [client|] eqn:Hf; [|done]. cbn [bind] in H.
  destruct (wf_connected s Hwf _ _ Hf) as (c & Hc & Hfd & Hflag & _).
  pose proof H as H'. apply client_remove_effect in H' as (c' & Hc' & _ & _ & H').
  apply client_remove_io in H as (I1 & _ & c'' & Hc'' & H).
  rewrite Hc in Hc', Hc''. injection Hc' as <-. injection Hc'' as <-.
  rewrite Hflag, Hfd in *. destruct H' as (_ & H1 & _ & _ & H6 & _).
  destruct H as (_ & I2 & _).
  split; [|rewrite H6; set_solver]. split; [done|]. intros f Hf'.
  rewrite H1, H6, I2, !lookup_delete_ne by done. split_and!; [set_solver|done..].
Qed.

Lemma process_publish_apart fileno topic data s s' :
  Server.process_publish topic data s = Ok s' →
  apart fileno s s' ∧ Server.connections s' ⊆ Server.connections s.
Proof.
  unfold Server.process_publish. intros H. ok_inv H.
  - cut (apart fileno s s' ∧ Server.connections s' = Server.connections s).
    { intros [? ->]. done. }
    eapply (for_each_preserves
              (λ s1, apart fileno s s1 ∧ Server.connections s1 = Server.connections s));
      [|done|by split; [apply apart_refl|]].
    intros o s1 s2 H12 [Ha Ec]. pose proof H12 as H12'.
    apply publish_to_effect in H12' as (c & _ & _ & H1 & _ & _ & _ & H6 & _ & I2 & _).
    apply publish_to_io in H12 as (I1 & _).
    split; [|congruence]. eapply apart_trans; [done|]. by apply apart_same.
  - subst. split; [apply apart_refl|done].
Qed.

Lemma process_command_apart fileno command arg1 data s s' :
  Server.process_command fileno command arg1 data s = Ok s' → wf s →
  apart fileno s s' ∧ Server.connections s' ⊆ Server.connections s.
Proof.
  unfold Server.process_command, Server.process_connect.
  intros H Hwf. ok_inv H.
  - apply connection_send_effect in E as [_ ->]. by apply connection_remove_apart in H.
  - pose proof H as H'.
    apply client_restore_effect in H'
      as (o & c & _ & _ & _ & _ & H1 & _ & _ & _ & _ & H6 & _).
    apply client_restore_io in H as (I1 & I2 & _).
    split; [|by rewrite H6]. split; [done|]. intros f Hf.
    by rewrite H1, H6, I2, lookup_insert_ne.
  - pose proof H as H'.
    apply client_add_effect in H' as (_ & _ & H1 & _ & _ & _ & _ & H6 & _).
    apply client_add_io in H as (I1 & I2 & _).
    split; [|by rewrite H6]. split; [done|]. intros f Hf.
    by rewrite H1, H6, I2, lookup_insert_ne.
  - by apply connection_remove_apart in H.
  - by apply process_disconect_apart.
  - by eapply process_publish_apart.
  - apply process_subscribe_effect in H as (_ & o & c & _ & _ & -> & _).
    split; [|done]. by apply apart_same.
  - apply process_unsubscribe_effect in H as (_ & o & c & _ & _ & -> & _).
    split; [|done]. by apply apart_same.
  - subst. split; [apply apart_refl|done].
Qed.

Lemma receive_request_chunk_apart fileno request_chunk now s s' :
  Server.receive_request_chunk fileno request_chunk now s = Ok s' → wf s →
  apart fileno s s' ∧ Server.connections s' ⊆ Server.connections s.
Proof.
  unfold Server.receive_request_chunk, getitem. intros H Hwf. ok_inv H.
  - pose proof H as H'.
    apply client_lost_effect in H' as (o & c & _ & _ & H1 & _ & _ & _ & _ & H6 & _).
    apply client_lost_io in H as (_ & I1 & I2 & _).
    split; [|rewrite H6; set_solver]. split; [done|]. intros f Hf.
    rewrite H1, H6, I2, !lookup_delete_ne by done. split_and!; [set_solver|done..].
  - by apply connection_remove_apart in H.
  - set (s1 := Server.set_requests _ s) in *.
    assert (apart fileno s s1) as Ha1.
    { split; [done|]. intros f Hf. subst s1. srv_simpl. by rewrite lookup_insert_ne. }
    cut (wf s' ∧ apart fileno s1 s' ∧ Server.connections s' ⊆ Server.connections s1).
    { intros (_ & Ha & Hc). split; [by eapply apart_trans|done]. }
    eapply (for_each_preserves
              (λ s2, wf s2 ∧ apart fileno s1 s2 ∧
                     Server.connections s2 ⊆ Server.connections s1)); [|done|].
    + intros m s2 s3 H23 (Hwf2 & Ha2 & Hc2).
      split; [by eapply process_message_wf|].
      unfold Server.process_message in H23.
      destruct (parse_message m) as [[[command arg1] data]|]; [|by simplify_eq].
      apply process_command_apart in H23 as [Ha3 Hc3]; [|done].
      split; [by eapply apart_trans|]. by etrans.
    + split_and!; [by apply (wf_same s)|apply apart_refl|done].
Qed.

(** The descriptor that an entry concerns: the new one for the listening
    socket. *)
Lemma dispatch_apart r s s' :
  Server.dispatch r s = Ok s' → wf s →
  apart (if decide (Server.ready_fileno r = Server.socket_fileno s)
         then Server.accepted r else Server.ready_fileno r) s s' ∧
  (Server.ready_fileno r ≠ Server.socket_fileno s →
   Server.connections s' ⊆ Server.connections s).
Proof.
  unfold Server.dispatch. intros H Hwf.
  destruct (decide (Server.ready_fileno r = Server.socket_fileno s)) as [Hl|Hl].
  - split; [|done]. pose proof H as H'.
    apply connection_register_effect in H' as (_ & H1 & _ & _ & _ & _ & H6 & _).
    apply connection_register_io in H as (_ & I1 & I2 & _).
    split; [done|]. intros f Hf. rewrite H1, H6, I2, lookup_insert_ne by done.
    split_and!; [set_solver|done..].
  - ok_inv H.
    + apply receive_request_chunk_apart in H as [? ?]; done.
    + apply send_message_chunk_fields in H as H'.
      destruct H' as (H1 & _ & _ & _ & H6 & _ & I2).
      apply send_message_chunk_io in H as (I1 & _).
      split; [by apply apart_same|by rewrite H6].
    + subst. split; [apply apart_refl|done].
Qed.

Lemma dispatch_total r s :
  wf s → io_ok s → plausible s r → ∃ s', Server.dispatch r s = Ok s'.
Proof.
  intros Hwf Hio Hp. unfold plausible in Hp. cbv zeta in Hp. unfold Server.dispatch.
  case_decide as Hl.
  - apply not_elem_of_dom in Hp.
    unfold Server.connection_register, Server.epoll_register. rewrite Hp. cbn [bind]. eauto.
  - destruct Hp as [Hopen Hp].
    destruct (io_open_facts s _ Hwf Hio Hopen) as (_ & _ & [request Hr] & _).
    case_decide as Hin.
    + eapply receive_request_chunk_total; eauto.
    + case_decide as Hout; [|eauto]. destruct (Hp Hout) as [client Hf].
      by eapply send_message_chunk_total.
Qed.

Lemma plausible_after r r' s s' :
  Server.dispatch r s = Ok s' → wf s → io_ok s → io_ok s' →
  Server.ready_fileno r' ≠ Server.ready_fileno r →
  plausible s r → plausible s r' → plausible s' r'.
Proof.
  intros H Hwf Hio Hio' Hne Hp Hp'.
  destruct (dispatch_apart r s s' H Hwf) as [[Es Ha] Hsub].
  unfold plausible in *. cbv zeta in Hp, Hp' |- *. rewrite Es.
  destruct (decide (Server.ready_fileno r' = Server.socket_fileno s)) as [Hl'|Hl'].
  - rewrite (io_registered s' Hio'), Es.
    rewrite (io_registered s Hio) in Hp'.
    assert (Server.ready_fileno r ≠ Server.socket_fileno s) as Hl by congruence.
    specialize (Hsub Hl). set_solver.
  - destruct Hp' as [Hopen Hp'].
    assert (Server.ready_fileno r' ≠
            (if decide (Server.ready_fileno r = Server.socket_fileno s)
             then Server.accepted r else Server.ready_fileno r)) as Hne'.
    { case_decide as Hl; [|done].
      intros E. apply Hp. rewrite (io_registered s Hio), <- E. set_solver. }
    destruct (Ha _ Hne') as (Hc & Hr & Hf). rewrite Hr, Hf.
    split; [by apply Hc|done].
Qed.

Lemma batch_total events s :
  wf s → io_ok s →
  NoDup (Server.ready_fileno <$> events) →
  Forall (plausible s) events →
  ∃ s', for_each events Server.dispatch s = Ok s' ∧ wf s' ∧ io_ok s'.
Proof.
  revert s. induction events as [|r events IH]; intros s Hwf Hio Hnd Hall.
  - by exists s.
  - apply Forall_cons in Hall as [Hr Hall]. rewrite fmap_cons in Hnd.
    apply NoDup_cons in Hnd as [Hni Hnd].
    destruct (dispatch_total r s Hwf Hio Hr) as [s1 H1].
    pose proof (dispatch_wf _ _ _ H1 Hwf) as Hwf1.
    pose proof (dispatch_io_ok _ _ _ H1 Hwf Hio) as Hio1.
    destruct (IH s1 Hwf1 Hio1 Hnd) as (s' & H & Hwf' & Hio').
    { apply Forall_forall. intros r' Hin. eapply plausible_after; try done.
      - intros E. apply Hni. rewrite <- E. by apply list_elem_of_fmap_2.
      - by eapply Forall_forall in Hall. }
    exists s'. cbn [for_each]. by rewrite H1.
Qed.

Lemma refresh_total time1 time2 s :
  wf s → io_ok s → ∃ s', Server.refresh time1 time2 s = Ok s'.
Proof.
  intros Hwf Hio. unfold Server.refresh. destruct (Server.refresh_due time1 s); [|eauto].
  set (s0 := Server.set_last_refresh time2 s).
  assert (wf s0) as Hwf0 by (by apply (wf_same s)).
  assert (io_ok s0) as Hio0.
  { eapply (io_ok_same s); try done. by apply streams_from_same. }
  destruct (remove_list_total time2 s0 Hwf0) as [R HR].
  pose proof (remove_list_spec _ _ _ HR) as HR'.
  destruct (remove_lost_clients_total (elements R) s0 Hwf0 Hio0)
    as (s' & H & _); [apply NoDup_elements| |].
  { intros o (n & c & Hn & _)%elem_of_elements%HR'. eauto. }
  exists s'. unfold Server.clients_remove_dead. by rewrite HR.
Qed.

(** X19: an iteration of the loop returns, and the loop goes on, when
    the list that [poll] returns has one entry for a descriptor at most,
    each for the listening socket with a new descriptor, for an open
    connection with a chunk that completes at most one message, or for
    writing on the connection of a connected client.  Socket calls on an
    open connection are taken to succeed. *)
Theorem iteration_returns s events time1 time2 :
  reachable s →
  NoDup (Server.ready_fileno <$> events) →
  Forall (plausible s) events →
  ∃ s', Server.server_loop_iteration events time1 time2 s = Ok s' ∧ reachable s'.
Proof.
  intros Hs Hnd Hall.
  destruct (batch_total events s) as (s1 & H1 & Hwf1 & Hio1);
    [by apply reachable_wf|by apply reachable_io_ok|done..|].
  destruct (refresh_total time1 time2 s1 Hwf1 Hio1) as [s' H].
  assert (Server.server_loop_iteration events time1 time2 s = Ok s') as Hit.
  { unfold Server.server_loop_iteration. by rewrite H1. }
  exists s'. split; [done|]. by eapply reachable_iteration.
Qed.

Lemma iteration_returns_witness :
  ∃ s', Server.server_loop_iteration
          [accept_event 3 7; recv_event 5 (wire "PUBLISH weather sunny") (3 # 1);
           recv_event 6 [] (3 # 1)] (3 # 1) (3 # 1) two_clients = Ok s' ∧
        reachable s'.
Proof.
  apply (iteration_returns two_clients).
  - apply two_clients_reachable.
  - vm_compute. repeat (constructor; [set_solver|]). constructor.
  - apply Forall_cons_2; [|apply Forall_cons_2; [|apply Forall_cons_2; [|apply Forall_nil_2]]];
      unfold plausible; cbv zeta.
    + rewrite decide_True by (vm_compute; reflexivity). vm_compute. discriminate.
    + rewrite decide_False by (vm_compute; discriminate).
      split; [vm_compute; reflexivity|].
      rewrite decide_True by (vm_compute; discriminate).
      intros request. vm_compute. intros [= <-]. vm_compute. lia.
    + rewrite decide_False by (vm_compute; discriminate).
      split; [vm_compute; reflexivity|].
      rewrite decide_True by (vm_compute; discriminate).
      intros request. vm_compute. intros [= <-]. vm_compute. lia.
Defined.

(** ** Names and topics are words *)

Lemma str_split_words s : Forall (λ w, no_space w = true) (str_split s).
Proof.
  induction s as [|c s IH]; [by repeat constructor|]. cbn [str_split].
  destruct (Ascii.eqb c SPACE) eqn:E; [by constructor|].
  destruct (str_split s) as [|h t].
  - constructor; [|done]. cbn [no_space]. by rewrite E.
  - apply Forall_cons in IH as [Hh Ht]. constructor; [|done]. cbn [no_space]. by rewrite E, Hh.
Qed.

Lemma parse_message_words bin_msg command arg1 data :
  parse_message bin_msg = Some (command, arg1, data) →
  no_space command = true ∧ no_space arg1 = true.
Proof.
  unfold parse_message. case_bool_decide; [done|].
  destruct (decode bin_msg) as [msg|]; [|done]. cbn zeta. intros [= <- <- _].
  pose proof (str_split_words msg) as Hw. rewrite Forall_lookup in Hw.
  split.
  - destruct (str_split msg !! 0%nat) eqn:E; [by eapply Hw|done].
  - destruct (str_split msg !! 1%nat) eqn:E; [by eapply Hw|done].
Qed.

(** Splitting at the spaces takes the join of [l] apart into [l], when [l]
    is not empty and holds no word with a space. *)
Lemma str_split_join l :
  l ≠ [] → Forall (λ w, no_space w = true) l → str_split (str_join l) = l.
Proof.
  induction l as [|x [|y l] IH]; intros Hne Hall; [done| |].
  - apply Forall_cons in Hall as [Hx _]. by apply str_split_no_space.
  - apply Forall_cons in Hall as [Hx Hall].
    change (str_join (x :: y :: l)) with (x +:+ " " +:+ str_join (y :: l)).
    rewrite str_split_word by done. by rewrite IH.
Qed.

Lemma words_ok_same s s' : Server.objects s' = Server.objects s → words_ok s → words_ok s'.
Proof. intros E H o c Hc. apply (H o). by rewrite <- E. Qed.

Lemma words_ok_insert s s' client c' :
  Server.objects s' = <[client := c']> (Server.objects s) →
  word (Client.name c') → (∀ topic, topic ∈ Client.topics c' → word topic) →
  words_ok s → words_ok s'.
Proof.
  intros E Hn Ht H o c Hc. rewrite E in Hc.
  apply lookup_insert_Some in Hc as [[<- <-]|[_ Hc]]; [done|by apply (H o)].
Qed.

Lemma publish_to_words message client s s' :
  Server.publish_to message client s = Ok s' → words_ok s → words_ok s'.
Proof.
  intros H Hw. apply publish_to_effect in H as (c & Hc & Eo & _).
  destruct (add_message_fields message c) as (En & _ & _ & Et & _).
  destruct (Hw _ _ Hc). eapply words_ok_insert; [done| | |done]; by rewrite ?En, ?Et.
Qed.

Lemma process_command_words fileno command arg1 data s s' :
  Server.process_command fileno command arg1 data s = Ok s' →
  no_space arg1 = true → words_ok s → words_ok s'.
Proof.
  unfold Server.process_command, Server.process_connect, Server.process_disconect,
    Server.process_publish, getitem.
  intros H Harg Hw. ok_inv H.
  - apply connection_send_effect in E as [_ ->].
    apply connection_remove_fields in H as (_ & _ & _ & _ & Eo & _).
    by apply (words_ok_same s).
  - apply client_restore_effect in H
      as (o & c & _ & Hc & _ & _ & _ & _ & _ & _ & Eo & _).
    destruct (Hw _ _ Hc). by eapply words_ok_insert.
  - apply client_add_effect in H as (_ & _ & _ & _ & _ & _ & Eo & _).
    eapply words_ok_insert; [done| |cbn; set_solver|done]. split; [|done]. cbn. tauto.
  - apply connection_remove_fields in H as (_ & _ & _ & _ & Eo & _).
    by apply (words_ok_same s).
  - apply client_remove_effect in H as (c & _ & Eo & _). by apply (words_ok_same s).
  - eapply (for_each_preserves words_ok); [|done..]. intros ???. apply publish_to_words.
  - by subst.
  - apply process_subscribe_effect in H as (Hne & o & c & _ & Hc & _ & H).
    destruct (Hw _ _ Hc) as [Hn Ht]. case_decide; destruct H as [Eo _].
    + by apply (words_ok_same s).
    + eapply words_ok_insert; [done..| |done]. cbn.
      intros t [?|Heq%elem_of_singleton]%elem_of_union; [by apply Ht|]. by subst.
  - apply process_unsubscribe_effect in H as (Hne & o & c & _ & Hc & _ & H).
    destruct (Hw _ _ Hc) as [Hn Ht]. case_decide; destruct H as [Eo _].
    + eapply words_ok_insert; [done..| |done]. cbn. intros t [? _]%elem_of_difference.
      by apply Ht.
    + by apply (words_ok_same s).
  - by subst.
Qed.

Lemma receive_request_chunk_words fileno request_chunk now s s' :
  Server.receive_request_chunk fileno request_chunk now s = Ok s' →
  words_ok s → words_ok s'.
Proof.
  unfold Server.receive_request_chunk, getitem. intros H Hw. ok_inv H.
  - apply client_lost_effect in H as (o & c & _ & Hc & _ & _ & _ & _ & Eo & _).
    destruct (Hw _ _ Hc). by eapply words_ok_insert.
  - apply connection_remove_fields in H as (_ & _ & _ & _ & Eo & _).
    by apply (words_ok_same s).
  - eapply (for_each_preserves words_ok); [|done|by apply (words_ok_same s)].
    intros m s1 s2 H12 Hw1. unfold Server.process_message in H12.
    destruct (parse_message m) as [[[command arg1] data]|] eqn:Hparse; [|by simplify_eq].
    apply parse_message_words in Hparse as [_ Harg].
    by eapply process_command_words.
Qed.

Lemma dispatch_words r s s' : Server.dispatch r s = Ok s' → words_ok s → words_ok s'.
Proof.
  unfold Server.dispatch. intros H Hw. ok_inv H.
  - apply connection_register_effect in H as (_ & _ & _ & _ & _ & Eo & _).
    by apply (words_ok_same s).
  - by eapply receive_request_chunk_words.
  - apply send_message_chunk_effect in H as (o & c & _ & Hc & Eo & _).
    destruct (Hw _ _ Hc). by eapply words_ok_insert.
  - by subst.
Qed.

Lemma reachable_words s : reachable s → words_ok s.
Proof.
  induction 1 as [|s events time1 time2 s' Hs IH H].
  - intros o c Hc. cbn in Hc. by rewrite lookup_empty in Hc.
  - unfold Server.server_loop_iteration in H. apply bind_Ok in H as (s1 & H1 & H).
    assert (words_ok s1) as Hw1.
    { eapply (for_each_preserves words_ok); [|done..]. intros ???. apply dispatch_words. }
    assert (wf s1) as Hwf1.
    { eapply (for_each_preserves wf); [|done|by apply reachable_wf].
      intros ???. apply dispatch_wf. }
    unfold Server.refresh in H. ok_inv H; [|by subst].
    apply clients_remove_dead_spec in H as (_ & _ & _ & Eo & _); [|by apply (wf_same s1)].
    by apply (words_ok_same s1).
Qed.

(** X20: the names of the clients and the topics they subscribe to are
    words: not empty and without a space, since both are the first
    argument of a parsed command.  So the list of topics that the reply to
    a restoring CONNECT joins with spaces can be split at the spaces into
    the topics again, when there is a topic at all. *)
Theorem names_and_topics_are_words s client c :
  reachable s →
  Server.objects s !! client = Some c →
  word (Client.name c) ∧
  (∀ topic, topic ∈ Client.topics c → word topic) ∧
  (Client.topics c ≠ ∅ →
     str_split (str_join (elements (Client.topics c))) = elements (Client.topics c)).
Proof.
  intros Hs Hc. destruct (reachable_words s Hs _ _ Hc) as [Hn Ht].
  split_and!; [done..|]. intros Hne. apply str_split_join.
  - intros E. apply Hne. by apply elements_empty_inv in E; apply leibniz_equiv in E.
  - apply Forall_forall. intros t Hin%elem_of_elements. by apply Ht.
Qed.

Lemma names_and_topics_are_words_witness :
  word (Client.name bob_restored_record) ∧
  str_split (str_join (elements (Client.topics bob_restored_record))) =
    elements (Client.topics bob_restored_record).
Proof.
  destruct (names_and_topics_are_words bob_restored 2%positive bob_restored_record)
    as (Hn & _ & Hsplit).
  - apply bob_restored_reachable.
  - vm_compute. reflexivity.
  - split; [exact Hn|]. apply Hsplit. vm_compute. discriminate.
Defined.
